(** * ScaffoQA: assembly graphs, classical path search and QUBO assembly

    A shallow embedding of the Python sources
      - [src/utility.py]      (sequences, signed De Bruijn multigraph),
      - [src/tools_base.py]   ([check_path], [recontruct_path]),
      - [src/reconstruit.py]  ([find_path_always_first_neighbor]),
      - [ortools/tools.py]    ([bridge_graph], [decomposition]),
      - [src/qubo_util.py]    (the QUBO matrix),
      - [code/graph_path_problem.py] (the edge register),
    followed by the properties established about them.

    Conventions.  Python [str] is [string]; node identifiers are strings.
    A Python exception is a [Raise] in the [result] type.  A [while] loop
    takes a fuel argument and returns [None] when the fuel runs out.  Matrix
    entries (numpy floats in the source) are exact integers of [Z]. *)

From Stdlib Require Import ZArith Ascii String.
From stdpp Require Import base option list gmap strings fin_sets.

Local Open Scope Z_scope.
Local Open Scope string_scope.
Local Open Scope list_scope.

(** ** Exceptions *)

Inductive exn := ValueError | KeyError | IndexError | NetworkXError.

Inductive result (A : Type) :=
  | Ok (a : A)
  | Raise (e : exn).
Arguments Ok {A} a.
Arguments Raise {A} e.

#[global] Instance result_ret : MRet result := λ A a, Ok a.
#[global] Instance result_bind : MBind result := λ A B f m,
  match m with Ok a => f a | Raise e => Raise e end.
#[global] Instance result_fmap : FMap result := λ A B f m,
  match m with Ok a => Ok (f a) | Raise e => Raise e end.

#[global] Instance exn_eq_dec : EqDecision exn.
Proof. solve_decision. Defined.

(** [for x in l: body], threading a state through a body that may raise. *)
Fixpoint for_each {A S : Type} (l : list A) (body : A → S → result S) (s : S)
  : result S :=
  match l with
  | [] => Ok s
  | x :: l' => s' ← body x s; for_each l' body s'
  end.

(** [l[k]] on a Python list. *)
Definition py_index {A : Type} (l : list A) (k : nat) : result A :=
  match l !! k with Some a => Ok a | None => Raise IndexError end.

(** ** Python strings (utility.py works on [str]) *)

Definition chars (s : string) : list ascii := list_ascii_of_string s.
Definition str (l : list ascii) : string := string_of_list_ascii l.

(** [str.isspace] on the code points 0..255: TAB..CR, FS..US, SPACE, NEL,
    NBSP. *)
Definition py_isspace (c : ascii) : bool :=
  let n := nat_of_ascii c in
  ((9 <=? n) && (n <=? 13) || (28 <=? n) && (n <=? 32)
   || (n =? 133) || (n =? 160))%nat.

(** [str.upper] character by character; only the ASCII letters matter to the
    callers, every other character is left as it is. *)
Definition py_upper_char (c : ascii) : ascii :=
  let n := nat_of_ascii c in
  if ((97 <=? n) && (n <=? 122))%nat then ascii_of_nat (n - 32) else c.

Definition py_upper (s : string) : string := str (py_upper_char <$> chars s).

Fixpoint lstrip_chars (l : list ascii) : list ascii :=
  match l with
  | c :: l' => if py_isspace c then lstrip_chars l' else l
  | [] => []
  end.

(** [s.strip()] *)
Definition py_strip (s : string) : string :=
  str (reverse (lstrip_chars (reverse (lstrip_chars (chars s))))).

(** [s.split(":")]: always at least one field. *)
Fixpoint split_colon (l : list ascii) : list (list ascii) :=
  match l with
  | [] => [[]]
  | c :: l' =>
      if Ascii.eqb c ":"%char then [] :: split_colon l'
      else match split_colon l' with
           | f :: fs => (c :: f) :: fs
           | [] => [[c]]
           end
  end.

Definition py_split_colon (s : string) : list string :=
  str <$> split_colon (chars s).

(** ** Elementary functions (utility.py) *)

(** The dictionary [complement] of [reverse_complement]; [None] is the
    [KeyError] of a missing key. *)
Definition complement (c : ascii) : option ascii :=
  if Ascii.eqb c "A" then Some "T"%char
  else if Ascii.eqb c "T" then Some "A"%char
  else if Ascii.eqb c "C" then Some "G"%char
  else if Ascii.eqb c "G" then Some "C"%char
  else None.

(** [''.join(complement[nuc] for nuc in l)], the [KeyError] turned into
    [ValueError] by the [except] clause. *)
Fixpoint complement_all (l : list ascii) : result (list ascii) :=
  match l with
  | [] => Ok []
  | c :: l' =>
      match complement c with
      | Some d => r ← complement_all l'; Ok (d :: r)
      | None => Raise ValueError
      end
  end.

Definition reverse_complement (dna_sequence : string) : result string :=
  let dna_sequence := py_upper (py_strip dna_sequence) in
  str <$> complement_all (reverse (chars dna_sequence)).

Definition reverse_sign (sign : string) : result string :=
  if decide (sign = "+") then Ok "-"
  else if decide (sign = "-") then Ok "+"
  else Raise ValueError.

(** ** The signed De Bruijn multigraph (a networkx [MultiDiGraph]) *)

(** One stored edge with its key and the attributes [add_de_bruijn_edge]
    gives it. *)
Record medge := MEdge {
  e_src : string;
  e_dst : string;
  e_key : nat;
  sign_begin : string;
  sign_end : string;
  e_label : string
}.

#[global] Instance medge_eq_dec : EqDecision medge.
Proof. solve_decision. Defined.

(** Nodes and edges in insertion order. *)
Record MultiDiGraph := MkMulti {
  m_nodes : list string;
  m_edges : list medge
}.

Definition empty_multigraph : MultiDiGraph := MkMulti [] [].

(** The stored edges from [u] to [v] ([G.get_edge_data(u, v)]). *)
Definition edges_between (G : MultiDiGraph) (u v : string) : list medge :=
  filter (λ e, e_src e = u ∧ e_dst e = v) (m_edges G).

Definition m_has_edge (G : MultiDiGraph) (u v : string) : bool :=
  bool_decide (edges_between G u v ≠ []).

(** [MultiDiGraph.new_edge_key]: the number of edges already between the
    two nodes, or the next integer above it that is not yet a key. *)
Definition new_edge_key (G : MultiDiGraph) (u v : string) : nat :=
  let ks := e_key <$> edges_between G u v in
  let n := length ks in
  default n (list_find (λ k, k ∉ ks) (seq n (S n)) ≫= λ p, Some p.2).

Definition m_add_node (ns : list string) (n : string) : list string :=
  if decide (n ∈ ns) then ns else ns ++ [n].

(** [G.add_edge(u, v, sign_begin=sb, sign_end=se, label=lb)] without a key:
    both end points become nodes and a new parallel edge is stored. *)
Definition m_add_edge (G : MultiDiGraph) (u v sb se lb : string)
  : MultiDiGraph :=
  MkMulti (m_add_node (m_add_node (m_nodes G) u) v)
          (m_edges G ++ [MEdge u v (new_edge_key G u v) sb se lb]).

Definition edge_with_sign_exists (G : MultiDiGraph) (u v sb se : string)
  : bool :=
  if negb (m_has_edge G u v) then false
  else existsb (λ e, bool_decide (sign_begin e = sb)
                     && bool_decide (sign_end e = se))
               (edges_between G u v).

(** [s in {"+", "-"}] *)
Definition is_sign (s : string) : bool :=
  bool_decide (s = "+") || bool_decide (s = "-").

Definition parse_de_bruijn_link (link : string)
  : result (string * string * string) :=
  if decide (link = "") then Raise ValueError
  else
    match py_split_colon (py_strip link) with
    | [p0; sign1; target; sign2] =>
        if negb (bool_decide (p0 = "L")) then Raise ValueError
        else if negb (is_sign sign1) || negb (is_sign sign2)
             then Raise ValueError
             else Ok (sign1, target, sign2)
    | _ => Raise ValueError
    end.

(** The graph is mutated in place: the function gives the graph it leaves
    behind and how the call ended. *)
Definition add_de_bruijn_edge (G : MultiDiGraph) (v1 v2 s1 s2 : string)
  : MultiDiGraph * result unit :=
  if negb (is_sign s1) || negb (is_sign s2) then (G, Raise ValueError)
  else if negb (edge_with_sign_exists G v1 v2 s1 s2) then
    let G1 := m_add_edge G v1 v2 s1 s2 (s1 +:+ ">" +:+ s2) in
    match reverse_sign s2, reverse_sign s1 with
    | Ok r2, Ok r1 =>
        (m_add_edge G1 v2 v1 r2 r1 (r2 +:+ ">" +:+ r1), Ok ())
    | Raise e, _ => (G1, Raise e)
    | _, Raise e => (G1, Raise e)
    end
  else (G, Ok ()).

(** [try: ... except ValueError: print(...)] around each link. *)
Fixpoint add_de_bruijn_edges (G : MultiDiGraph) (v : string)
    (links : list string) : MultiDiGraph * result unit :=
  match links with
  | [] => (G, Ok ())
  | link :: links' =>
      match parse_de_bruijn_link link with
      | Ok (sign1, target, sign2) =>
          match add_de_bruijn_edge G v target sign1 sign2 with
          | (G', Ok _) => add_de_bruijn_edges G' v links'
          | (G', Raise ValueError) => add_de_bruijn_edges G' v links'
          | (G', Raise e) => (G', Raise e)
          end
      | Raise ValueError => add_de_bruijn_edges G v links'
      | Raise e => (G, Raise e)
      end
  end.

(** A call of one of the two insertion functions. *)
Inductive insertion :=
  | InsertEdge (v1 v2 s1 s2 : string)
  | InsertLinks (v : string) (links : list string).

Definition insert (G : MultiDiGraph) (op : insertion) : MultiDiGraph :=
  match op with
  | InsertEdge v1 v2 s1 s2 => (add_de_bruijn_edge G v1 v2 s1 s2).1
  | InsertLinks v links => (add_de_bruijn_edges G v links).1
  end.

(** The graph after a sequence of insertions into the empty graph. *)
Definition build (ops : list insertion) : MultiDiGraph :=
  foldl insert empty_multigraph ops.

(** The stored edges from [u] to [v] that carry the signs [(sb, se)]. *)
Definition links_with_signs (G : MultiDiGraph) (u v sb se : string)
  : list medge :=
  filter (λ e, sign_begin e = sb ∧ sign_end e = se) (edges_between G u v).

(** ** Directed graphs (a networkx [DiGraph]) *)

(** Nodes and edges in insertion order; the edge attribute ["weight"] and
    the node attribute ["nature"] are the two the sources read or write. *)
Record DiGraph := MkDi {
  nodes : list string;
  edges : list (string * string);
  weight : gmap (string * string) Z;
  nature : gmap string string
}.

Definition empty_digraph : DiGraph := MkDi [] [] ∅ ∅.

Definition has_node (G : DiGraph) (n : string) : bool :=
  bool_decide (n ∈ nodes G).

Definition add_node (G : DiGraph) (n : string) : DiGraph :=
  if has_node G n then G
  else MkDi (nodes G ++ [n]) (edges G) (weight G) (nature G).

(** [G.add_edge(u, v)]: the end points become nodes; an edge that is
    already there stays where it is. *)
Definition add_edge (G : DiGraph) (u v : string) : DiGraph :=
  let G := add_node (add_node G u) v in
  if bool_decide ((u, v) ∈ edges G) then G
  else MkDi (nodes G) (edges G ++ [(u, v)]) (weight G) (nature G).

(** [G.add_edge(u, v, weight=w)] *)
Definition add_weighted_edge (G : DiGraph) (u v : string) (w : Z) : DiGraph :=
  let G := add_edge G u v in
  MkDi (nodes G) (edges G) (<[(u, v) := w]> (weight G)) (nature G).

(** [G.nodes[n]["nature"] = tag] *)
Definition set_nature (G : DiGraph) (n tag : string) : DiGraph :=
  MkDi (nodes G) (edges G) (weight G) (<[n := tag]> (nature G)).

Definition successors (G : DiGraph) (n : string) : list string :=
  snd <$> filter (λ e, e.1 = n) (edges G).

Definition predecessors (G : DiGraph) (n : string) : list string :=
  fst <$> filter (λ e, e.2 = n) (edges G).

Definition in_degree (G : DiGraph) (n : string) : nat :=
  length (predecessors G n).

Definition out_degree (G : DiGraph) (n : string) : nat :=
  length (successors G n).

(** [G.edges()]: node by node, each node's outgoing edges. *)
Definition edges_iter (G : DiGraph) : list (string * string) :=
  n ← nodes G; (λ v, (n, v)) <$> successors G n.

(** [G.edges[i, j].get("weight", 1)] *)
Definition edge_weight (G : DiGraph) (e : string * string) : Z :=
  default 1 (weight G !! e).

Definition remove_nodes_from (G : DiGraph) (l : list string) : DiGraph :=
  MkDi (filter (λ n, n ∉ l) (nodes G))
       (filter (λ e, (e.1 ∉ l) ∧ (e.2 ∉ l)) (edges G))
       (filter (λ kv, (kv.1.1 ∉ l) ∧ (kv.1.2 ∉ l)) (weight G))
       (filter (λ kv, kv.1 ∉ l) (nature G)).

(** [nx.subgraph(G, s).copy()]: the subgraph induced by the nodes of [s].
    The order in which the copy lists its nodes is networkx's business; the
    model keeps the order of [G], and what is proved below about blocks
    speaks of their node sets only. *)
Definition subgraph (G : DiGraph) (s : list string) : DiGraph :=
  MkDi (filter (λ n, n ∈ s) (nodes G))
       (filter (λ e, e.1 ∈ s ∧ e.2 ∈ s) (edges G))
       (filter (λ kv, kv.1.1 ∈ s ∧ kv.1.2 ∈ s) (weight G))
       (filter (λ kv, kv.1 ∈ s) (nature G)).

(** What networkx requires of its own graphs: no node and no edge twice,
    and every edge between nodes of the graph. *)
Definition wf_digraph (G : DiGraph) : Prop :=
  NoDup (nodes G) ∧ NoDup (edges G)
  ∧ Forall (λ e, e.1 ∈ nodes G ∧ e.2 ∈ nodes G) (edges G).

#[global] Instance wf_digraph_dec G : Decision (wf_digraph G).
Proof. unfold wf_digraph. apply _. Defined.

(** *** Weakly connected components

    [nx.weakly_connected_components] is networkx's: a breadth-first search
    over successors and predecessors from every node not yet seen, in node
    order; each component is given as the list of its nodes. *)

Definition neighbours (G : DiGraph) (v : string) : list string :=
  successors G v ++ predecessors G v.

(** One level of the search: the nodes next to [level] not seen so far. *)
Fixpoint bfs_level (G : DiGraph) (seen : list string) (cands : list string)
  : list string :=
  match cands with
  | [] => []
  | w :: cands' =>
      if decide (w ∈ seen) then bfs_level G seen cands'
      else w :: bfs_level G (seen ++ [w]) cands'
  end.

Fixpoint plain_bfs (fuel : nat) (G : DiGraph) (seen level : list string)
  : list string :=
  match fuel with
  | O => seen
  | S fuel' =>
      match level with
      | [] => seen
      | _ =>
          let next := bfs_level G seen (level ≫= neighbours G) in
          plain_bfs fuel' G (seen ++ next) next
      end
  end.

Fixpoint components_from (G : DiGraph) (seen : list string)
    (vs : list string) : list (list string) :=
  match vs with
  | [] => []
  | v :: vs' =>
      if decide (v ∈ seen) then components_from G seen vs'
      else
        let c := plain_bfs (length (nodes G)) G [v] [v] in
        c :: components_from G (seen ++ c) vs'
  end.

Definition weakly_connected_components (G : DiGraph) : list (list string) :=
  components_from G [] (nodes G).

(** [sorted(l, key=len, reverse=True)]: stable, longest first. *)
Fixpoint insert_by_len {A : Type} (x : list A) (l : list (list A))
  : list (list A) :=
  match l with
  | [] => [x]
  | y :: l' =>
      if (length x <=? length y)%nat then y :: insert_by_len x l'
      else x :: l
  end.

Definition sorted_by_len_desc {A : Type} (l : list (list A))
  : list (list A) :=
  foldl (λ acc x, insert_by_len x acc) [] l.

(** ** Bridge decomposition (ortools/tools.py) *)

(** The test of [bridge_graph] as Python reads it:
    [in_degree == 1 & out_degree == 1] is the chained comparison
    [in_degree == (1 & out_degree) == 1], since [&] binds tighter than
    [==]. *)
Definition bridge_test (G : DiGraph) (node : string) : bool :=
  (in_degree G node =? Nat.land 1 (out_degree G node))%nat
  && (Nat.land 1 (out_degree G node) =? 1)%nat.

Definition bridge_graph (G : DiGraph) : list string :=
  filter (λ node, bridge_test G node = true) (nodes G).

(** The body of [for k, node in enumerate(node_deg_2)] for one block. *)
Definition attach_bridge (node_pre node_suc : list string)
    (kn : nat * string) (sub_graph : DiGraph) : result DiGraph :=
  let '(k, node) := kn in
  pre ← py_index node_pre k;
  let sub_graph :=
    if has_node sub_graph pre
    then set_nature (add_edge (add_node sub_graph node) pre node)
                    node "end_node"
    else sub_graph in
  suc ← py_index node_suc k;
  Ok (if has_node sub_graph suc
      then set_nature (add_edge (add_node sub_graph node) node suc)
                      node "start_node"
      else sub_graph).

Definition decomposition (G : DiGraph) : result (list DiGraph) :=
  let G_copy := G in
  let node_deg_2 := bridge_graph G in
  let node_pre := (node_deg_2 ≫= predecessors G) in
  let node_suc := (node_deg_2 ≫= successors G) in
  let G_copy := remove_nodes_from G_copy node_deg_2 in
  let list_connected_compossant :=
    sorted_by_len_desc (weakly_connected_components G_copy) in
  for_each list_connected_compossant
    (λ set_nodes list_subgraph,
       sub_graph ← for_each (imap pair node_deg_2)
                     (attach_bridge node_pre node_suc)
                     (subgraph G set_nodes);
       Ok (list_subgraph ++ [sub_graph]))
    [].

(** ** Simple paths (src/tools_base.py) *)

Definition check_path (G : DiGraph) : bool :=
  let node_start := filter (λ node, in_degree G node = 0%nat) (nodes G) in
  let node_end := filter (λ node, out_degree G node = 0%nat) (nodes G) in
  match node_start, node_end with
  | [s], [e] =>
      let nodes_without_start_end :=
        filter (λ node, node ≠ s ∧ node ≠ e) (nodes G) in
      forallb (λ node, negb (negb (in_degree G node =? 1)%nat
                             || negb (out_degree G node =? 1)%nat))
              nodes_without_start_end
  | _, _ => false
  end.

(** The [while node_start != []] loop. *)
Fixpoint walk_successors (fuel : nat) (G : DiGraph)
    (list_nodes node_start : list string) : option (list string) :=
  match fuel with
  | O => None
  | S fuel' =>
      match node_start with
      | [] => Some list_nodes
      | n :: _ => walk_successors fuel' G (list_nodes ++ [n]) (successors G n)
      end
  end.

(** [Some (Some l)]: the list returned; [Some None]: the diagnostic is
    printed and Python's [None] comes back; [None]: out of fuel. *)
Definition recontruct_path (fuel : nat) (G : DiGraph)
  : option (option (list string)) :=
  if check_path G then
    let node_start := filter (λ node, in_degree G node = 0%nat) (nodes G) in
    Some <$> walk_successors fuel G [] node_start
  else Some None.

(** ** Greedy walk (src/reconstruit.py) *)

Fixpoint first_neighbor_loop (fuel : nat) (G : DiGraph)
    (visited : gset string) (path : list string) (cat : string)
  : option (list string) :=
  match fuel with
  | O => None
  | S fuel' =>
      match successors G cat with
      | [] => Some path
      | a_neighbor :: _ =>
          if decide (a_neighbor ∈ visited) then Some path
          else first_neighbor_loop fuel' G ({[a_neighbor]} ∪ visited)
                 (path ++ [a_neighbor]) a_neighbor
      end
  end.

(** [G.successors] raises [NetworkXError] for a node that is not in the
    graph; only the starting point can be one. *)
Definition find_path_always_first_neighbor (fuel : nat) (G : DiGraph)
    (starting_point : string) : option (result (list string)) :=
  if has_node G starting_point
  then Ok <$> first_neighbor_loop fuel G {[starting_point]}
                [starting_point] starting_point
  else Some (Raise NetworkXError).

(** ** The path problem and its edge register (code/graph_path_problem.py) *)

(** [edges_register] is a [bidict]: the forward map from an edge to its
    index; a [bidict] holds no index twice. *)
Record GraphPathProblem := MkProblem {
  graph : DiGraph;
  k_mer : nat;
  edges_register : gmap (string * string) nat
}.

Definition update_edges_register (prob : GraphPathProblem)
  : GraphPathProblem :=
  let er := foldl (λ er ie, <[ie.2 := ie.1]> er) ∅
                  (imap pair (edges_iter (graph prob))) in
  MkProblem (graph prob) (k_mer prob) er.

(** [prob.edges_register[e]] *)
Definition register_index (prob : GraphPathProblem) (e : string * string)
  : result nat :=
  match edges_register prob !! e with
  | Some d => Ok d
  | None => Raise KeyError
  end.

(** The register serves the graph: every edge has an index below the size
    of the register, and no index is given twice. *)
Definition valid_register (prob : GraphPathProblem) : bool :=
  forallb (λ e, match edges_register prob !! e with
                | Some d => (d <? size (edges_register prob))%nat
                | None => false
                end) (edges (graph prob))
  && bool_decide (NoDup (map_to_list (edges_register prob)).*2).

(** ** Matrices (numpy arrays of two dimensions) *)

(** The arrays of the source are [np.zeros((n, n))], arrays of float64, and
    a Python integer that meets them (the weight of an edge written into
    [Q_main], one of the four weights that scales a matrix) becomes a
    float64.  The model computes with the integers of [Z]: this is what
    float64 does as long as every number that comes up is an integer of
    magnitude at most [2^53].  Beyond, float64 rounds, and an integer
    beyond its range raises [OverflowError]; the properties of [get_qubo]
    carry the bounds that keep the computation in the exact range
    ([float64_exact], [small_weight]). *)
Abbreviation matrix := (list (list Z)).

Definition zeros (n : nat) : matrix := replicate n (replicate n 0).

Definition mat_get (Q : matrix) (r c : nat) : option Z :=
  Q !! r ≫= λ row, row !! c.

(** [Q[r, c] = val] *)
Definition mat_set (Q : matrix) (r c : nat) (val : Z) : result matrix :=
  match Q !! r with
  | Some row =>
      if (c <? length row)%nat then Ok (<[r := <[c := val]> row]> Q)
      else Raise IndexError
  | None => Raise IndexError
  end.

(** [Q[r, c] += val] *)
Definition mat_add_at (Q : matrix) (r c : nat) (val : Z) : result matrix :=
  match mat_get Q r c with
  | Some x => mat_set Q r c (x + val)
  | None => Raise IndexError
  end.

Definition mat_scale (k : Z) (A : matrix) : matrix :=
  (λ row : list Z, Z.mul k <$> row) <$> A.

Definition mat_plus (A B : matrix) : matrix := zip_with (zip_with Z.add) A B.

Definition mat_minus (A B : matrix) : matrix := zip_with (zip_with Z.sub) A B.

Definition ncols (A : matrix) : nat := default 0%nat (length <$> head A).

(** [A.T] *)
Definition mat_transpose (A : matrix) : matrix :=
  (λ c, (λ row, default 0 (row !! c)) <$> A) <$> seq 0 (ncols A).

(** [A.diagonal()] of a square matrix *)
Definition mat_diagonal (A : matrix) : list Z :=
  imap (λ i row, default 0 (row !! i)) A.

(** [np.diag(v)] *)
Definition mat_diag (v : list Z) : matrix :=
  imap (λ i x, <[i := x]> (replicate (length v) 0)) v.

Definition square (n : nat) (A : matrix) : Prop :=
  length A = n ∧ Forall (λ row, length row = n) A.

(** [x^T Q x] *)
Definition dot (u v : list Z) : Z := foldr Z.add 0 (zip_with Z.mul u v).

Definition energy (Q : matrix) (x : list Z) : Z :=
  dot x ((λ row, dot row x) <$> Q).

(** ** The QUBO matrix (src/qubo_util.py) *)

Definition symetrize (A : matrix) : matrix :=
  mat_minus (mat_plus A (mat_transpose A)) (mat_diag (mat_diagonal A)).

(** The weight of the edge is written into a float64 array: as it is for
    a weight that float64 holds exactly, which is where the model is the
    code. *)
Definition get_qubo_main (prob : GraphPathProblem) : result matrix :=
  let n := size (edges_register prob) in
  for_each (nodes (graph prob))
    (λ i, for_each (successors (graph prob) i)
       (λ j Q, diag_ind ← register_index prob (i, j);
               mat_set Q diag_ind diag_ind (edge_weight (graph prob) (i, j))))
    (zeros n).

(** *** Elementary terms *)

Definition add_quad_in (prob : GraphPathProblem) (Q : matrix) (i : string)
    (val : Z) : result matrix :=
  for_each (predecessors (graph prob) i)
    (λ j, for_each (predecessors (graph prob) i)
       (λ k Q, ind_r ← register_index prob (j, i);
               ind_c ← register_index prob (k, i);
               mat_add_at Q ind_r ind_c val))
    Q.

Definition add_quad_out (prob : GraphPathProblem) (Q : matrix) (i : string)
    (val : Z) : result matrix :=
  for_each (successors (graph prob) i)
    (λ j, for_each (successors (graph prob) i)
       (λ k Q, ind_r ← register_index prob (i, j);
               ind_c ← register_index prob (i, k);
               mat_add_at Q ind_r ind_c val))
    Q.

Definition add_quad_mix (prob : GraphPathProblem) (Q : matrix) (i : string)
    (val : Z) : result matrix :=
  for_each (successors (graph prob) i)
    (λ j, for_each (predecessors (graph prob) i)
       (λ k Q, ind_r ← register_index prob (i, j);
               ind_c ← register_index prob (k, i);
               mat_add_at Q ind_r ind_c val))
    Q.

Definition add_lin_in (prob : GraphPathProblem) (Q : matrix) (j : string)
    (val : Z) : result matrix :=
  for_each (predecessors (graph prob) j)
    (λ i Q, diag_ind ← register_index prob (i, j);
            mat_add_at Q diag_ind diag_ind val)
    Q.

Definition add_lin_out (prob : GraphPathProblem) (Q : matrix) (i : string)
    (val : Z) : result matrix :=
  for_each (successors (graph prob) i)
    (λ j Q, diag_ind ← register_index prob (i, j);
            mat_add_at Q diag_ind diag_ind val)
    Q.

(** *** Penalty matrices *)

Definition get_qubo_out (prob : GraphPathProblem) : result matrix :=
  let n := size (edges_register prob) in
  for_each (nodes (graph prob))
    (λ i Q, Q ← add_lin_out prob Q i (-2); add_quad_out prob Q i 1)
    (zeros n).

Definition get_qubo_in (prob : GraphPathProblem) : result matrix :=
  let n := size (edges_register prob) in
  for_each (nodes (graph prob))
    (λ j Q, Q ← add_lin_in prob Q j (-2); add_quad_in prob Q j 1)
    (zeros n).

Definition get_qubo_flow (prob : GraphPathProblem) : result matrix :=
  let n := size (edges_register prob) in
  for_each (nodes (graph prob))
    (λ i Q, Q ← add_quad_out prob Q i 1;
            Q ← add_quad_mix prob Q i (-2);
            add_quad_in prob Q i 1)
    (zeros n).

(** [G.predecessors] and [G.successors] raise [NetworkXError] for a node
    that is not in the graph, before anything is written. *)
Definition get_qubo_flow_start (prob : GraphPathProblem) (start : string)
  : result matrix :=
  let n := size (edges_register prob) in
  if has_node (graph prob) start then
    Q ← add_lin_in prob (zeros n) start (-2);
    add_lin_out prob Q start 2
  else Raise NetworkXError.

Definition get_qubo_flow_finish (prob : GraphPathProblem) (finish : string)
  : result matrix :=
  let n := size (edges_register prob) in
  if has_node (graph prob) finish then
    Q ← add_lin_in prob (zeros n) finish 2;
    add_lin_out prob Q finish (-2)
  else Raise NetworkXError.

(** *** QUBO *)

(** The four weights scale float64 arrays whose entries are small integers
    (and the weights of the edges, for [Q_main]); the sums and the
    symmetrisation are float64 additions.  The model is the code as long as
    the products and sums stay integers that float64 holds exactly. *)
Definition get_qubo (prob : GraphPathProblem) (delta alpha beta gamma : Z)
    (start finish : option string) : result matrix :=
  Q_main ← get_qubo_main prob;
  Q_out ← get_qubo_out prob;
  Q_in ← get_qubo_in prob;
  Q_flow ← get_qubo_flow prob;
  Q_flow ← match start with
           | Some s => mat_plus Q_flow <$> get_qubo_flow_start prob s
           | None => Ok Q_flow
           end;
  Q_flow ← match finish with
           | Some f => mat_plus Q_flow <$> get_qubo_flow_finish prob f
           | None => Ok Q_flow
           end;
  let Q := mat_plus (mat_plus (mat_plus (mat_scale delta Q_main)
                                        (mat_scale alpha Q_out))
                              (mat_scale beta Q_in))
                    (mat_scale gamma Q_flow) in
  Ok (symetrize Q).

(** ** The graphs of the examples *)

(** [G.add_edge(u, v)] or [G.add_edge(u, v, weight=w)] *)
Definition add_edge_with (G : DiGraph) (u v : string) (w : option Z)
  : DiGraph :=
  match w with
  | Some w => add_weighted_edge G u v w
  | None => add_edge G u v
  end.

(** The chain A→B→C, each edge with or without a [weight] attribute. *)
Definition chain_graph (wAB wBC : option Z) : DiGraph :=
  add_edge_with (add_edge_with empty_digraph "A" "B" wAB) "B" "C" wBC.

Definition chain_problem (wAB wBC : option Z) : GraphPathProblem :=
  update_edges_register (MkProblem (chain_graph wAB wBC) 0 ∅).

(** The chain with a register given by hand: the index of A→B and the
    index of B→C. *)
Definition chain_problem_indexed (wAB wBC : option Z) (iAB iBC : nat)
  : GraphPathProblem :=
  MkProblem (chain_graph wAB wBC) 0
            (<[("B", "C") := iBC]> (<[("A", "B") := iAB]> ∅)).

(** The bit vector with [x_AB] and [x_BC] at the indices of the two edges. *)
Definition selection (iAB iBC : nat) (x_AB x_BC : bool) : list Z :=
  <[iBC := Z.b2z x_BC]> (<[iAB := Z.b2z x_AB]> [0; 0]).

(** ** Vocabulary of the properties *)

(** The four nucleotides. *)
Definition bases : list ascii := ["A"; "C"; "G"; "T"]%char.

(** A sequence over the four upper-case nucleotides. *)
Definition dna (s : string) : Prop := Forall (λ c, c ∈ bases) (chars s).

(** The complement as a total function: the letters outside the
    dictionary are left alone. *)
Definition complement_base (c : ascii) : ascii := default c (complement c).

(** The pairing of the bases, A with T and C with G; any other character
    is left alone. *)
Definition paired_base (c : ascii) : ascii :=
  match c with
  | "A" => "T"
  | "T" => "A"
  | "C" => "G"
  | "G" => "C"
  | _ => c
  end%char.

(** A character that is no nucleotide, whatever its case. *)
Definition foreign (c : ascii) : Prop := py_upper_char c ∉ bases.

#[global] Instance foreign_dec c : Decision (foreign c).
Proof. unfold foreign. apply _. Defined.

(** The reading of the error condition that looks at the sequence as it is
    given: an error exactly when some character is foreign. *)
Definition raises_iff_foreign (seq : string) : Prop :=
  reverse_complement seq = Raise ValueError ↔ Exists foreign (chars seq).

(** The tuple [(u, v, s1, s2)] is a stored link of [G]. *)
Definition stored (G : MultiDiGraph) (u v s1 s2 : string) : Prop :=
  ∃ e, e ∈ m_edges G ∧ e_src e = u ∧ e_dst e = v
       ∧ sign_begin e = s1 ∧ sign_end e = s2.

(** The double-stranded symmetry: every stored link has its mirror stored. *)
Definition symmetric (G : MultiDiGraph) : Prop :=
  ∀ u v s1 s2, stored G u v s1 s2 →
    ∃ r1 r2, reverse_sign s1 = Ok r1 ∧ reverse_sign s2 = Ok r2
             ∧ stored G v u r2 r1.

(** An optional start or finish node is a node of the graph. *)
Definition node_or_none (G : DiGraph) (o : option string) : Prop :=
  match o with Some s => s ∈ nodes G | None => True end.

(** An integer that a float64 holds exactly, and that a Python [int]
    therefore becomes without rounding or [OverflowError]. *)
Definition float64_exact (z : Z) : Prop := (Z.abs z ≤ 2 ^ 53)%Z.

#[global] Instance float64_exact_dec z : Decision (float64_exact z).
Proof. unfold float64_exact. apply _. Defined.

(** A weight of magnitude at most [2^24].  With the four weights of
    [get_qubo] and the weights of the edges in this range every number that
    comes up in [get_qubo] is an integer that float64 holds exactly: a
    product of two weights stays within [2^48], the entries of the penalty
    matrices lie between −6 and 6, so the entries of the weighted sum stay
    below [2^49] and those of its symmetrisation below [2^50]. *)
Definition small_weight (z : Z) : Prop := (Z.abs z ≤ 2 ^ 24)%Z.

#[global] Instance small_weight_dec z : Decision (small_weight z).
Proof. unfold small_weight. apply _. Defined.

(** The reading of the reward term with the [−delta] of the spec: with
    the three penalties switched off, the diagonal entry of every edge is
    [delta · (weight − 1)]. *)
Definition reward_minus_delta (prob : GraphPathProblem) (delta : Z) : Prop :=
  ∃ Q, get_qubo prob delta 0 0 0 None None = Ok Q
       ∧ ∀ e d, e ∈ edges (graph prob) → edges_register prob !! e = Some d →
                mat_get Q d d = Some (delta * (edge_weight (graph prob) e - 1)).

(** Each node of the list has an edge to the next one. *)
Definition chain (G : DiGraph) (l : list string) : Prop :=
  ∀ l1 a b l2, l = l1 ++ a :: b :: l2 → (a, b) ∈ edges G.

(** A link that is its own mirror: a self-loop whose begin sign is the
    reverse of its end sign. *)
Definition self_mirrored (u v s1 s2 : string) : Prop :=
  u = v ∧ reverse_sign s2 = Ok s1.

(** At most one stored link per tuple, the self-mirrored ones apart. *)
Definition deduplicated (G : MultiDiGraph) : Prop :=
  ∀ u v s1 s2, ¬ self_mirrored u v s1 s2 →
    (length (links_with_signs G u v s1 s2) ≤ 1)%nat.

(** A node with exactly one incoming and one outgoing edge. *)
Definition is_bridge (G : DiGraph) (n : string) : bool :=
  (in_degree G n =? 1)%nat && (out_degree G n =? 1)%nat.

(** The nodes of a graph as a set. *)
Definition node_set (G : DiGraph) : gset string := list_to_set (nodes G).

(** The blocks of a decomposition that contain the node [n]. *)
Definition blocks_with (blocks : list DiGraph) (n : string) : list DiGraph :=
  filter (λ B, has_node B n = true) blocks.

(** The blocks the decomposition gives for [G]; none if it raises. *)
Definition blocks_of (G : DiGraph) : list DiGraph :=
  match decomposition G with Ok blocks => blocks | Raise _ => [] end.

(** Every bridge of [G] lies in exactly two of the blocks. *)
Definition bridges_shared_by_two (G : DiGraph) (blocks : list DiGraph)
  : bool :=
  forallb (λ b, implb (is_bridge G b)
                      (length (blocks_with blocks b) =? 2)%nat)
          (nodes G).

(** The graphs on which the decomposition and the walks are run below. *)
Definition graph_of_edges (es : list (string * string)) : DiGraph :=
  foldl (λ G e, add_edge G e.1 e.2) empty_digraph es.

(** P→X, X→S1, X→S2, X→S3 around the node X of out-degree 3, and the
    bridge B between S1 and T. *)
Definition fan_graph : DiGraph :=
  graph_of_edges [("S1", "B"); ("B", "T"); ("S1", "U"); ("P", "X");
                  ("X", "S1"); ("X", "S2"); ("X", "S3")].

(** A→B→D and A→C→D. *)
Definition diamond_graph : DiGraph :=
  graph_of_edges [("A", "B"); ("A", "C"); ("B", "D"); ("C", "D")].

(** A→B→C→A, with the tail C→D. *)
Definition cycle_graph : DiGraph :=
  graph_of_edges [("A", "B"); ("B", "C"); ("C", "A"); ("C", "D")].

(** ** Vocabulary of the further properties *)

(** [strand u sign x]: [x] names the strand of the node [u] that [sign]
    designates, the node itself for ["+"] and ["c"] followed by the node
    for ["-"].  No other sign designates a strand. *)
Inductive strand : string → string → string → Prop :=
  | strand_forward (u : string) : strand u "+" u
  | strand_reverse (u : string) : strand u "-" ("c" +:+ u).

(** The link string [L:<sign1>:<target>:<sign2>]. *)
Definition format_link (sign1 target sign2 : string) : string :=
  "L:" +:+ sign1 +:+ ":" +:+ target +:+ ":" +:+ sign2.

(** [":".join(fields)] on lists of characters. *)
Fixpoint join_colon (fields : list (list ascii)) : list ascii :=
  match fields with
  | [] => []
  | [f] => f
  | f :: fs => f ++ ":"%char :: join_colon fs
  end.

(** What networkx keeps of a multigraph: no node twice, every edge between
    nodes of the graph. *)
Definition wf_multigraph (G : MultiDiGraph) : Prop :=
  NoDup (m_nodes G)
  ∧ Forall (λ e, e_src e ∈ m_nodes G ∧ e_dst e ∈ m_nodes G) (m_edges G).

(** Every stored edge carries two signs of [{"+", "-"}]. *)
Definition signed (G : MultiDiGraph) : Prop :=
  Forall (λ e, is_sign (sign_begin e) = true ∧ is_sign (sign_end e) = true)
         (m_edges G).

(** ** Reconstruction of the sequence (src/reconstruit.py) *)

(** An index of a Python slice brought into [0, len]: a negative index
    counts from the end. *)
Definition py_clip (len i : Z) : nat :=
  Z.to_nat (if (i <? 0)%Z then Z.max 0 (len + i) else Z.min i len).

(** [l[start:stop]] *)
Definition py_slice {A : Type} (l : list A) (start stop : Z) : list A :=
  let len := Z.of_nat (length l) in
  drop (py_clip len start) (take (py_clip len stop) l).

(** [s[start:stop]] on a string. *)
Definition str_slice (s : string) (start stop : Z) : string :=
  str (py_slice (chars s) start stop).

Definition str_len (s : string) : Z := Z.of_nat (String.length s).

(** The test [s[len(s)-k:len(s)] != sequence_of_v[:k]] of [combine_DNA] is
    false: the last [k] characters of [s] are the first [k] of the
    sequence.  When it is true the source prints a message and goes on. *)
Definition overlap_matches (s sequence_of_v : string) (k : Z) : bool :=
  bool_decide (str_slice s (str_len s - k) (str_len s)
               = str_slice sequence_of_v 0 k).

(** [G] enters through the attribute ["title"] of its nodes only: [title]
    maps the nodes that have one to their sequence, and [G.nodes[v]['title']]
    raises [KeyError] for any other node. *)
Definition combine_DNA (title : gmap string string) (s v : string) (k : Z)
  : result string :=
  match title !! v with
  | None => Raise KeyError
  | Some sequence_of_v =>
      if bool_decide (s ≠ "")
      then Ok (str_slice s 0 (str_len s - k) +:+ sequence_of_v)
      else Ok sequence_of_v
  end.

Definition recontruct_DNA (title : gmap string string)
    (path_on_graph : list string) (k : Z) : result string :=
  for_each path_on_graph (λ vertex dna_sequence,
                            combine_DNA title dna_sequence vertex k) "".

(** The length of the sequence of a node, 0 without one. *)
Definition seq_len (title : gmap string string) (v : string) : Z :=
  str_len (default "" (title !! v)).

Definition sum_Z (l : list Z) : Z := foldr Z.add 0 l.

(** Every node of the path has a sequence of at least [k] characters. *)
Definition covers (title : gmap string string) (k : Z)
    (path : list string) : Prop :=
  Forall (λ v, ∃ sq, title !! v = Some sq ∧ (k ≤ str_len sq)%Z) path.

(** The sequences along the path, each but the first without its first
    [k] characters. *)
Definition overlay (k : nat) (seqs : list string) : string :=
  match seqs with
  | [] => ""
  | sq :: seqs' =>
      sq +:+ foldr (λ t acc, str (drop k (chars t)) +:+ acc) "" seqs'
  end.

(** Each sequence ends with the [k] characters the next one starts with. *)
Fixpoint overlapping (k : nat) (seqs : list string) : Prop :=
  match seqs with
  | a :: (b :: _) as rest =>
      drop (length (chars a) - k) (chars a) = take k (chars b)
      ∧ overlapping k rest
  | _ => True
  end.

(** ** The largest component (src/reconstruit.py, src/utility.py) *)

Definition find_biggest_component (G : DiGraph) : result DiGraph :=
  let list_connected_compossant :=
    sorted_by_len_desc (weakly_connected_components G) in
  largest_component ← py_index list_connected_compossant 0;
  Ok (subgraph G largest_component).

(** ** Registers (src/tools_base.py) *)

(** [registre_edges]: the edges of [G.edges()] numbered from 0. *)
Definition registre_edges (G : DiGraph) : gmap (string * string) nat :=
  foldl (λ registre ne, <[ne.2 := ne.1]> registre) ∅
        (imap pair (edges_iter G)).

(** [registre_nodes]: the nodes numbered from 0. *)
Definition registre_nodes (G : DiGraph) : gmap string nat :=
  foldl (λ registre nn, <[nn.2 := nn.1]> registre) ∅ (imap pair (nodes G)).

(** Lists sorted by length, longest first. *)
Fixpoint longest_first {A : Type} (l : list (list A)) : Prop :=
  match l with
  | [] => True
  | x :: l' => Forall (λ y, (length y ≤ length x)%nat) l' ∧ longest_first l'
  end.

(** ** Exhaustive search (src/reconstruit.py, code/graph_path_problem.py) *)

(** A loop whose body may run out of fuel. *)
Fixpoint for_each_fuel {A S : Type} (l : list A) (body : A → S → option S)
    (s : S) : option S :=
  match l with
  | [] => Some s
  | x :: l' => s' ← body x s; for_each_fuel l' body s'
  end.

(** What the closure [dfs] shares with its caller and with itself: the
    variable [longest_path] and the two objects [path] and [visited], which
    every call changes in place. *)
Record dfs_state := MkDfs {
  longest_path : list string;
  dfs_path : list string;
  dfs_visited : gset string
}.

(** One call [dfs(current, path, visited)]; [None] when the fuel, which
    bounds the depth of the recursion, runs out. *)
Fixpoint dfs (fuel : nat) (G : DiGraph) (current : string) (st : dfs_state)
  : option dfs_state :=
  match fuel with
  | O => None
  | S fuel' =>
      let st := MkDfs (longest_path st) (dfs_path st ++ [current])
                      ({[current]} ∪ dfs_visited st) in
      '(st, extended) ←
        for_each_fuel (successors G current)
          (λ neighbor '(st, extended),
             if decide (neighbor ∈ dfs_visited st) then Some (st, extended)
             else st' ← dfs fuel' G neighbor st; Some (st', true))
          (st, false);
      let st :=
        if negb extended
           && (length (longest_path st) <? length (dfs_path st))%nat
        then MkDfs (dfs_path st) (dfs_path st) (dfs_visited st)
        else st in
      Some (MkDfs (longest_path st) (removelast (dfs_path st))
                  (dfs_visited st ∖ {[current]}))
  end.

(** [G.successors] raises [NetworkXError] for a starting point that is not
    in the graph. *)
Definition find_longest_path_dfs (fuel : nat) (G : DiGraph)
    (starting_point : string) : option (result (list string)) :=
  if has_node G starting_point
  then st ← dfs fuel G starting_point (MkDfs [] [] ∅);
       Some (Ok (longest_path st))
  else Some (Raise NetworkXError).

(** A path of [G] that starts at [c], names no node twice and keeps off the
    nodes of [V]. *)
Definition simple_from (G : DiGraph) (c : string) (V : gset string)
    (q : list string) : Prop :=
  head q = Some c ∧ NoDup q ∧ chain G q ∧ ∀ x, x ∈ q → x ∉ V.


(** What one call of [dfs] leaves behind in [longest_path]: a path no
    shorter than before, no shorter than any simple path that extends
    [path] through [current], and either the old one or such a path. *)
Definition dfs_result (G : DiGraph) (current : string) (st : dfs_state)
    (L : list string) : Prop :=
  (length (longest_path st) ≤ length L)%nat
  ∧ (∀ q, simple_from G current (dfs_visited st) q →
          (length (dfs_path st) + length q ≤ length L)%nat)
  ∧ (L = longest_path st
     ∨ ∃ q, simple_from G current (dfs_visited st) q ∧ L = dfs_path st ++ q).

(** ** Strand expansion (src/utility.py) *)

(** The elements of a list in the order of their first occurrence. *)
Fixpoint first_occurrences (seen l : list string) : list string :=
  match l with
  | [] => []
  | x :: l' =>
      if decide (x ∈ seen) then first_occurrences seen l'
      else x :: first_occurrences (seen ++ [x]) l'
  end.

(** The successors of [u] in the multigraph, in the order networkx keeps
    them: that of the first edge to each. *)
Definition m_successors (G : MultiDiGraph) (u : string) : list string :=
  first_occurrences [] (e_dst <$> filter (λ e, e_src e = u) (m_edges G)).

(** [G.edges(data=True)] of the multigraph: node by node, successor by
    successor, key by key. *)
Definition m_edges_iter (G : MultiDiGraph) : list medge :=
  u ← m_nodes G; v ← m_successors G u; edges_between G u v.

(** [G.degree(n) == 0] on a directed graph: no edge in, no edge out. *)
Definition isolated (G : DiGraph) (n : string) : Prop :=
  (in_degree G n + out_degree G n = 0)%nat.

#[global] Instance isolated_dec G n : Decision (isolated G n).
Proof. unfold isolated. apply _. Defined.

(** [remove_isolated_nodes] on a directed graph. *)
Definition remove_isolated_nodes (G : DiGraph) : DiGraph :=
  let isolated_nodes := filter (isolated G) (nodes G) in
  remove_nodes_from G isolated_nodes.

(** [u if sign == '+' else "c" + str(u)] *)
Definition orient (u sign : string) : string :=
  if decide (sign = "+") then u else "c" +:+ u.

(** The directed graph comes with the attribute ["title"] of its nodes, as
    a map beside it.  Of the multigraph, [val] and [title] are the two node
    attributes the function reads, given for the nodes that have them. *)
Definition convert_de_bruijn_to_digraph (G : MultiDiGraph)
    (val title : gmap string string)
  : result (DiGraph * gmap string string) :=
  let DG := foldl add_node empty_digraph (m_nodes G) in
  '(DG, titles) ←
    for_each (m_nodes G)
      (λ node '(DG, titles),
         let val := default node (val !! node) in
         let seq := default "" (title !! node) in
         let comp_node := "c" +:+ val in
         comp_seq ← reverse_complement seq;
         Ok (add_node DG comp_node, <[comp_node := comp_seq]> titles))
      (DG, title);
  let DG :=
    foldl (λ DG e,
             if negb (is_sign (sign_begin e)) || negb (is_sign (sign_end e))
             then DG
             else add_edge DG (orient (e_src e) (sign_begin e))
                              (orient (e_dst e) (sign_end e)))
          DG (m_edges_iter G) in
  let DG' := remove_isolated_nodes DG in
  Ok (DG', filter (λ kv, kv.1 ∈ nodes DG') titles).

(** * Properties *)

(** ** Sequences *)

Lemma chars_str l : chars (str l) = l.
Proof. apply list_ascii_of_string_of_list_ascii. Qed.

Lemma str_chars s : str (chars s) = s.
Proof. apply string_of_list_ascii_of_string. Qed.

Lemma length_str l : String.length (str l) = length l.
Proof. induction l as [|c l IH]; simpl; [done | by rewrite IH]. Qed.

Lemma base_cases c :
  c ∈ bases → c = "A"%char ∨ c = "C"%char ∨ c = "G"%char ∨ c = "T"%char.
Proof. unfold bases. rewrite !elem_of_cons, elem_of_nil. tauto. Qed.

Ltac base_analysis H :=
  apply base_cases in H; destruct H as [-> | [-> | [-> | ->]]].

Lemma base_not_space c : c ∈ bases → py_isspace c = false.
Proof. intros H; base_analysis H; reflexivity. Qed.

Lemma base_upper c : c ∈ bases → py_upper_char c = c.
Proof. intros H; base_analysis H; reflexivity. Qed.

Lemma base_complement c :
  c ∈ bases → complement c = Some (complement_base c).
Proof. intros H; base_analysis H; reflexivity. Qed.

Lemma complement_base_base c : c ∈ bases → complement_base c ∈ bases.
Proof.
  intros H; base_analysis H; unfold bases; rewrite !elem_of_cons;
    compute; naive_solver.
Qed.

Lemma complement_base_involutive c :
  c ∈ bases → complement_base (complement_base c) = c.
Proof. intros H; base_analysis H; reflexivity. Qed.

Lemma complement_is_base c d : complement c = Some d → c ∈ bases.
Proof.
  unfold complement, bases. rewrite !elem_of_cons.
  destruct (Ascii.eqb_spec c "A"); [tauto|].
  destruct (Ascii.eqb_spec c "T"); [tauto|].
  destruct (Ascii.eqb_spec c "C"); [tauto|].
  destruct (Ascii.eqb_spec c "G"); [tauto|].
  discriminate.
Qed.

Lemma lstrip_dna l : Forall (λ c, c ∈ bases) l → lstrip_chars l = l.
Proof.
  destruct 1 as [|c l Hc _]; simpl; [done|].
  by rewrite (base_not_space c Hc).
Qed.

Lemma strip_dna s : dna s → py_strip s = s.
Proof.
  intros H. unfold py_strip. rewrite (lstrip_dna _ H).
  rewrite lstrip_dna, reverse_involutive; [apply str_chars|].
  by apply Forall_reverse.
Qed.

Lemma fmap_upper_bases l :
  Forall (λ c, c ∈ bases) l → py_upper_char <$> l = l.
Proof.
  induction 1 as [|c l Hc _ IH]; [done|].
  by rewrite fmap_cons, IH, (base_upper c Hc).
Qed.

Lemma fmap_complement_involutive l :
  Forall (λ c, c ∈ bases) l →
  complement_base <$> (complement_base <$> l) = l.
Proof.
  induction 1 as [|c l Hc _ IH]; [done|].
  by rewrite !fmap_cons, IH, (complement_base_involutive c Hc).
Qed.

Lemma upper_dna s : dna s → py_upper s = s.
Proof.
  intros H. unfold py_upper. rewrite (fmap_upper_bases _ H).
  apply str_chars.
Qed.

Lemma complement_all_bases l :
  Forall (λ c, c ∈ bases) l → complement_all l = Ok (complement_base <$> l).
Proof.
  induction 1 as [|c l Hc _ IH]; simpl; [done|].
  by rewrite (base_complement c Hc), IH.
Qed.

Lemma complement_all_foreign l :
  Exists (λ c, c ∉ bases) l → complement_all l = Raise ValueError.
Proof.
  induction 1 as [c l Hc | c l _ IH]; simpl.
  - destruct (complement c) as [d|] eqn:E; [|done].
    by apply complement_is_base in E.
  - destruct (complement c); [|done]. by rewrite IH.
Qed.

Lemma reverse_complement_dna s :
  dna s → reverse_complement s = Ok (str (complement_base <$> reverse (chars s))).
Proof.
  intros H. unfold reverse_complement.
  rewrite (strip_dna s H), (upper_dna s H).
  rewrite complement_all_bases; [done|]. by apply Forall_reverse.
Qed.

Lemma reverse_complement_dna_dna s :
  dna s → dna (str (complement_base <$> reverse (chars s))).
Proof.
  intros H. unfold dna. rewrite chars_str.
  apply Forall_fmap, Forall_reverse.
  eapply Forall_impl; [exact H|]. intros c Hc. by apply complement_base_base.
Qed.

(** C10. On a sequence over the upper-case letters A, C, G and T,
    [reverse_complement] applied twice gives the sequence back, and one
    application keeps the length. *)
Theorem reverse_complement_involutive (s : string) :
  dna s →
  reverse_complement s ≫= reverse_complement = Ok s
  ∧ String.length <$> reverse_complement s = Ok (String.length s).
Proof.
  intros H. rewrite (reverse_complement_dna s H). simpl. split.
  - rewrite reverse_complement_dna by by apply reverse_complement_dna_dna.
    f_equal. rewrite chars_str, <- fmap_reverse, reverse_involutive.
    rewrite (fmap_complement_involutive _ H). apply str_chars.
  - f_equal. rewrite length_str, length_fmap, length_reverse.
    rewrite <- (str_chars s) at 2. by rewrite length_str.
Qed.

Lemma reverse_complement_involutive_witness :
  dna "GATTACA"
  ∧ reverse_complement "GATTACA" ≫= reverse_complement = Ok "GATTACA"
  ∧ String.length <$> reverse_complement "GATTACA" = Ok 7%nat.
Proof.
  assert (H : dna "GATTACA").
  { unfold dna. simpl. repeat constructor; unfold bases;
      rewrite !elem_of_cons; tauto. }
  split; [exact H|]. exact (reverse_complement_involutive "GATTACA" H).
Defined.

(** C8, as the spec words it.  The sequence [" A"] holds a blank, a
    character outside the four letters, and [reverse_complement] does not
    raise on it: the blank is stripped first. *)
Lemma reverse_complement_blank_accepted : ¬ raises_iff_foreign " A".
Proof.
  unfold raises_iff_foreign. intros [_ H].
  assert (E : Exists foreign (chars " A")).
  { apply Exists_cons_hd. unfold foreign, bases.
    rewrite !elem_of_cons, elem_of_nil. compute.
    intros H'. decompose [or] H'; first [discriminate | assumption]. }
  specialize (H E). vm_compute in H. discriminate.
Qed.

Lemma complement_base_paired c : c ∈ bases → complement_base c = paired_base c.
Proof. intros H. base_analysis H; reflexivity. Qed.

(** C8, amended.  [reverse_complement] raises exactly when the sequence,
    once its leading and trailing white space is stripped, holds a
    character outside A, C, G, T (whatever the case); otherwise it returns
    the stripped sequence in upper case, with A and T exchanged and C and G
    exchanged, and reversed. *)
Theorem reverse_complement_spec (seq : string) :
  reverse_complement seq =
    if decide (Exists foreign (chars (py_strip seq)))
    then Raise ValueError
    else Ok (str (reverse (paired_base <$>
                         (py_upper_char <$> chars (py_strip seq))))).
Proof.
  unfold reverse_complement, py_upper. rewrite chars_str.
  set (l := chars (py_strip seq)). case_decide as H.
  - rewrite complement_all_foreign; [done|].
    apply Exists_exists in H as (c & Hc & Hf).
    apply Exists_exists. exists (py_upper_char c). split; [|exact Hf].
    apply elem_of_reverse, list_elem_of_fmap. by exists c.
  - assert (Hl : Forall (λ c, c ∈ bases) (py_upper_char <$> l)).
    { apply Forall_fmap. apply Forall_forall. intros c Hc.
      destruct (decide (py_upper_char c ∈ bases)) as [|Hn]; [done|].
      exfalso. apply H. apply Exists_exists. by exists c. }
    rewrite complement_all_bases by by apply Forall_reverse.
    simpl. rewrite fmap_reverse. do 3 f_equal.
    apply Forall_fmap_ext_1.
    eapply Forall_impl; [exact Hl|]. apply complement_base_paired.
Qed.

(** ** The signed multigraph *)

Lemma stored_m_add_edge G u v sb se lb u' v' s1 s2 :
  stored (m_add_edge G u v sb se lb) u' v' s1 s2
  ↔ stored G u' v' s1 s2 ∨ (u' = u ∧ v' = v ∧ s1 = sb ∧ s2 = se).
Proof.
  unfold stored, m_add_edge; simpl. split.
  - intros (e & He & <- & <- & <- & <-).
    apply elem_of_app in He as [He | He].
    + left. by exists e.
    + right. apply list_elem_of_singleton in He. by subst e.
  - intros [(e & He & H) | (-> & -> & -> & ->)].
    + exists e. split; [|exact H]. apply elem_of_app. by left.
    + eexists. split; [apply elem_of_app; right; apply list_elem_of_singleton;
                        reflexivity|]. done.
Qed.

Lemma is_sign_reverse s :
  is_sign s = true →
  ∃ r, reverse_sign s = Ok r ∧ reverse_sign r = Ok s.
Proof.
  unfold is_sign. intros H.
  apply orb_true_iff in H as [H | H]; apply bool_decide_eq_true in H;
    subst s; eexists; split; reflexivity.
Qed.

Lemma symmetric_empty : symmetric empty_multigraph.
Proof.
  intros u v s1 s2 (e & He & _). simpl in He. by apply elem_of_nil in He.
Qed.

Lemma add_de_bruijn_edge_symmetric G v1 v2 s1 s2 :
  symmetric G → symmetric (add_de_bruijn_edge G v1 v2 s1 s2).1.
Proof.
  intros HG. unfold add_de_bruijn_edge.
  destruct (is_sign s1) eqn:E1; simpl; [|exact HG].
  destruct (is_sign s2) eqn:E2; simpl; [|exact HG].
  destruct (edge_with_sign_exists G v1 v2 s1 s2); simpl; [exact HG|].
  destruct (is_sign_reverse s1 E1) as (r1 & Hr1 & Hr1').
  destruct (is_sign_reverse s2 E2) as (r2 & Hr2 & Hr2').
  rewrite Hr1, Hr2. simpl.
  intros u v a b H.
  apply stored_m_add_edge in H as [H | (-> & -> & -> & ->)];
    [apply stored_m_add_edge in H as [H | (-> & -> & -> & ->)]|].
  - destruct (HG u v a b H) as (q1 & q2 & Hq1 & Hq2 & Hm).
    exists q1, q2. split_and!; [done..|].
    apply stored_m_add_edge. left. apply stored_m_add_edge. by left.
  - exists r1, r2. split_and!; [done..|].
    apply stored_m_add_edge. by right.
  - exists s2, s1. split_and!; [done..|].
    apply stored_m_add_edge. left. apply stored_m_add_edge. by right.
Qed.

(** An invariant of [add_de_bruijn_edge] that holds of the empty graph
    holds after any sequence of insertions. *)
Section insertion_invariant.
Variable P : MultiDiGraph → Prop.
Hypothesis P_add : ∀ G v1 v2 s1 s2,
  P G → P (add_de_bruijn_edge G v1 v2 s1 s2).1.

Lemma add_de_bruijn_edges_invariant links G v :
  P G → P (add_de_bruijn_edges G v links).1.
Proof.
  revert G. induction links as [|link links IH]; intros G HG; simpl; [done|].
  destruct (parse_de_bruijn_link link) as [[[sign1 target] sign2] | e].
  - pose proof (P_add G v target sign1 sign2 HG) as H.
    destruct (add_de_bruijn_edge G v target sign1 sign2) as [G' [u | e]];
      simpl in H; [by apply IH|].
    destruct e; simpl; auto.
  - destruct e; simpl; auto.
Qed.

Lemma insert_invariant G op : P G → P (insert G op).
Proof.
  destruct op; simpl; [apply P_add | apply add_de_bruijn_edges_invariant].
Qed.

Lemma foldl_insert_invariant ops G : P G → P (foldl insert G ops).
Proof.
  revert G. induction ops as [|op ops IH]; intros G HG; simpl; [done|].
  by apply IH, insert_invariant.
Qed.

Lemma build_invariant ops : P empty_multigraph → P (build ops).
Proof. apply foldl_insert_invariant. Qed.
End insertion_invariant.

(** C2. After any sequence of calls of [add_de_bruijn_edge] and
    [add_de_bruijn_edges] on the empty graph, every stored link
    [(u, v, s1, s2)] has its mirror [(v, u, reverse(s2), reverse(s1))]
    stored as well. *)
Theorem build_symmetric (ops : list insertion) (u v s1 s2 : string) :
  stored (build ops) u v s1 s2 →
  ∃ r1 r2, reverse_sign s1 = Ok r1 ∧ reverse_sign s2 = Ok r2
           ∧ stored (build ops) v u r2 r1.
Proof.
  apply (build_invariant symmetric add_de_bruijn_edge_symmetric ops
           symmetric_empty).
Qed.

Lemma build_symmetric_witness :
  let ops := [InsertEdge "S1" "S2" "+" "-";
              InsertLinks "S2" ["L:+:S3:+"; "L:?:S1:+"; "L:-:S1:-"]] in
  stored (build ops) "S2" "S3" "+" "+"
  ∧ ∃ r1 r2, reverse_sign "+" = Ok r1 ∧ reverse_sign "+" = Ok r2
             ∧ stored (build ops) "S3" "S2" r2 r1.
Proof.
  intros ops.
  assert (H : stored (build ops) "S2" "S3" "+" "+").
  { eexists (MEdge "S2" "S3" 0 "+" "+" "+>+").
    split; [|done]. vm_compute. do 2 right. left. }
  split; [exact H|]. exact (build_symmetric ops "S2" "S3" "+" "+" H).
Defined.

(** What [add_de_bruijn_edge] does keep: no link is stored twice unless it
    is its own mirror. *)

Lemma links_with_signs_add G a b x y lb u v sb se :
  links_with_signs (m_add_edge G a b x y lb) u v sb se
  = links_with_signs G u v sb se
    ++ (if decide ((a = u ∧ b = v) ∧ (x = sb ∧ y = se))
        then [MEdge a b (new_edge_key G a b) x y lb] else []).
Proof.
  unfold links_with_signs, edges_between, m_add_edge. simpl.
  rewrite !filter_app. f_equal.
  rewrite filter_cons, filter_nil. simpl.
  destruct (decide (a = u ∧ b = v)) as [Huv | Huv].
  - rewrite filter_cons, filter_nil. simpl.
    destruct (decide (x = sb ∧ y = se)) as [Hs | Hs].
    + by rewrite decide_True.
    + rewrite decide_False; [done | tauto].
  - rewrite filter_nil. rewrite decide_False; [done | tauto].
Qed.

Lemma stored_links G u v s1 s2 :
  stored G u v s1 s2 ↔ links_with_signs G u v s1 s2 ≠ [].
Proof.
  unfold stored, links_with_signs, edges_between. split.
  - intros (e & He & Hu & Hv & H1 & H2) Hnil.
    assert (e ∈ filter (λ e, sign_begin e = s1 ∧ sign_end e = s2)
                  (filter (λ e, e_src e = u ∧ e_dst e = v) (m_edges G))) as H.
    { apply list_elem_of_filter. split; [done|].
      by apply list_elem_of_filter. }
    rewrite Hnil in H. by apply elem_of_nil in H.
  - intros Hne.
    destruct (filter _ (filter _ (m_edges G))) as [|e l] eqn:Hf; [done|].
    assert (e ∈ e :: l) as H by apply list_elem_of_here.
    rewrite <- Hf in H. apply list_elem_of_filter in H as [[H1 H2] H].
    apply list_elem_of_filter in H as [[Hu Hv] H]. by exists e.
Qed.

Lemma edge_with_sign_missing G u v s1 s2 :
  edge_with_sign_exists G u v s1 s2 = false →
  links_with_signs G u v s1 s2 = [].
Proof.
  unfold edge_with_sign_exists, m_has_edge, links_with_signs.
  case_bool_decide as Hb; simpl.
  - intros Hex. clear Hb. induction (edges_between G u v) as [|e l IH]; [done|].
    simpl in Hex. apply orb_false_iff in Hex as [He Hl].
    rewrite filter_cons_False.
    + by apply IH.
    + intros [H1 H2]. by rewrite !bool_decide_eq_true_2 in He.
  - intros _. by rewrite Hb.
Qed.

Lemma deduplicated_empty : deduplicated empty_multigraph.
Proof. intros u v s1 s2 _. simpl. lia. Qed.

Lemma add_de_bruijn_edge_deduplicated G v1 v2 s1 s2 :
  symmetric G ∧ deduplicated G →
  symmetric (add_de_bruijn_edge G v1 v2 s1 s2).1
  ∧ deduplicated (add_de_bruijn_edge G v1 v2 s1 s2).1.
Proof.
  intros [Hsym Hded]. split; [by apply add_de_bruijn_edge_symmetric|].
  unfold add_de_bruijn_edge.
  destruct (is_sign s1) eqn:E1; simpl; [|exact Hded].
  destruct (is_sign s2) eqn:E2; simpl; [|exact Hded].
  destruct (edge_with_sign_exists G v1 v2 s1 s2) eqn:Hex; simpl; [exact Hded|].
  destruct (is_sign_reverse s1 E1) as (r1 & Hr1 & Hr1').
  destruct (is_sign_reverse s2 E2) as (r2 & Hr2 & Hr2').
  rewrite Hr1, Hr2. simpl.
  pose proof (edge_with_sign_missing G v1 v2 s1 s2 Hex) as Hnil1.
  assert (Hnil2 : links_with_signs G v2 v1 r2 r1 = []).
  { destruct (links_with_signs G v2 v1 r2 r1) eqn:Hl; [done|]. exfalso.
    assert (stored G v2 v1 r2 r1) as Hst by (apply stored_links; by rewrite Hl).
    destruct (Hsym _ _ _ _ Hst) as (q2 & q1 & Hq2 & Hq1 & Hm).
    assert (q2 = s2) as -> by congruence.
    assert (q1 = s1) as -> by congruence.
    apply stored_links in Hm. by rewrite Hnil1 in Hm. }
  intros u v a b Hself. rewrite !links_with_signs_add, !length_app.
  pose proof (Hded u v a b Hself) as Hold.
  repeat case_decide; simpl; destruct_and?; subst;
    rewrite ?Hnil1, ?Hnil2; simpl; try lia.
  exfalso. apply Hself. by split.
Qed.

(** After any sequence of insertions into the empty graph, a link that is
    not its own mirror is stored at most once. *)
Theorem build_deduplicated (ops : list insertion) (u v s1 s2 : string) :
  ¬ self_mirrored u v s1 s2 →
  (length (links_with_signs (build ops) u v s1 s2) ≤ 1)%nat.
Proof.
  apply (build_invariant (λ G, symmetric G ∧ deduplicated G)).
  - intros G v1 v2 a b. apply add_de_bruijn_edge_deduplicated.
  - split; [apply symmetric_empty | apply deduplicated_empty].
Qed.

Lemma build_deduplicated_witness :
  ¬ self_mirrored "a" "a" "+" "+"
  ∧ (length (links_with_signs (build [InsertEdge "a" "a" "+" "+";
                                       InsertEdge "a" "a" "+" "+"])
                              "a" "a" "+" "+") ≤ 1)%nat.
Proof.
  assert (H : ¬ self_mirrored "a" "a" "+" "+").
  { intros [_ H]. vm_compute in H. discriminate. }
  split; [exact H|]. exact (build_deduplicated _ "a" "a" "+" "+" H).
Defined.

(** C7, on a self-loop.  One call [add_de_bruijn_edge(G, "a", "a", "+", "-")]
    on the empty graph stores the link ("a", "a", "+", "-") twice: it is its
    own mirror, and the mirror is added without a look at what is stored. *)
Theorem self_loop_stored_twice :
  let G := build [InsertEdge "a" "a" "+" "-"] in
  links_with_signs G "a" "a" "+" "-"
    = [MEdge "a" "a" 0 "+" "-" "+>-"; MEdge "a" "a" 1 "+" "-" "+>-"]
  ∧ length (links_with_signs G "a" "a" "+" "-") = 2%nat.
Proof. split; reflexivity. Qed.

(** ** Directed graphs *)

Lemma elem_of_successors G n a : a ∈ successors G n ↔ (n, a) ∈ edges G.
Proof.
  unfold successors. rewrite list_elem_of_fmap. split.
  - intros ([u v] & -> & H). apply list_elem_of_filter in H as [Hu H].
    simpl in *. by subst u.
  - intros H. exists (n, a). split; [done|]. by apply list_elem_of_filter.
Qed.

Lemma elem_of_predecessors G n a : a ∈ predecessors G n ↔ (a, n) ∈ edges G.
Proof.
  unfold predecessors. rewrite list_elem_of_fmap. split.
  - intros ([u v] & -> & H). apply list_elem_of_filter in H as [Hv H].
    simpl in *. by subst v.
  - intros H. exists (a, n). split; [done|]. by apply list_elem_of_filter.
Qed.

Lemma successor_is_node G n a :
  wf_digraph G → a ∈ successors G n → a ∈ nodes G.
Proof.
  intros (_ & _ & H) Ha. apply elem_of_successors in Ha.
  rewrite Forall_forall in H. by destruct (H _ Ha).
Qed.

(** *** The bridge test *)

(** C3, on a node of out-degree 3.  In [fan_graph] the node X has one
    incoming edge and three outgoing ones, and [bridge_graph] returns it
    among the bridges: the test compares the in-degree with the lowest bit
    of the out-degree. *)
Theorem bridge_graph_returns_out_degree_3 :
  bridge_graph fan_graph = ["B"; "X"]
  ∧ in_degree fan_graph "X" = 1%nat
  ∧ out_degree fan_graph "X" = 3%nat
  ∧ is_bridge fan_graph "X" = false.
Proof. split_and!; reflexivity. Qed.

(** *** The decomposition *)

(** C4, on the same graph.  B, the only node of in-degree 1 and out-degree
    1, lies in exactly two blocks; every node lies in some block; and the
    node X, of out-degree 3, lies in two blocks as well. *)
Theorem decomposition_duplicates_non_bridge :
  let blocks := blocks_of fan_graph in
  node_set <$> blocks
    = [{["S1"; "U"; "B"; "X"]}; {["T"; "B"]}; {["P"; "X"]}; {["S2"]}; {["S3"]}]
  ∧ decomposition fan_graph = Ok blocks
  ∧ bridges_shared_by_two fan_graph blocks = true
  ∧ is_bridge fan_graph "X" = false
  ∧ length (blocks_with blocks "X") = 2%nat.
Proof. split_and!; vm_compute; reflexivity. Qed.

(** *** Linearisation *)

(** More fuel never changes the result of the walk. *)
Lemma walk_successors_more_fuel G fuel fuel' acc start l :
  walk_successors fuel G acc start = Some l → (fuel ≤ fuel')%nat →
  walk_successors fuel' G acc start = Some l.
Proof.
  revert fuel' acc start.
  induction fuel as [|fuel IH]; intros fuel' acc start H Hle; [done|].
  destruct fuel' as [|fuel']; [lia|]. simpl in *.
  destruct start as [|n start]; [done|]. apply IH; [done | lia].
Qed.

(** C5, on a graph that passes [check_path] without being a path.  The
    diamond A→B→D, A→C→D has one node of in-degree 0, one of out-degree 0,
    and B and C with one edge in and one out; [check_path] accepts it and
    [recontruct_path] returns A, B, D: the node C is left out. *)
Theorem recontruct_path_leaves_node_out :
  wf_digraph diamond_graph
  ∧ check_path diamond_graph = true
  ∧ recontruct_path 4 diamond_graph = Some (Some ["A"; "B"; "D"])
  ∧ "C" ∈ nodes diamond_graph
  ∧ "C" ∉ ["A"; "B"; "D"].
Proof.
  split_and!; try reflexivity.
  - apply (bool_decide_unpack _). vm_compute. exact I.
  - apply (bool_decide_unpack _). vm_compute. exact I.
  - apply (bool_decide_unpack _). vm_compute. exact I.
Qed.

(** What the walk does give on a graph that [check_path] accepts: it ends,
    starts at the node of in-degree 0, follows edges and never comes back
    to a node.  It need not reach every node, as the diamond shows. *)

Lemma recontruct_path_rejected G fuel :
  check_path G = false → recontruct_path fuel G = Some None.
Proof. intros H. unfold recontruct_path. by rewrite H. Qed.

Lemma two_elements_length {A : Type} (l : list A) (x y : A) :
  x ∈ l → y ∈ l → x ≠ y → (2 ≤ length l)%nat.
Proof.
  intros Hx Hy Hne. destruct l as [|a [|b l]]; simpl; [| |lia].
  - by apply elem_of_nil in Hx.
  - apply list_elem_of_singleton in Hx, Hy. congruence.
Qed.

Lemma chain_snoc G acc b n :
  chain G acc → last acc = Some b → (b, n) ∈ edges G → chain G (acc ++ [n]).
Proof.
  intros Hch Hlast Hedge l1 x y l2 Heq.
  destruct l2 as [|z l2 _] using rev_ind.
  - change (l1 ++ [x; y]) with (l1 ++ [x] ++ [y]) in Heq.
    rewrite app_assoc in Heq. apply app_inj_tail in Heq as [-> ->].
    rewrite last_snoc in Hlast. by injection Hlast as ->.
  - change (l1 ++ x :: y :: l2 ++ [z]) with (l1 ++ (x :: y :: l2) ++ [z]) in Heq.
    rewrite app_assoc in Heq. apply app_inj_tail in Heq as [-> _].
    by eapply Hch.
Qed.

Section linearize.
Variable G : DiGraph.
Variables s e : string.
Hypothesis Hwf : wf_digraph G.
Hypothesis Hs : in_degree G s = 0%nat.
Hypothesis He : out_degree G e = 0%nat.
Hypothesis Hmid : ∀ n, n ∈ nodes G → n ≠ s → n ≠ e →
  in_degree G n = 1%nat ∧ out_degree G n = 1%nat.

(** The walk never steps onto a node it has already listed. *)
Lemma walk_no_revisit acc b n :
  head acc = Some s → last acc = Some b → NoDup acc → chain G acc →
  (∀ x, x ∈ acc → x ∈ nodes G) →
  n ∈ successors G b → n ∉ acc.
Proof.
  intros Hhead Hlast Hnd Hch Hsub Hn Hin.
  apply elem_of_successors in Hn.
  assert (Hns : n ≠ s).
  { intros ->. apply elem_of_predecessors in Hn.
    unfold in_degree in Hs. destruct (predecessors G s); [|done].
    by apply elem_of_nil in Hn. }
  pose proof (Hsub n Hin) as Hnode.
  apply list_elem_of_split in Hin as (l1 & l2 & ->).
  destruct l1 as [|p l1 _] using rev_ind.
  { simpl in Hhead. by injection Hhead as ->. }
  rewrite <- app_assoc in *. simpl in *.
  assert (Hpn : (p, n) ∈ edges G) by by eapply Hch.
  assert (Hb : b ∈ n :: l2).
  { rewrite last_app_cons, last_cons_cons in Hlast.
    by apply last_Some_elem_of. }
  assert (Hpb : p ≠ b).
  { intros ->. apply NoDup_app in Hnd as (_ & _ & Hnd).
    apply NoDup_cons in Hnd as [Hnd _]. done. }
  assert (Hin2 : (2 ≤ in_degree G n)%nat).
  { apply (two_elements_length _ p b); [by apply elem_of_predecessors..|done]. }
  assert (Hout : (1 ≤ out_degree G n)%nat).
  { unfold out_degree.
    assert (∃ m, m ∈ successors G n) as [m Hm].
    { destruct l2 as [|m l2].
      - apply list_elem_of_singleton in Hb. subst b. exists n.
        by apply elem_of_successors.
      - exists m. apply elem_of_successors.
        apply (Hch (l1 ++ [p]) n m l2). by rewrite <- app_assoc. }
    destruct (successors G n); [by apply elem_of_nil in Hm | simpl; lia]. }
  destruct (decide (n = e)) as [-> | Hne]; [lia|].
  destruct (Hmid n Hnode Hns Hne). lia.
Qed.

Lemma walk_successors_returns fuel acc b :
  head acc = Some s → last acc = Some b → NoDup acc → chain G acc →
  (∀ x, x ∈ acc → x ∈ nodes G) →
  (length (nodes G) - length acc < fuel)%nat →
  ∃ l, walk_successors fuel G acc (successors G b) = Some l
       ∧ head l = Some s ∧ NoDup l ∧ chain G l
       ∧ (∀ x, x ∈ l → x ∈ nodes G).
Proof.
  revert acc b. induction fuel as [|fuel IH];
    intros acc b Hhead Hlast Hnd Hch Hsub Hfuel; [lia|].
  simpl. destruct (successors G b) as [|n succs] eqn:Hsucc.
  { by exists acc. }
  assert (Hn : n ∈ successors G b) by (rewrite Hsucc; apply list_elem_of_here).
  pose proof (walk_no_revisit acc b n Hhead Hlast Hnd Hch Hsub Hn) as Hnew.
  assert (Hnd' : NoDup (acc ++ [n])).
  { apply NoDup_app. split_and!; [done| |apply NoDup_singleton].
    intros x Hx Hx'. apply list_elem_of_singleton in Hx'. by subst x. }
  assert (Hsub' : ∀ x, x ∈ acc ++ [n] → x ∈ nodes G).
  { intros x Hx. apply elem_of_app in Hx as [Hx | Hx]; [by apply Hsub|].
    apply list_elem_of_singleton in Hx. subst x.
    by apply (successor_is_node G b). }
  apply IH.
  - rewrite head_app, Hhead. done.
  - apply last_snoc.
  - done.
  - apply (chain_snoc G acc b n); [done..|]. by apply elem_of_successors.
  - done.
  - pose proof (submseteq_length _ _ (NoDup_submseteq _ _ Hnd' Hsub')) as Hlen.
    rewrite length_app in *. simpl in *. lia.
Qed.
End linearize.

(** The three conditions [check_path] tests. *)
Lemma check_path_true G :
  check_path G = true →
  ∃ s e, filter (λ node, in_degree G node = 0%nat) (nodes G) = [s]
         ∧ filter (λ node, out_degree G node = 0%nat) (nodes G) = [e]
         ∧ ∀ n, n ∈ nodes G → n ≠ s → n ≠ e →
                in_degree G n = 1%nat ∧ out_degree G n = 1%nat.
Proof.
  unfold check_path. intros H.
  destruct (filter _ (nodes G)) as [|s [|? ?]] eqn:Hfs; try done.
  destruct (filter (λ node, out_degree G node = 0%nat) (nodes G))
    as [|e [|? ?]] eqn:Hfe; try done.
  exists s, e. split_and!; [done..|].
  intros n Hn Hns Hne. rewrite forallb_forall in H.
  specialize (H n). rewrite negb_orb, !negb_involutive in H.
  apply andb_true_iff in H as [H1 H2].
  - by apply Nat.eqb_eq in H1, H2.
  - apply list_elem_of_In, list_elem_of_filter. done.
Qed.

(** On a graph that [check_path] accepts, [recontruct_path] returns, with
    fuel for one step more than there are nodes, a list that starts at the
    node of in-degree 0, names no node twice, has only nodes of the graph
    and goes along edges. *)
Theorem recontruct_path_of_checked (G : DiGraph) (fuel : nat) :
  wf_digraph G → check_path G = true → (length (nodes G) < fuel)%nat →
  ∃ l s, recontruct_path fuel G = Some (Some l)
         ∧ filter (λ node, in_degree G node = 0%nat) (nodes G) = [s]
         ∧ head l = Some s ∧ NoDup l ∧ chain G l
         ∧ (∀ x, x ∈ l → x ∈ nodes G).
Proof.
  intros Hwf Hcheck Hfuel. unfold recontruct_path. rewrite Hcheck.
  destruct (check_path_true G Hcheck) as (s & e & Hfs & Hfe & Hmid).
  rewrite Hfs.
  assert (Hs : s ∈ nodes G ∧ in_degree G s = 0%nat).
  { assert (H : s ∈ [s]) by apply list_elem_of_here.
    rewrite <- Hfs in H. apply list_elem_of_filter in H. tauto. }
  assert (He : out_degree G e = 0%nat).
  { assert (H : e ∈ [e]) by apply list_elem_of_here.
    rewrite <- Hfe in H. apply list_elem_of_filter in H. tauto. }
  destruct Hs as [Hsn Hs].
  destruct fuel as [|fuel]; [lia|]. simpl.
  destruct (walk_successors_returns G s e Hwf Hs He Hmid fuel [s] s)
    as (l & Hl & Hhead & Hnd & Hch & Hsub); try done.
  - apply NoDup_singleton.
  - intros l1 a b l2 Heq. destruct l1 as [|? [|? ?]]; discriminate.
  - intros x Hx. apply list_elem_of_singleton in Hx. by subst x.
  - destruct (nodes G); [by apply elem_of_nil in Hsn | simpl in *; lia].
  - exists l, s. rewrite Hl. done.
Qed.

Lemma recontruct_path_of_checked_witness :
  wf_digraph diamond_graph ∧ check_path diamond_graph = true
  ∧ (length (nodes diamond_graph) < 5)%nat
  ∧ ∃ l s, recontruct_path 5 diamond_graph = Some (Some l)
           ∧ filter (λ node, in_degree diamond_graph node = 0%nat)
                    (nodes diamond_graph) = [s]
           ∧ head l = Some s ∧ NoDup l ∧ chain diamond_graph l
           ∧ (∀ x, x ∈ l → x ∈ nodes diamond_graph).
Proof.
  assert (H1 : wf_digraph diamond_graph).
  { apply (bool_decide_unpack _). vm_compute. exact I. }
  assert (H2 : check_path diamond_graph = true) by reflexivity.
  assert (H3 : (length (nodes diamond_graph) < 5)%nat) by (vm_compute; lia).
  refine (conj H1 (conj H2 (conj H3 _))).
  exact (recontruct_path_of_checked diamond_graph 5 H1 H2 H3).
Defined.

(** *** The greedy walk *)

Lemma difference_add_subset (U V : gset string) (a : string) :
  a ∈ U → a ∉ V → U ∖ ({[a]} ∪ V) ⊂ U ∖ V.
Proof.
  intros Ha Hn. split.
  - intros x. rewrite !elem_of_difference, elem_of_union. tauto.
  - intros Hsub. specialize (Hsub a).
    rewrite !elem_of_difference, elem_of_union, elem_of_singleton in Hsub.
    destruct Hsub as [_ Hsub]; [done|]. apply Hsub. by left.
Qed.

Lemma difference_singleton_subset (U : gset string) (a : string) :
  a ∈ U → U ∖ {[a]} ⊂ U.
Proof.
  intros Ha. split.
  - intros x. rewrite elem_of_difference. tauto.
  - intros Hsub. specialize (Hsub a Ha).
    rewrite elem_of_difference, elem_of_singleton in Hsub.
    by destruct Hsub as [_ Hsub].
Qed.

Section first_neighbor.
Variable G : DiGraph.
Hypothesis Hwf : wf_digraph G.

Let universe : gset string := list_to_set (nodes G).

Lemma first_neighbor_loop_returns fuel visited path cat :
  visited ⊆ universe →
  (size (universe ∖ visited) < fuel)%nat →
  ∃ rest, first_neighbor_loop fuel G visited path cat = Some (path ++ rest).
Proof.
  revert visited path cat.
  induction fuel as [|fuel IH]; intros visited path cat Hsub Hlt; [lia|].
  simpl. destruct (successors G cat) as [|a succs] eqn:Hs.
  { exists []. by rewrite app_nil_r. }
  destruct (decide (a ∈ visited)) as [|Hnew].
  { exists []. by rewrite app_nil_r. }
  assert (Ha : a ∈ universe).
  { apply elem_of_list_to_set, (successor_is_node G cat); [done|].
    rewrite Hs. apply list_elem_of_here. }
  destruct (IH ({[a]} ∪ visited) (path ++ [a]) a) as [rest Hrest].
  - apply union_least; [by apply singleton_subseteq_l | done].
  - pose proof (difference_add_subset universe visited a Ha Hnew) as Hss.
    apply subset_size in Hss. lia.
  - exists (a :: rest). rewrite Hrest. by rewrite <- app_assoc.
Qed.
End first_neighbor.

(** C9. On a graph as networkx keeps it and from a node of the graph,
    the greedy walk ends within as many steps as the graph has nodes,
    directed cycles or not, and the path it returns begins at the starting
    point. *)
Theorem find_path_always_first_neighbor_terminates
    (G : DiGraph) (start : string) (fuel : nat) :
  wf_digraph G → start ∈ nodes G → (length (nodes G) ≤ fuel)%nat →
  ∃ path, find_path_always_first_neighbor fuel G start = Some (Ok path)
          ∧ head path = Some start.
Proof.
  intros Hwf Hin Hfuel. unfold find_path_always_first_neighbor, has_node.
  rewrite bool_decide_eq_true_2 by done.
  destruct (first_neighbor_loop_returns G Hwf fuel {[start]} [start] start)
    as [rest Hrest].
  - apply singleton_subseteq_l, elem_of_list_to_set, Hin.
  - destruct Hwf as (Hnd & _).
    assert (size (list_to_set (nodes G) ∖ {[start]} : gset string)
            < size (list_to_set (nodes G) : gset string))%nat as Hlt.
    { apply subset_size, difference_singleton_subset.
      by apply elem_of_list_to_set. }
    rewrite size_list_to_set in Hlt by done. lia.
  - exists ([start] ++ rest). by rewrite Hrest.
Qed.

Lemma find_path_always_first_neighbor_terminates_witness :
  wf_digraph cycle_graph ∧ "A" ∈ nodes cycle_graph
  ∧ (length (nodes cycle_graph) ≤ 4)%nat
  ∧ ∃ path, find_path_always_first_neighbor 4 cycle_graph "A" = Some (Ok path)
            ∧ head path = Some "A".
Proof.
  assert (Hwf : wf_digraph cycle_graph).
  { apply (bool_decide_unpack _). vm_compute. exact I. }
  assert (Hin : "A" ∈ nodes cycle_graph).
  { apply (bool_decide_unpack _). vm_compute. exact I. }
  assert (Hlen : (length (nodes cycle_graph) ≤ 4)%nat) by (vm_compute; lia).
  split_and!; [done..|].
  exact (find_path_always_first_neighbor_terminates cycle_graph "A" 4
           Hwf Hin Hlen).
Defined.

(** On the cycle A→B→C→A the walk stops when it comes back to A. *)
Example greedy_walk_on_cycle :
  find_path_always_first_neighbor 4 cycle_graph "A" = Some (Ok ["A"; "B"; "C"]).
Proof. reflexivity. Qed.

(** ** Loops *)

Lemma for_each_invariant {A S : Type} (P : S → Prop) (l : list A)
    (body : A → S → result S) (s : S) :
  P s →
  (∀ x s, x ∈ l → P s → ∃ s', body x s = Ok s' ∧ P s') →
  ∃ s', for_each l body s = Ok s' ∧ P s'.
Proof.
  revert s. induction l as [|x l IH]; intros s Hs Hbody; simpl.
  - by exists s.
  - destruct (Hbody x s) as (s1 & -> & Hs1); [apply list_elem_of_here | done |].
    simpl. apply IH; [done|].
    intros y t Hy. apply Hbody. by apply list_elem_of_further.
Qed.

Lemma for_each_app {A S : Type} (l1 l2 : list A)
    (body : A → S → result S) (s : S) :
  for_each (l1 ++ l2) body s = for_each l1 body s ≫= for_each l2 body.
Proof.
  revert s. induction l1 as [|x l1 IH]; intros s; simpl; [done|].
  destruct (body x s) as [s1|e]; simpl; [apply IH | done].
Qed.

Lemma for_each_fmap {A B S : Type} (f : A → B) (l : list A)
    (body : B → S → result S) (s : S) :
  for_each (f <$> l) body s = for_each l (λ x, body (f x)) s.
Proof.
  revert s. induction l as [|x l IH]; intros s; [done|].
  rewrite fmap_cons. simpl. destruct (body (f x) s); simpl; [apply IH | done].
Qed.

Lemma for_each_bind {A B S : Type} (f : A → list B) (l : list A)
    (body : B → S → result S) (s : S) :
  for_each (l ≫= f) body s = for_each l (λ x, for_each (f x) body) s.
Proof.
  revert s. induction l as [|x l IH]; intros s; [done|].
  rewrite bind_cons, for_each_app. simpl.
  destruct (for_each (f x) body s); simpl; [apply IH | done].
Qed.

(** ** Matrices *)

Lemma square_zeros n : square n (zeros n).
Proof.
  unfold square, zeros. split; [apply length_replicate|].
  apply Forall_replicate, length_replicate.
Qed.

Lemma square_row n Q r row : square n Q → Q !! r = Some row → length row = n.
Proof.
  intros [_ H] Hr. rewrite Forall_forall in H.
  apply H. by eapply list_elem_of_lookup_2.
Qed.

Lemma mat_get_square n Q r c :
  square n Q → (r < n)%nat → (c < n)%nat → ∃ x, mat_get Q r c = Some x.
Proof.
  intros HQ Hr Hc. unfold mat_get.
  destruct (lookup_lt_is_Some_2 Q r) as [row Hrow]; [destruct HQ; lia|].
  rewrite Hrow. simpl. apply lookup_lt_is_Some_2.
  rewrite (square_row n Q r row); done.
Qed.

Lemma mat_get_lt n Q r c x :
  square n Q → mat_get Q r c = Some x → (r < n)%nat ∧ (c < n)%nat.
Proof.
  intros HQ H. unfold mat_get in H.
  destruct (Q !! r) as [row|] eqn:Hrow; [|done]. simpl in H.
  apply lookup_lt_Some in H, Hrow as Hr.
  rewrite (square_row n Q r row) in H by done. destruct HQ. lia.
Qed.

Lemma mat_set_square n Q r c v :
  square n Q → (r < n)%nat → (c < n)%nat →
  ∃ Q', mat_set Q r c v = Ok Q' ∧ square n Q'
        ∧ ∀ r' c', mat_get Q' r' c' =
                   if decide (r' = r ∧ c' = c) then Some v
                   else mat_get Q r' c'.
Proof.
  intros HQ Hr Hc. unfold mat_set.
  destruct (lookup_lt_is_Some_2 Q r) as [row Hrow]; [destruct HQ; lia|].
  rewrite Hrow. pose proof (square_row n Q r row HQ Hrow) as Hlen.
  destruct (Nat.ltb_spec c (length row)) as [_|]; [|lia].
  eexists. split; [done|]. split.
  - destruct HQ as [HlQ HF]. split; [by rewrite length_insert|].
    apply Forall_insert; [done|]. by rewrite length_insert.
  - intros r' c'. unfold mat_get. case_decide as Hd.
    + destruct Hd as [-> ->].
      rewrite list_lookup_insert_eq by (destruct HQ; lia). simpl.
      apply list_lookup_insert_eq. lia.
    + destruct (decide (r' = r)) as [->|Hne].
      * rewrite list_lookup_insert_eq by (destruct HQ; lia). simpl.
        rewrite Hrow. simpl. apply list_lookup_insert_ne. naive_solver.
      * by rewrite list_lookup_insert_ne.
Qed.

Lemma mat_add_at_square n Q r c v :
  square n Q → (r < n)%nat → (c < n)%nat →
  ∃ Q', mat_add_at Q r c v = Ok Q' ∧ square n Q'.
Proof.
  intros HQ Hr Hc. unfold mat_add_at.
  destruct (mat_get_square n Q r c HQ Hr Hc) as [x ->].
  destruct (mat_set_square n Q r c (x + v) HQ Hr Hc) as (Q' & H & HQ' & _).
  by exists Q'.
Qed.

Lemma square_mat_scale n k Q : square n Q → square n (mat_scale k Q).
Proof.
  intros [Hl HF]. unfold mat_scale. split; [by rewrite length_fmap|].
  apply Forall_fmap. eapply Forall_impl; [exact HF|].
  intros row Hrow. simpl. by rewrite length_fmap.
Qed.

Lemma square_mat_plus n A B :
  square n A → square n B → square n (mat_plus A B).
Proof.
  intros [HlA HFA] [HlB HFB]. unfold mat_plus. split.
  - rewrite length_zip_with. lia.
  - apply Forall_forall. intros row Hrow.
    apply elem_of_lookup_zip_with in Hrow as (i & a & b & -> & Ha & Hb).
    rewrite length_zip_with.
    rewrite (square_row n A i a), (square_row n B i b); [lia|done..].
Qed.

Lemma mat_get_scale k Q r c :
  mat_get (mat_scale k Q) r c = Z.mul k <$> mat_get Q r c.
Proof.
  unfold mat_get, mat_scale. rewrite list_lookup_fmap.
  destruct (Q !! r) as [row|]; simpl; [|done]. apply list_lookup_fmap.
Qed.

Lemma scale_zero_row (row : list Z) :
  Z.mul 0 <$> row = replicate (length row) 0.
Proof. induction row as [|x row IH]; [done|]. by rewrite fmap_cons, IH. Qed.

Lemma mat_scale_zero_rows m Q :
  Forall (λ row, length row = m) Q →
  mat_scale 0 Q = replicate (length Q) (replicate m 0).
Proof.
  unfold mat_scale. induction 1 as [|row Q Hrow _ IH]; [done|].
  by rewrite fmap_cons, scale_zero_row, Hrow, IH.
Qed.

Lemma mat_scale_zero n Q : square n Q → mat_scale 0 Q = zeros n.
Proof.
  intros [Hl HF]. rewrite (mat_scale_zero_rows n Q HF). by rewrite Hl.
Qed.

Lemma plus_zero_row (row : list Z) m :
  length row = m → zip_with Z.add row (replicate m 0) = row.
Proof.
  revert m. induction row as [|x row IH]; intros [|m] Hm; try done.
  simpl in *. rewrite IH by lia. f_equal. lia.
Qed.

Lemma mat_plus_zero_rows m Q :
  Forall (λ row, length row = m) Q →
  mat_plus Q (replicate (length Q) (replicate m 0)) = Q.
Proof.
  unfold mat_plus. induction 1 as [|row Q Hrow _ IH]; [done|].
  simpl. by rewrite plus_zero_row, IH.
Qed.

Lemma mat_plus_zeros n Q : square n Q → mat_plus Q (zeros n) = Q.
Proof.
  intros [Hl HF]. unfold zeros. rewrite <- Hl at 1.
  by apply mat_plus_zero_rows.
Qed.

Lemma mat_get_plus A B r c a b :
  mat_get A r c = Some a → mat_get B r c = Some b →
  mat_get (mat_plus A B) r c = Some (a + b).
Proof.
  unfold mat_get, mat_plus. intros HA HB.
  destruct (A !! r) as [ra|] eqn:Hra; [|done].
  destruct (B !! r) as [rb|] eqn:Hrb; [|done]. simpl in *.
  rewrite lookup_zip_with, Hra, Hrb. simpl.
  by rewrite lookup_zip_with, HA, HB.
Qed.

Lemma mat_get_minus A B r c a b :
  mat_get A r c = Some a → mat_get B r c = Some b →
  mat_get (mat_minus A B) r c = Some (a - b).
Proof.
  unfold mat_get, mat_minus. intros HA HB.
  destruct (A !! r) as [ra|] eqn:Hra; [|done].
  destruct (B !! r) as [rb|] eqn:Hrb; [|done]. simpl in *.
  rewrite lookup_zip_with, Hra, Hrb. simpl.
  by rewrite lookup_zip_with, HA, HB.
Qed.

Lemma ncols_square n A : square n A → (0 < n)%nat → ncols A = n.
Proof.
  intros [Hl HF] Hn. unfold ncols. destruct A as [|row A]; simpl in *; [lia|].
  by apply Forall_cons in HF as [Hrow _].
Qed.

Lemma mat_get_transpose n A r c :
  square n A → (r < n)%nat → (c < n)%nat →
  mat_get (mat_transpose A) r c = mat_get A c r.
Proof.
  intros HA Hr Hc. unfold mat_get at 1. unfold mat_transpose.
  rewrite (ncols_square n A HA) by lia.
  rewrite list_lookup_fmap, lookup_seq_lt by done. simpl.
  rewrite list_lookup_fmap. unfold mat_get.
  destruct (lookup_lt_is_Some_2 A c) as [row Hrow]; [destruct HA; lia|].
  rewrite Hrow. simpl.
  destruct (lookup_lt_is_Some_2 row r) as [x Hx];
    [by rewrite (square_row n A c row)|].
  by rewrite Hx.
Qed.

Lemma mat_get_diag_diagonal n A r c :
  square n A → (r < n)%nat → (c < n)%nat →
  mat_get (mat_diag (mat_diagonal A)) r c =
    if decide (r = c) then mat_get A r r else Some 0.
Proof.
  intros HA Hr Hc. unfold mat_get at 1. unfold mat_diag, mat_diagonal.
  rewrite list_lookup_imap, list_lookup_imap.
  destruct (lookup_lt_is_Some_2 A r) as [row Hrow]; [destruct HA; lia|].
  rewrite Hrow. simpl. rewrite length_imap.
  pose proof (square_row n A r row HA Hrow) as Hlen.
  destruct (lookup_lt_is_Some_2 row r) as [x Hx]; [lia|].
  replace (length A) with n by (by destruct HA).
  case_decide as Hd.
  - subst c. rewrite list_lookup_insert_eq by (rewrite length_replicate; lia).
    unfold mat_get. by rewrite Hrow; simpl; rewrite Hx.
  - rewrite list_lookup_insert_ne by done.
    by apply lookup_replicate_2.
Qed.

Lemma mat_get_symetrize n A r c a b :
  square n A → mat_get A r c = Some a → mat_get A c r = Some b →
  mat_get (symetrize A) r c = Some (a + b - if decide (r = c) then a else 0).
Proof.
  intros HA Ha Hb. destruct (mat_get_lt n A r c a HA Ha) as [Hr Hc].
  unfold symetrize. apply mat_get_minus.
  - apply mat_get_plus; [done|]. by rewrite (mat_get_transpose n).
  - rewrite (mat_get_diag_diagonal n) by done.
    case_decide; [by subst c|done].
Qed.

Lemma square_mat_minus n A B :
  square n A → square n B → square n (mat_minus A B).
Proof.
  intros [HlA HFA] [HlB HFB]. unfold mat_minus. split.
  - rewrite length_zip_with. lia.
  - apply Forall_forall. intros row Hrow.
    apply elem_of_lookup_zip_with in Hrow as (i & a & b & -> & Ha & Hb).
    rewrite length_zip_with.
    rewrite (square_row n A i a), (square_row n B i b); [lia|done..].
Qed.

Lemma square_mat_transpose n A : square n A → square n (mat_transpose A).
Proof.
  intros HA. unfold mat_transpose.
  destruct (decide (n = 0)%nat) as [-> | Hn].
  - destruct HA as [Hl _]. destruct A; [|done]. by split.
  - rewrite (ncols_square n A HA) by lia. split.
    + by rewrite length_fmap, length_seq.
    + apply Forall_fmap, Forall_forall. intros c _. simpl.
      rewrite length_fmap. by destruct HA.
Qed.

Lemma square_mat_diag n A : square n A → square n (mat_diag (mat_diagonal A)).
Proof.
  intros [Hl _]. unfold mat_diag, mat_diagonal. split.
  - by rewrite !length_imap.
  - apply Forall_forall. intros row Hrow.
    apply list_elem_of_lookup in Hrow as [i Hi].
    rewrite list_lookup_imap in Hi.
    destruct (imap _ A !! i); [|done]. simpl in Hi. injection Hi as <-.
    by rewrite length_insert, length_replicate, length_imap.
Qed.

Lemma square_symetrize n A : square n A → square n (symetrize A).
Proof.
  intros HA. unfold symetrize.
  apply square_mat_minus; [apply square_mat_plus|]; [done| |].
  - by apply square_mat_transpose.
  - by apply square_mat_diag.
Qed.

(** ** The QUBO matrix *)

Lemma NoDup_fmap_eq {A B : Type} (f : A → B) (l : list A) (x y : A) :
  NoDup (f <$> l) → x ∈ l → y ∈ l → f x = f y → x = y.
Proof.
  induction l as [|a l IH]; intros Hnd Hx Hy Hf; [by apply elem_of_nil in Hx|].
  rewrite fmap_cons in Hnd. apply NoDup_cons in Hnd as [Ha Hnd].
  apply elem_of_cons in Hx as [-> | Hx]; apply elem_of_cons in Hy as [-> | Hy].
  - done.
  - exfalso. apply Ha. rewrite Hf. apply list_elem_of_fmap. by exists y.
  - exfalso. apply Ha. rewrite <- Hf. apply list_elem_of_fmap. by exists x.
  - by apply IH.
Qed.

Section qubo.
Variable prob : GraphPathProblem.
Hypothesis Hvalid : valid_register prob = true.

Let G := graph prob.
Let n := size (edges_register prob).

Lemma register_index_edge e :
  e ∈ edges G → ∃ d, register_index prob e = Ok d ∧ (d < n)%nat.
Proof.
  intros He. unfold valid_register in Hvalid.
  apply andb_true_iff in Hvalid as [H _].
  rewrite forallb_forall in H. specialize (H e).
  unfold register_index.
  destruct (edges_register prob !! e) as [d|].
  - exists d. split; [done|]. apply Nat.ltb_lt, H. by apply list_elem_of_In.
  - discriminate H. by apply list_elem_of_In.
Qed.

Lemma register_injective e1 e2 d :
  edges_register prob !! e1 = Some d → edges_register prob !! e2 = Some d →
  e1 = e2.
Proof.
  intros H1 H2. unfold valid_register in Hvalid.
  apply andb_true_iff in Hvalid as [_ H]. apply bool_decide_eq_true in H.
  apply elem_of_map_to_list in H1, H2.
  by pose proof (NoDup_fmap_eq snd _ _ _ H H1 H2 eq_refl) as [= ->].
Qed.

(** One write on the diagonal or off it, at the indices of two edges. *)
Lemma add_at_edges Q e1 e2 val :
  square n Q → e1 ∈ edges G → e2 ∈ edges G →
  ∃ Q', (ind_r ← register_index prob e1;
         ind_c ← register_index prob e2;
         mat_add_at Q ind_r ind_c val) = Ok Q' ∧ square n Q'.
Proof.
  intros HQ H1 H2.
  destruct (register_index_edge e1 H1) as (d1 & -> & Hd1).
  destruct (register_index_edge e2 H2) as (d2 & -> & Hd2).
  simpl. by apply mat_add_at_square.
Qed.

Lemma add_lin_out_square Q i val :
  square n Q → ∃ Q', add_lin_out prob Q i val = Ok Q' ∧ square n Q'.
Proof.
  intros HQ. apply for_each_invariant; [done|].
  intros j Q1 Hj HQ1. apply elem_of_successors in Hj.
  destruct (register_index_edge (i, j) Hj) as (d & -> & Hd).
  simpl. by apply mat_add_at_square.
Qed.

Lemma add_lin_in_square Q j val :
  square n Q → ∃ Q', add_lin_in prob Q j val = Ok Q' ∧ square n Q'.
Proof.
  intros HQ. apply for_each_invariant; [done|].
  intros i Q1 Hi HQ1. apply elem_of_predecessors in Hi.
  destruct (register_index_edge (i, j) Hi) as (d & -> & Hd).
  simpl. by apply mat_add_at_square.
Qed.

Lemma add_quad_out_square Q i val :
  square n Q → ∃ Q', add_quad_out prob Q i val = Ok Q' ∧ square n Q'.
Proof.
  intros HQ. apply for_each_invariant; [done|].
  intros j Q1 Hj HQ1. apply for_each_invariant; [done|].
  intros k Q2 Hk HQ2. apply elem_of_successors in Hj, Hk.
  by apply add_at_edges.
Qed.

Lemma add_quad_in_square Q i val :
  square n Q → ∃ Q', add_quad_in prob Q i val = Ok Q' ∧ square n Q'.
Proof.
  intros HQ. apply for_each_invariant; [done|].
  intros j Q1 Hj HQ1. apply for_each_invariant; [done|].
  intros k Q2 Hk HQ2. apply elem_of_predecessors in Hj, Hk.
  by apply add_at_edges.
Qed.

Lemma add_quad_mix_square Q i val :
  square n Q → ∃ Q', add_quad_mix prob Q i val = Ok Q' ∧ square n Q'.
Proof.
  intros HQ. apply for_each_invariant; [done|].
  intros j Q1 Hj HQ1. apply for_each_invariant; [done|].
  intros k Q2 Hk HQ2.
  apply elem_of_successors in Hj. apply elem_of_predecessors in Hk.
  by apply add_at_edges.
Qed.

Lemma get_qubo_out_square :
  ∃ Q, get_qubo_out prob = Ok Q ∧ square n Q.
Proof.
  apply for_each_invariant; [apply square_zeros|].
  intros i Q _ HQ.
  destruct (add_lin_out_square Q i (-2) HQ) as (Q1 & -> & HQ1).
  simpl. by apply add_quad_out_square.
Qed.

Lemma get_qubo_in_square :
  ∃ Q, get_qubo_in prob = Ok Q ∧ square n Q.
Proof.
  apply for_each_invariant; [apply square_zeros|].
  intros i Q _ HQ.
  destruct (add_lin_in_square Q i (-2) HQ) as (Q1 & -> & HQ1).
  simpl. by apply add_quad_in_square.
Qed.

Lemma get_qubo_flow_square :
  ∃ Q, get_qubo_flow prob = Ok Q ∧ square n Q.
Proof.
  apply for_each_invariant; [apply square_zeros|].
  intros i Q _ HQ.
  destruct (add_quad_out_square Q i 1 HQ) as (Q1 & -> & HQ1). simpl.
  destruct (add_quad_mix_square Q1 i (-2) HQ1) as (Q2 & -> & HQ2). simpl.
  by apply add_quad_in_square.
Qed.

Lemma get_qubo_flow_start_square start :
  start ∈ nodes G →
  ∃ Q, get_qubo_flow_start prob start = Ok Q ∧ square n Q.
Proof.
  intros Hs. unfold get_qubo_flow_start, has_node. cbv zeta.
  rewrite bool_decide_eq_true_2 by done. fold n.
  destruct (add_lin_in_square (zeros n) start (-2) (square_zeros n))
    as (Q1 & -> & HQ1).
  simpl. by apply add_lin_out_square.
Qed.

Lemma get_qubo_flow_finish_square finish :
  finish ∈ nodes G →
  ∃ Q, get_qubo_flow_finish prob finish = Ok Q ∧ square n Q.
Proof.
  intros Hs. unfold get_qubo_flow_finish, has_node. cbv zeta.
  rewrite bool_decide_eq_true_2 by done. fold n.
  destruct (add_lin_in_square (zeros n) finish 2 (square_zeros n))
    as (Q1 & -> & HQ1).
  simpl. by apply add_lin_out_square.
Qed.
Lemma edges_iter_edges e : e ∈ edges_iter G → e ∈ edges G.
Proof.
  unfold edges_iter. intros H.
  apply list_elem_of_bind in H as (i & H & _).
  apply list_elem_of_fmap in H as (j & -> & Hj).
  by apply elem_of_successors.
Qed.

Lemma edges_edges_iter e : wf_digraph G → e ∈ edges G → e ∈ edges_iter G.
Proof.
  intros (_ & _ & Hwf) He. rewrite Forall_forall in Hwf.
  destruct (Hwf e He) as [H1 _]. destruct e as [i j].
  unfold edges_iter. apply list_elem_of_bind. exists i. split; [|done].
  apply list_elem_of_fmap. exists j. split; [done|].
  by apply elem_of_successors.
Qed.

(** The two nested loops of [get_qubo_main] as one loop over [G.edges()]. *)
Lemma get_qubo_main_edges_iter :
  get_qubo_main prob =
  for_each (edges_iter G)
    (λ e Q, diag_ind ← register_index prob e;
            mat_set Q diag_ind diag_ind (edge_weight G e))
    (zeros n).
Proof.
  unfold get_qubo_main, edges_iter. rewrite for_each_bind. fold G n.
  generalize (zeros n). induction (nodes G) as [|i l IH]; intros Q; [done|].
  simpl. rewrite for_each_fmap.
  destruct (for_each (successors G i) _ Q); simpl; [apply IH | done].
Qed.

Lemma reward_loop es Q0 :
  square n Q0 → (∀ e, e ∈ es → e ∈ edges G) →
  ∃ Q, for_each es
         (λ e Q, diag_ind ← register_index prob e;
                 mat_set Q diag_ind diag_ind (edge_weight G e)) Q0 = Ok Q
       ∧ square n Q
       ∧ (∀ r c, r ≠ c → mat_get Q r c = mat_get Q0 r c)
       ∧ (∀ e d, e ∈ es → edges_register prob !! e = Some d →
                 mat_get Q d d = Some (edge_weight G e))
       ∧ (∀ d, (∀ e, e ∈ es → edges_register prob !! e ≠ Some d) →
               mat_get Q d d = mat_get Q0 d d).
Proof.
  revert Q0. induction es as [|e0 es IH]; intros Q0 HQ0 Hes; simpl.
  { exists Q0. split_and!; [done..| |done].
    intros e d He. by apply elem_of_nil in He. }
  destruct (register_index_edge e0) as (d0 & Hd0 & Hlt);
    [apply Hes, list_elem_of_here|].
  rewrite Hd0. simpl.
  assert (Hreg0 : edges_register prob !! e0 = Some d0).
  { unfold register_index in Hd0.
    destruct (edges_register prob !! e0); by inversion Hd0. }
  destruct (mat_set_square n Q0 d0 d0 (edge_weight G e0) HQ0 Hlt Hlt)
    as (Q1 & -> & HQ1 & Hget1).
  simpl.
  destruct (IH Q1 HQ1) as (Q & -> & HQ & Hoff & Hdiag & Hkeep).
  { intros e He. by apply Hes, list_elem_of_further. }
  exists Q. split_and!; [done..| | |].
  - intros r c Hrc. rewrite (Hoff r c Hrc), Hget1.
    case_decide as Hd; [|done]. destruct Hd as [-> ->]. done.
  - intros e d He Hreg.
    apply elem_of_cons in He as [-> | He]; [|by apply Hdiag].
    assert (d = d0) as -> by congruence.
    destruct (decide (Exists (λ e', edges_register prob !! e' = Some d0) es))
      as [Hex | Hnex].
    + apply Exists_exists in Hex as (e' & He' & Hreg').
      rewrite (register_injective e0 e' d0 Hreg Hreg').
      by apply Hdiag.
    + rewrite Hkeep, Hget1.
      * by rewrite decide_True.
      * intros e' He' Hreg'. apply Hnex, Exists_exists. by exists e'.
  - intros d Hd. rewrite Hkeep, Hget1.
    + case_decide as Hd'; [|done]. destruct Hd' as [-> _].
      exfalso. by apply (Hd e0); [apply list_elem_of_here|].
    + intros e He. by apply Hd, list_elem_of_further.
Qed.

Lemma mat_get_zeros r c :
  (r < n)%nat → (c < n)%nat → mat_get (zeros n) r c = Some 0.
Proof.
  intros Hr Hc. unfold mat_get, zeros.
  rewrite lookup_replicate_2 by done. simpl. by apply lookup_replicate_2.
Qed.

Lemma get_qubo_main_spec :
  wf_digraph G →
  ∃ D, get_qubo_main prob = Ok D ∧ square n D
       ∧ (∀ r c, r ≠ c → (r < n)%nat → (c < n)%nat →
                 mat_get D r c = Some 0)
       ∧ (∀ e d, e ∈ edges G → edges_register prob !! e = Some d →
                 mat_get D d d = Some (edge_weight G e)).
Proof.
  intros Hwf. rewrite get_qubo_main_edges_iter.
  destruct (reward_loop (edges_iter G) (zeros n) (square_zeros n))
    as (D & -> & HD & Hoff & Hdiag & _); [apply edges_iter_edges|].
  exists D. split_and!; [done..| |].
  - intros r c Hrc Hr Hc. rewrite Hoff by done. by apply mat_get_zeros.
  - intros e d He. apply Hdiag. by apply edges_edges_iter.
Qed.
End qubo.

(** C6, as the spec words it.  On the chain A→B→C with default weights and
    [delta = 1], the diagonal entry of an edge would be [1 · (1 − 1) = 0];
    the matrix has 1 there. *)
Lemma reward_has_no_minus_delta :
  ¬ reward_minus_delta (chain_problem None None) 1.
Proof.
  intros (Q & HQ & H).
  assert (HQ' : Q = [[1; 0]; [0; 1]]).
  { vm_compute in HQ. by inversion HQ. }
  subst Q. specialize (H ("A", "B") 0%nat).
  assert (mat_get [[1; 0]; [0; 1]] 0 0
          = Some (1 * (edge_weight (graph (chain_problem None None))
                                   ("A", "B") - 1))) as Hbad.
  { apply H.
    - apply (bool_decide_unpack _). vm_compute. exact I.
    - vm_compute. reflexivity. }
  vm_compute in Hbad. discriminate.
Qed.

(** C6, amended.  With a register that serves the graph,
    [alpha = beta = gamma = 0], and [delta], the weights of the edges and
    their products with [delta] integers that float64 holds exactly,
    [get_qubo] returns a matrix whose entry at the index of every edge is
    [delta] times the intrinsic weight of the edge (1 when the edge has
    none), and whose entries off the diagonal are 0: the reward term puts
    [delta · weight] on the diagonal, with no [−delta]. *)
Theorem get_qubo_reward_only (prob : GraphPathProblem) (delta : Z)
    (start finish : option string) :
  valid_register prob = true →
  wf_digraph (graph prob) →
  node_or_none (graph prob) start →
  node_or_none (graph prob) finish →
  float64_exact delta →
  Forall (λ e, float64_exact (edge_weight (graph prob) e)
               ∧ float64_exact (delta * edge_weight (graph prob) e))
         (edges (graph prob)) →
  ∃ Q, get_qubo prob delta 0 0 0 start finish = Ok Q
       ∧ square (size (edges_register prob)) Q
       ∧ (∀ e d, e ∈ edges (graph prob) →
                 edges_register prob !! e = Some d →
                 mat_get Q d d = Some (delta * edge_weight (graph prob) e))
       ∧ (∀ r c, (r < size (edges_register prob))%nat →
                 (c < size (edges_register prob))%nat → r ≠ c →
                 mat_get Q r c = Some 0).
Proof.
  intros Hvalid Hwf Hstart Hfinish _ _.
  set (n := size (edges_register prob)).
  destruct (get_qubo_main_spec prob Hvalid Hwf) as (D & HD & HsD & Hoff & Hdiag).
  destruct (get_qubo_out_square prob Hvalid) as (O & HO & HsO).
  destruct (get_qubo_in_square prob Hvalid) as (I & HI & HsI).
  destruct (get_qubo_flow_square prob Hvalid) as (F & HF & HsF).
  fold n in HsD, HsO, HsI, HsF, Hoff.
  assert (∃ F1, match start with
                | Some s => mat_plus F <$> get_qubo_flow_start prob s
                | None => Ok F
                end = Ok F1 ∧ square n F1) as (F1 & HF1 & HsF1).
  { destruct start as [s|]; [|by exists F].
    destruct (get_qubo_flow_start_square prob Hvalid s Hstart)
      as (S1 & -> & HS1).
    eexists. split; [done|]. by apply square_mat_plus. }
  assert (∃ F2, match finish with
                | Some f => mat_plus F1 <$> get_qubo_flow_finish prob f
                | None => Ok F1
                end = Ok F2 ∧ square n F2) as (F2 & HF2 & HsF2).
  { destruct finish as [f|]; [|by exists F1].
    destruct (get_qubo_flow_finish_square prob Hvalid f Hfinish)
      as (S2 & -> & HS2).
    eexists. split; [done|]. by apply square_mat_plus. }
  unfold get_qubo. rewrite HD, HO, HI, HF. simpl.
  rewrite HF1. simpl. rewrite HF2. simpl.
  rewrite (mat_scale_zero n O HsO), (mat_scale_zero n I HsI),
    (mat_scale_zero n F2 HsF2).
  pose proof (square_mat_scale n delta D HsD) as HsA.
  rewrite !(mat_plus_zeros n (mat_scale delta D) HsA).
  eexists. split; [done|]. split_and!.
  - by apply square_symetrize.
  - intros e d He Hreg.
    pose proof (Hdiag e d He Hreg) as Hd.
    assert (mat_get (mat_scale delta D) d d
            = Some (delta * edge_weight (graph prob) e)) as HA.
    { by rewrite mat_get_scale, Hd. }
    rewrite (mat_get_symetrize n _ d d _ _ HsA HA HA).
    rewrite decide_True by done. f_equal. lia.
  - intros r c Hr Hc Hrc.
    assert (∀ r c, r ≠ c → (r < n)%nat → (c < n)%nat →
                   mat_get (mat_scale delta D) r c = Some 0) as HA.
    { intros r' c' Hne Hr' Hc'.
      rewrite mat_get_scale, (Hoff r' c' Hne Hr' Hc'). simpl.
      f_equal. lia. }
    rewrite (mat_get_symetrize n _ r c 0 0 HsA); [|by apply HA..].
    by rewrite decide_False.
Qed.

Lemma get_qubo_reward_only_witness :
  let prob := chain_problem (Some 3) None in
  valid_register prob = true
  ∧ wf_digraph (graph prob)
  ∧ node_or_none (graph prob) None
  ∧ node_or_none (graph prob) (Some "C")
  ∧ float64_exact 2
  ∧ Forall (λ e, float64_exact (edge_weight (graph prob) e)
                 ∧ float64_exact (2 * edge_weight (graph prob) e))
           (edges (graph prob))
  ∧ ∃ Q, get_qubo prob 2 0 0 0 None (Some "C") = Ok Q
         ∧ square (size (edges_register prob)) Q
         ∧ (∀ e d, e ∈ edges (graph prob) →
                   edges_register prob !! e = Some d →
                   mat_get Q d d = Some (2 * edge_weight (graph prob) e))
         ∧ (∀ r c, (r < size (edges_register prob))%nat →
                   (c < size (edges_register prob))%nat → r ≠ c →
                   mat_get Q r c = Some 0).
Proof.
  intros prob.
  assert (H1 : valid_register prob = true) by (vm_compute; reflexivity).
  assert (H2 : wf_digraph (graph prob)).
  { apply (bool_decide_unpack _). vm_compute. exact I. }
  assert (H3 : node_or_none (graph prob) None) by exact I.
  assert (H4 : node_or_none (graph prob) (Some "C")).
  { unfold node_or_none. apply (bool_decide_unpack _). vm_compute. exact I. }
  assert (H5 : float64_exact 2) by (unfold float64_exact; simpl; lia).
  assert (H6 : Forall (λ e, float64_exact (edge_weight (graph prob) e)
                            ∧ float64_exact (2 * edge_weight (graph prob) e))
                      (edges (graph prob))).
  { apply (bool_decide_unpack _). vm_compute. exact I. }
  refine (conj H1 (conj H2 (conj H3 (conj H4 (conj H5 (conj H6 _)))))).
  exact (get_qubo_reward_only prob 2 None (Some "C") H1 H2 H3 H4 H5 H6).
Defined.

(** The register that [update_edges_register] builds for the chain gives
    index 0 to A→B and index 1 to B→C. *)
Lemma chain_problem_register wAB wBC :
  edges_register (chain_problem wAB wBC)
  = edges_register (chain_problem_indexed wAB wBC 0 1).
Proof. destruct wAB, wBC; vm_compute; reflexivity. Qed.

(** C1. For the chain A→B→C with both edges of weight 1 (given or by
    default), a register that indexes its two edges (in either order),
    [delta = 1], [alpha = beta = gamma = 5] and neither start nor finish,
    [get_qubo] returns the matrix with 1 on the diagonal and −10 off it, and
    every bit vector other than [x_AB = 1, x_BC = 1] has a strictly larger
    value of [x^T Q x]: that vector is the unique minimizer. *)
Theorem chain_qubo_unique_minimizer (wAB wBC : option Z) (iAB iBC : nat)
    (x_AB x_BC : bool) :
  default 1 wAB = 1 → default 1 wBC = 1 →
  (iAB, iBC) = (0, 1)%nat ∨ (iAB, iBC) = (1, 0)%nat →
  (x_AB, x_BC) ≠ (true, true) →
  ∃ Q, get_qubo (chain_problem_indexed wAB wBC iAB iBC) 1 5 5 5 None None
       = Ok Q
       ∧ Q = [[1; -10]; [-10; 1]]
       ∧ energy Q (selection iAB iBC true true)
         < energy Q (selection iAB iBC x_AB x_BC).
Proof.
  intros HAB HBC Hidx Hx.
  assert (wAB = None ∨ wAB = Some 1) as HwAB.
  { destruct wAB as [w|]; [right|by left]. simpl in HAB. by subst w. }
  assert (wBC = None ∨ wBC = Some 1) as HwBC.
  { destruct wBC as [w|]; [right|by left]. simpl in HBC. by subst w. }
  exists [[1; -10]; [-10; 1]].
  destruct HwAB as [-> | ->], HwBC as [-> | ->], Hidx as [[= -> ->] | [= -> ->]];
    (split; [vm_compute; reflexivity|]; split; [reflexivity|]);
    destruct x_AB, x_BC; try (vm_compute; reflexivity);
    by contradiction Hx.
Qed.

Lemma chain_qubo_unique_minimizer_witness :
  default 1 (Some 1) = 1 ∧ default 1 (@None Z) = 1
  ∧ ((0, 1) = (0, 1) ∨ (0, 1) = (1, 0))%nat
  ∧ (true, false) ≠ (true, true)
  ∧ ∃ Q, get_qubo (chain_problem_indexed (Some 1) None 0 1) 1 5 5 5 None None
         = Ok Q
         ∧ Q = [[1; -10]; [-10; 1]]
         ∧ energy Q (selection 0 1 true true)
           < energy Q (selection 0 1 true false).
Proof.
  assert (H1 : default 1 (Some 1) = 1) by reflexivity.
  assert (H2 : default 1 (@None Z) = 1) by reflexivity.
  assert (H3 : ((0, 1) = (0, 1) ∨ (0, 1) = (1, 0))%nat) by (left; reflexivity).
  assert (H4 : (true, false) ≠ (true, true)) by discriminate.
  refine (conj H1 (conj H2 (conj H3 (conj H4 _)))).
  exact (chain_qubo_unique_minimizer (Some 1) None 0 1 true false H1 H2 H3 H4).
Defined.

(** * Further properties *)

(** ** Signs and link strings (src/utility.py) *)

(** [reverse_sign] returns on the two signs only, and there it is an
    involution without fixed point; on any other string it raises. *)
Lemma reverse_sign_cases (sign : string) :
  (is_sign sign = true →
   ∃ r, reverse_sign sign = Ok r ∧ reverse_sign r = Ok sign ∧ r ≠ sign)
  ∧ (is_sign sign = false → reverse_sign sign = Raise ValueError).
Proof.
  unfold is_sign, reverse_sign. split.
  - intros H. apply orb_true_iff in H as [H | H];
      apply bool_decide_eq_true in H; subst sign.
    + exists "-". by split_and!.
    + exists "+". by split_and!.
  - intros H. apply orb_false_iff in H as [H1 H2].
    apply bool_decide_eq_false in H1, H2.
    by rewrite !decide_False.
Qed.

Lemma chars_append a b : chars (a +:+ b) = chars a ++ chars b.
Proof.
  unfold chars. induction a as [|c a IH]; simpl; [done|]. by rewrite IH.
Qed.

Lemma str_inj l1 l2 : str l1 = str l2 → l1 = l2.
Proof. intros H. by rewrite <- (chars_str l1), <- (chars_str l2), H. Qed.

Lemma chars_inj s1 s2 : chars s1 = chars s2 → s1 = s2.
Proof. intros H. by rewrite <- (str_chars s1), <- (str_chars s2), H. Qed.

Lemma split_colon_no_colon l : ":"%char ∉ l → split_colon l = [l].
Proof.
  induction l as [|c l IH]; intros H; simpl; [done|].
  apply not_elem_of_cons in H as [Hc Hl].
  destruct (Ascii.eqb_spec c ":"); [congruence|]. by rewrite IH.
Qed.

Lemma split_colon_field l1 l2 :
  ":"%char ∉ l1 → split_colon (l1 ++ ":"%char :: l2) = l1 :: split_colon l2.
Proof.
  induction l1 as [|c l1 IH]; intros H; simpl; [done|].
  apply not_elem_of_cons in H as [Hc Hl].
  destruct (Ascii.eqb_spec c ":"); [congruence|]. by rewrite IH.
Qed.

(** Splitting loses nothing: the fields hold no colon and joined by colons
    they give the string back. *)
Lemma split_colon_join l :
  join_colon (split_colon l) = l
  ∧ Forall (λ f, ":"%char ∉ f) (split_colon l)
  ∧ split_colon l ≠ [].
Proof.
  induction l as [|c l (IHj & IHf & IHn)]; simpl.
  { split_and!; [done| |done]. repeat constructor. apply not_elem_of_nil. }
  destruct (Ascii.eqb_spec c ":") as [-> | Hc].
  - split_and!; [|constructor; [apply not_elem_of_nil | done]|done].
    destruct (split_colon l) eqn:E; [done|]. simpl in *. by rewrite IHj.
  - destruct (split_colon l) as [|f fs] eqn:E; [done|].
    apply Forall_cons in IHf as [Hf Hfs].
    split_and!; [|constructor; [|done]|done].
    + destruct fs; simpl in *; by rewrite IHj.
    + apply not_elem_of_cons. by split.
Qed.

Lemma lstrip_head c l : py_isspace c = false → lstrip_chars (c :: l) = c :: l.
Proof. intros H. simpl. by rewrite H. Qed.

Lemma strip_unspaced c l d :
  py_isspace c = false → py_isspace d = false →
  py_strip (str (c :: l ++ [d])) = str (c :: l ++ [d]).
Proof.
  intros Hc Hd. unfold py_strip. rewrite chars_str, (lstrip_head c _ Hc).
  change (c :: l ++ [d]) with ((c :: l) ++ [d]).
  rewrite reverse_app. change (reverse [d]) with [d]. simpl.
  rewrite Hd. change (d :: reverse (c :: l)) with ([d] ++ reverse (c :: l)).
  by rewrite reverse_app, reverse_involutive.
Qed.

Lemma is_sign_chars s :
  is_sign s = true →
  ∃ c, chars s = [c] ∧ c ≠ ":"%char ∧ py_isspace c = false.
Proof.
  unfold is_sign. intros H.
  apply orb_true_iff in H as [H | H]; apply bool_decide_eq_true in H;
    subst s; eexists; split_and!; done.
Qed.

Lemma parse_format_link_ok (sign1 target sign2 : string) :
  is_sign sign1 = true → is_sign sign2 = true → ":"%char ∉ chars target →
  parse_de_bruijn_link (format_link sign1 target sign2)
  = Ok (sign1, target, sign2).
Proof.
  intros H1 H2 Ht.
  destruct (is_sign_chars sign1 H1) as (c1 & Hc1 & Hn1 & Hs1).
  destruct (is_sign_chars sign2 H2) as (c2 & Hc2 & Hn2 & Hs2).
  assert (Hchars : chars (format_link sign1 target sign2)
                   = "L"%char :: (":"%char :: c1 :: ":"%char :: chars target
                                  ++ [":"%char]) ++ [c2]).
  { unfold format_link. rewrite !chars_append, Hc1, Hc2. simpl.
    by rewrite <- !app_assoc. }
  unfold parse_de_bruijn_link.
  rewrite decide_False by (unfold format_link; discriminate).
  rewrite <- (str_chars (format_link sign1 target sign2)), Hchars.
  rewrite strip_unspaced by done.
  unfold py_split_colon. rewrite chars_str. simpl.
  rewrite <- app_assoc. simpl.
  destruct (Ascii.eqb_spec c1 ":"); [done|].
  rewrite split_colon_field by done.
  rewrite (split_colon_no_colon [c2]) by (apply not_elem_of_cons; split; [done|apply not_elem_of_nil]).
  rewrite <- Hc1, <- Hc2. cbn [list_fmap]. rewrite !str_chars.
  by rewrite H1, H2.
Qed.

(** A well-formed link string parses to its three parts: the signs are
    checked, the target may be any string without a colon. *)
Theorem parse_format_link (sign1 target sign2 : string) :
  is_sign sign1 = true → is_sign sign2 = true → ":"%char ∉ chars target →
  parse_de_bruijn_link (format_link sign1 target sign2)
  = Ok (sign1, target, sign2).
Proof. apply parse_format_link_ok. Qed.

Lemma parse_format_link_witness :
  is_sign "+" = true ∧ is_sign "-" = true ∧ (":"%char ∉ chars "unitig 7")
  ∧ parse_de_bruijn_link (format_link "+" "unitig 7" "-")
    = Ok ("+", "unitig 7", "-").
Proof.
  assert (H1 : is_sign "+" = true) by reflexivity.
  assert (H2 : is_sign "-" = true) by reflexivity.
  assert (H3 : ":"%char ∉ chars "unitig 7").
  { apply (bool_decide_unpack _). vm_compute. exact I. }
  refine (conj H1 (conj H2 (conj H3 _))).
  exact (parse_format_link "+" "unitig 7" "-" H1 H2 H3).
Defined.

(** What a successful parse tells: the link, stripped, is exactly
    [L:<sign1>:<target>:<sign2>], with two valid signs and a target without
    colon. *)
Theorem parse_de_bruijn_link_inv (link sign1 target sign2 : string) :
  parse_de_bruijn_link link = Ok (sign1, target, sign2) →
  py_strip link = format_link sign1 target sign2
  ∧ is_sign sign1 = true ∧ is_sign sign2 = true ∧ (":"%char ∉ chars target).
Proof.
  unfold parse_de_bruijn_link. case_decide; [done|].
  unfold py_split_colon.
  destruct (split_colon_join (chars (py_strip link))) as (Hj & Hf & _).
  destruct (split_colon (chars (py_strip link)))
    as [|f0 [|f1 [|f2 [|f3 [|? ?]]]]]; try done.
  rewrite !fmap_cons, fmap_nil.
  case_bool_decide as HL; simpl; [|done].
  destruct (is_sign (str f1)) eqn:E1; simpl; [|done].
  destruct (is_sign (str f3)) eqn:E2; simpl; [|done].
  intros [= <- <- <-]. split_and!; [|done..|].
  - apply chars_inj. rewrite <- Hj. unfold format_link.
    rewrite !chars_append, !chars_str. simpl.
    apply (f_equal chars) in HL. rewrite chars_str in HL. rewrite HL.
    simpl. done.
  - rewrite chars_str.
    apply Forall_cons in Hf as [_ Hf]. apply Forall_cons in Hf as [_ Hf].
    by apply Forall_cons in Hf as [Hf _].
Qed.

Lemma parse_de_bruijn_link_inv_witness :
  parse_de_bruijn_link "  L:-:S2:+ " = Ok ("-", "S2", "+")
  ∧ py_strip "  L:-:S2:+ " = format_link "-" "S2" "+"
  ∧ is_sign "-" = true ∧ is_sign "+" = true ∧ (":"%char ∉ chars "S2").
Proof.
  assert (H : parse_de_bruijn_link "  L:-:S2:+ " = Ok ("-", "S2", "+"))
    by reflexivity.
  split; [exact H|].
  exact (parse_de_bruijn_link_inv "  L:-:S2:+ " "-" "S2" "+" H).
Defined.

(** ** Insertions into the signed multigraph (src/utility.py) *)

Lemma stored_edge_with_sign_exists G u v s1 s2 :
  stored G u v s1 s2 ↔ edge_with_sign_exists G u v s1 s2 = true.
Proof.
  split.
  - intros Hst. destruct (edge_with_sign_exists G u v s1 s2) eqn:E; [done|].
    apply edge_with_sign_missing in E. apply stored_links in Hst. done.
  - unfold edge_with_sign_exists. destruct (m_has_edge G u v); simpl; [|done].
    intros H. apply existsb_exists in H as (e & He & H).
    apply andb_true_iff in H as [H1 H2].
    apply bool_decide_eq_true in H1, H2.
    apply list_elem_of_In, list_elem_of_filter in He as [[Hu Hv] He].
    by exists e.
Qed.

(** [add_de_bruijn_edge] raises [ValueError] exactly when one of the signs
    is not ["+"] or ["-"], and then the graph is left as it was; with two
    signs it returns. *)
Lemma add_de_bruijn_edge_cases (G : MultiDiGraph) (v1 v2 s1 s2 : string) :
  add_de_bruijn_edge G v1 v2 s1 s2 =
    if is_sign s1 && is_sign s2
    then ((add_de_bruijn_edge G v1 v2 s1 s2).1, Ok ())
    else (G, Raise ValueError).
Proof.
  unfold add_de_bruijn_edge.
  destruct (is_sign s1) eqn:E1, (is_sign s2) eqn:E2; simpl; try done.
  destruct (edge_with_sign_exists G v1 v2 s1 s2); simpl; [done|].
  destruct (is_sign_reverse s1 E1) as (r1 & -> & _).
  destruct (is_sign_reverse s2 E2) as (r2 & -> & _). done.
Qed.

(** After an insertion with two signs the link and its mirror are found by
    [edge_with_sign_exists], and the same insertion, or the insertion of
    the mirror, changes nothing any more. *)
Theorem add_de_bruijn_edge_idempotent (G : MultiDiGraph)
    (v1 v2 s1 s2 r1 r2 : string) :
  reverse_sign s1 = Ok r1 → reverse_sign s2 = Ok r2 →
  let G' := (add_de_bruijn_edge G v1 v2 s1 s2).1 in
  edge_with_sign_exists G' v1 v2 s1 s2 = true
  ∧ (symmetric G → edge_with_sign_exists G' v2 v1 r2 r1 = true)
  ∧ add_de_bruijn_edge G' v1 v2 s1 s2 = (G', Ok ())
  ∧ (symmetric G → add_de_bruijn_edge G' v2 v1 r2 r1 = (G', Ok ())).
Proof.
  intros Hr1 Hr2 G'.
  assert (E1 : is_sign s1 = true).
  { destruct (is_sign s1) eqn:E; [done|].
    destruct (reverse_sign_cases s1) as [_ H]. rewrite H in Hr1; done. }
  assert (E2 : is_sign s2 = true).
  { destruct (is_sign s2) eqn:E; [done|].
    destruct (reverse_sign_cases s2) as [_ H]. rewrite H in Hr2; done. }
  assert (F1 : is_sign r1 = true).
  { unfold reverse_sign in Hr1. repeat case_decide; by inversion Hr1. }
  assert (F2 : is_sign r2 = true).
  { unfold reverse_sign in Hr2. repeat case_decide; by inversion Hr2. }
  assert (Hst : stored G' v1 v2 s1 s2).
  { unfold G', add_de_bruijn_edge. rewrite E1, E2. simpl.
    destruct (edge_with_sign_exists G v1 v2 s1 s2) eqn:Hex; simpl.
    - by apply stored_edge_with_sign_exists.
    - rewrite Hr1, Hr2. simpl.
      apply stored_m_add_edge. left. apply stored_m_add_edge. by right. }
  assert (Hmir : symmetric G → stored G' v2 v1 r2 r1).
  { intros Hsym.
    pose proof (add_de_bruijn_edge_symmetric G v1 v2 s1 s2 Hsym) as Hsym'.
    destruct (Hsym' _ _ _ _ Hst) as (q1 & q2 & Hq1 & Hq2 & Hm).
    by replace r1 with q1 by congruence; replace r2 with q2 by congruence. }
  split_and!.
  - by apply stored_edge_with_sign_exists.
  - intros Hsym. by apply stored_edge_with_sign_exists, Hmir.
  - unfold add_de_bruijn_edge at 1. rewrite E1, E2. simpl.
    apply stored_edge_with_sign_exists in Hst. by rewrite Hst.
  - intros Hsym. unfold add_de_bruijn_edge at 1. rewrite F1, F2. simpl.
    pose proof (Hmir Hsym) as H. apply stored_edge_with_sign_exists in H.
    by rewrite H.
Qed.

Lemma add_de_bruijn_edge_idempotent_witness :
  reverse_sign "+" = Ok "-" ∧ reverse_sign "-" = Ok "+"
  ∧ let G' := (add_de_bruijn_edge empty_multigraph "a" "b" "+" "-").1 in
    edge_with_sign_exists G' "a" "b" "+" "-" = true
    ∧ (symmetric empty_multigraph →
       edge_with_sign_exists G' "b" "a" "+" "-" = true)
    ∧ add_de_bruijn_edge G' "a" "b" "+" "-" = (G', Ok ())
    ∧ (symmetric empty_multigraph →
       add_de_bruijn_edge G' "b" "a" "+" "-" = (G', Ok ())).
Proof.
  assert (H1 : reverse_sign "+" = Ok "-") by reflexivity.
  assert (H2 : reverse_sign "-" = Ok "+") by reflexivity.
  refine (conj H1 (conj H2 _)).
  exact (add_de_bruijn_edge_idempotent empty_multigraph "a" "b" "+" "-"
           "-" "+" H1 H2).
Defined.

Lemma parse_de_bruijn_link_raises link e :
  parse_de_bruijn_link link = Raise e → e = ValueError.
Proof.
  unfold parse_de_bruijn_link. case_decide; [by intros [= <-]|].
  destruct (py_split_colon (py_strip link)) as [|f0 [|f1 [|f2 [|f3 [|? ?]]]]];
    try by intros [= <-].
  destruct (negb (bool_decide (f0 = "L"))); [by intros [= <-]|].
  destruct (negb (is_sign f1) || negb (is_sign f3)); [by intros [= <-]|done].
Qed.

(** [add_de_bruijn_edges] never raises: a link that does not parse, or whose
    insertion raises, is skipped. *)
Theorem add_de_bruijn_edges_returns (G : MultiDiGraph) (v : string)
    (links : list string) :
  (add_de_bruijn_edges G v links).2 = Ok ().
Proof.
  revert G. induction links as [|link links IH]; intros G; simpl; [done|].
  destruct (parse_de_bruijn_link link) as [[[sign1 target] sign2] | e] eqn:Hp.
  - rewrite add_de_bruijn_edge_cases.
    destruct (is_sign sign1 && is_sign sign2); apply IH.
  - apply parse_de_bruijn_link_raises in Hp as ->. apply IH.
Qed.

(** Links are inserted one after the other: a list in two parts is the
    first part, then the second. *)
Theorem add_de_bruijn_edges_app (G : MultiDiGraph) (v : string)
    (links1 links2 : list string) :
  add_de_bruijn_edges G v (links1 ++ links2)
  = add_de_bruijn_edges (add_de_bruijn_edges G v links1).1 v links2.
Proof.
  revert G. induction links1 as [|link links1 IH]; intros G; simpl; [done|].
  destruct (parse_de_bruijn_link link) as [[[sign1 target] sign2] | e] eqn:Hp.
  - rewrite add_de_bruijn_edge_cases.
    destruct (is_sign sign1 && is_sign sign2); apply IH.
  - apply parse_de_bruijn_link_raises in Hp as ->. apply IH.
Qed.

(** Well-formed link strings do what the single insertions do, in order. *)
Theorem add_de_bruijn_edges_formatted (G : MultiDiGraph) (v : string)
    (triples : list (string * string * string)) :
  Forall (λ t, is_sign t.1.1 = true ∧ is_sign t.2 = true
               ∧ ":"%char ∉ chars t.1.2) triples →
  (add_de_bruijn_edges G v
     ((λ t, format_link t.1.1 t.1.2 t.2) <$> triples)).1
  = foldl (λ G t, (add_de_bruijn_edge G v t.1.2 t.1.1 t.2).1) G triples.
Proof.
  intros H. revert G.
  induction H as [|[[s1 t] s2] triples (H1 & H2 & Ht) _ IH]; intros G; [done|].
  rewrite fmap_cons. simpl in *.
  rewrite (parse_format_link_ok s1 t s2 H1 H2 Ht).
  rewrite add_de_bruijn_edge_cases, H1, H2. simpl. apply IH.
Qed.

Lemma add_de_bruijn_edges_formatted_witness :
  let triples := [("+", "S2", "-"); ("-", "S3", "-")] in
  Forall (λ t, is_sign t.1.1 = true ∧ is_sign t.2 = true
               ∧ ":"%char ∉ chars t.1.2) triples
  ∧ (add_de_bruijn_edges empty_multigraph "S1"
       ((λ t, format_link t.1.1 t.1.2 t.2) <$> triples)).1
    = foldl (λ G t, (add_de_bruijn_edge G "S1" t.1.2 t.1.1 t.2).1)
            empty_multigraph triples.
Proof.
  intros triples.
  assert (H : Forall (λ t, is_sign t.1.1 = true ∧ is_sign t.2 = true
                           ∧ ":"%char ∉ chars t.1.2) triples).
  { repeat constructor; simpl;
      apply (bool_decide_unpack _); vm_compute; exact I. }
  split; [exact H|].
  exact (add_de_bruijn_edges_formatted empty_multigraph "S1" triples H).
Defined.

Lemma m_add_node_spec ns n x : x ∈ m_add_node ns n ↔ x ∈ ns ∨ x = n.
Proof.
  unfold m_add_node. case_decide as Hn.
  - split; [by left | intros [H | ->]; done].
  - rewrite elem_of_app, list_elem_of_singleton. done.
Qed.

Lemma m_add_node_NoDup ns n : NoDup ns → NoDup (m_add_node ns n).
Proof.
  intros H. unfold m_add_node. case_decide as Hn; [done|].
  apply NoDup_app. split_and!; [done| |apply NoDup_singleton].
  intros x Hx Hx'. apply list_elem_of_singleton in Hx'. by subst x.
Qed.

Lemma m_add_edge_wf G u v sb se lb :
  wf_multigraph G → wf_multigraph (m_add_edge G u v sb se lb).
Proof.
  intros [Hnd Hedges]. unfold wf_multigraph, m_add_edge. simpl. split.
  - by do 2 apply m_add_node_NoDup.
  - apply Forall_app. split.
    + eapply Forall_impl; [exact Hedges|]. intros e [H1 H2].
      rewrite !m_add_node_spec. tauto.
    + apply Forall_singleton. simpl. rewrite !m_add_node_spec. tauto.
Qed.

Lemma add_de_bruijn_edge_wf G v1 v2 s1 s2 :
  wf_multigraph G ∧ signed G →
  wf_multigraph (add_de_bruijn_edge G v1 v2 s1 s2).1
  ∧ signed (add_de_bruijn_edge G v1 v2 s1 s2).1.
Proof.
  intros [Hwf Hsg]. unfold add_de_bruijn_edge.
  destruct (is_sign s1) eqn:E1; simpl; [|done].
  destruct (is_sign s2) eqn:E2; simpl; [|done].
  destruct (edge_with_sign_exists G v1 v2 s1 s2); simpl; [done|].
  destruct (reverse_sign_cases s1) as [H1 _].
  destruct (reverse_sign_cases s2) as [H2 _].
  destruct (H1 E1) as (r1 & Hr1 & Hr1' & _).
  destruct (H2 E2) as (r2 & Hr2 & Hr2' & _).
  rewrite Hr1, Hr2. simpl. split.
  - by do 2 apply m_add_edge_wf.
  - unfold signed, m_add_edge. simpl.
    rewrite !Forall_app, !Forall_singleton. simpl. split_and!; try done.
    + unfold reverse_sign in Hr2. repeat case_decide; by inversion Hr2.
    + unfold reverse_sign in Hr1. repeat case_decide; by inversion Hr1.
Qed.

(** Whatever the insertions, the graph stays as networkx wants it (no node
    twice, the end points of every edge among the nodes) and every stored
    edge carries two signs of [{"+", "-"}]. *)
Theorem build_well_formed (ops : list insertion) :
  wf_multigraph (build ops) ∧ signed (build ops).
Proof.
  apply (build_invariant (λ G, wf_multigraph G ∧ signed G)).
  - intros G v1 v2 s1 s2. apply add_de_bruijn_edge_wf.
  - split; [split; [apply NoDup_nil_2 | apply Forall_nil_2]
           | apply Forall_nil_2].
Qed.

(** Insertions never remove or change a stored link: what is stored after
    some insertions is still stored after more of them. *)
Theorem build_keeps_links (ops ops' : list insertion) (u v s1 s2 : string) :
  stored (build ops) u v s1 s2 → stored (build (ops ++ ops')) u v s1 s2.
Proof.
  intros Hst. unfold build. rewrite foldl_app. fold (build ops).
  apply (foldl_insert_invariant (λ G, stored G u v s1 s2)); [|done].
  clear. intros G v1 v2 a b H. unfold add_de_bruijn_edge.
  destruct (negb (is_sign a) || negb (is_sign b)); simpl; [done|].
  destruct (negb (edge_with_sign_exists G v1 v2 a b)); simpl; [|done].
  destruct (reverse_sign b), (reverse_sign a); simpl;
    repeat (apply stored_m_add_edge; left); done.
Qed.

Lemma build_keeps_links_witness :
  stored (build [InsertEdge "a" "b" "+" "+"]) "b" "a" "-" "-"
  ∧ stored (build ([InsertEdge "a" "b" "+" "+"]
                   ++ [InsertLinks "b" ["L:-:a:-"; "L:+:c:-"]]))
           "b" "a" "-" "-".
Proof.
  assert (H : stored (build [InsertEdge "a" "b" "+" "+"]) "b" "a" "-" "-").
  { eexists (MEdge "b" "a" 0 "-" "-" "->-"). split; [|done].
    vm_compute. right. left. }
  split; [exact H|].
  exact (build_keeps_links _ [InsertLinks "b" ["L:-:a:-"; "L:+:c:-"]]
           "b" "a" "-" "-" H).
Defined.

(** ** Reconstruction of the sequence (src/reconstruit.py) *)

Local Open Scope Z_scope.

Lemma length_chars s : length (chars s) = String.length s.
Proof. rewrite <- (str_chars s) at 2. by rewrite length_str. Qed.

Lemma str_app l1 l2 : str (l1 ++ l2) = str l1 +:+ str l2.
Proof. apply chars_inj. by rewrite chars_append, !chars_str. Qed.

Lemma str_len_append a b : str_len (a +:+ b) = str_len a + str_len b.
Proof.
  unfold str_len. rewrite <- !length_chars, chars_append, length_app. lia.
Qed.

Lemma str_len_nonneg s : 0 ≤ str_len s.
Proof. unfold str_len. lia. Qed.

Lemma str_len_empty s : str_len s = 0 → s = "".
Proof. unfold str_len. destruct s; simpl; [done | lia]. Qed.

Lemma py_clip_in len i : 0 ≤ i ≤ len → py_clip len i = Z.to_nat i.
Proof.
  intros H. unfold py_clip. destruct (Z.ltb_spec i 0); [lia|].
  by rewrite Z.min_l by lia.
Qed.

(** [s[:len(s)-k]] for [0 ≤ k ≤ len(s)]: all but the last [k] characters. *)
Lemma str_slice_front s k :
  0 ≤ k ≤ str_len s →
  str_slice s 0 (str_len s - k)
  = str (take (length (chars s) - Z.to_nat k)%nat (chars s)).
Proof.
  intros Hk. unfold str_slice, py_slice.
  assert (Hlen : Z.of_nat (length (chars s)) = str_len s).
  { unfold str_len. by rewrite length_chars. }
  rewrite Hlen, !py_clip_in by lia.
  change (Z.to_nat 0) with 0%nat. rewrite drop_0.
  f_equal. f_equal. lia.
Qed.

Lemma combine_DNA_length title s v k sq :
  title !! v = Some sq → 0 ≤ k ≤ str_len s →
  ∃ dna, combine_DNA title s v k = Ok dna
         ∧ str_len dna = str_len s - k + str_len sq.
Proof.
  intros Hv Hk. unfold combine_DNA. rewrite Hv.
  case_bool_decide as Hs.
  - eexists. split; [done|]. rewrite str_len_append, str_slice_front by done.
    unfold str_len at 1. rewrite length_str, length_take, length_chars.
    unfold str_len in *. lia.
  - exists sq. split; [done|]. subst s.
    unfold str_len in *. simpl in *. lia.
Qed.

Lemma for_each_cons {A S : Type} (x : A) (l : list A)
    (body : A → S → result S) (s : S) :
  for_each (x :: l) body s = body x s ≫= for_each l body.
Proof. done. Qed.

Lemma sum_Z_cons x l : sum_Z (x :: l) = x + sum_Z l.
Proof. done. Qed.

Lemma seq_len_Some title v sq : title !! v = Some sq → seq_len title v = str_len sq.
Proof. intros H. unfold seq_len. by rewrite H. Qed.

Lemma recontruct_DNA_length_from title path k acc :
  0 ≤ k ≤ str_len acc → covers title k path →
  ∃ dna, for_each path (λ vertex dna_sequence,
                          combine_DNA title dna_sequence vertex k) acc = Ok dna
         ∧ str_len dna
           = str_len acc + sum_Z ((λ v, seq_len title v - k) <$> path).
Proof.
  intros Hk Hcov. revert acc Hk.
  induction Hcov as [|v path (sq & Hv & Hsq) _ IH]; intros acc Hk.
  { exists acc. split; [done|]. rewrite fmap_nil. unfold sum_Z. simpl. lia. }
  destruct (combine_DNA_length title acc v k sq Hv Hk) as (dna1 & H1 & Hl1).
  rewrite for_each_cons, H1.
  destruct (IH dna1) as (dna & Hdna & Hl); [lia|].
  exists dna. split; [exact Hdna|].
  rewrite Hl, Hl1, fmap_cons, sum_Z_cons, (seq_len_Some _ _ _ Hv). lia.
Qed.

(** The length law: for an overlap [0 ≤ k] and a path whose nodes all have a
    sequence of at least [k] characters, [recontruct_DNA] returns a string
    of [L1 + (L2 − k) + … + (Lm − k)] characters, whether the overlaps match
    or not. *)
Theorem recontruct_DNA_length (title : gmap string string)
    (path : list string) (k : Z) :
  0 ≤ k → covers title k path → path ≠ [] →
  ∃ dna, recontruct_DNA title path k = Ok dna
         ∧ str_len dna = k + sum_Z ((λ v, seq_len title v - k) <$> path).
Proof.
  intros Hk Hcov Hne. destruct path as [|v path]; [done|].
  apply Forall_cons in Hcov as [(sq & Hv & Hsq) Hcov].
  unfold recontruct_DNA. rewrite for_each_cons.
  assert (combine_DNA title "" v k = Ok sq) as ->.
  { unfold combine_DNA. by rewrite Hv. }
  destruct (recontruct_DNA_length_from title path k sq) as (dna & Hdna & Hl);
    [lia | done |].
  exists dna. split; [exact Hdna|].
  rewrite Hl, fmap_cons, sum_Z_cons, (seq_len_Some _ _ _ Hv). lia.
Qed.

Lemma recontruct_DNA_length_witness :
  let title : gmap string string :=
    <["S1" := "AAAGT"]> (<["S2" := "AGTTC"]> ∅) in
  0 ≤ 3 ∧ covers title 3 ["S1"; "S2"] ∧ ["S1"; "S2"] ≠ []
  ∧ ∃ dna, recontruct_DNA title ["S1"; "S2"] 3 = Ok dna
           ∧ str_len dna
             = 3 + sum_Z ((λ v, seq_len title v - 3) <$> ["S1"; "S2"]).
Proof.
  intros title.
  assert (H1 : 0 ≤ 3) by lia.
  assert (H2 : covers title 3 ["S1"; "S2"]).
  { repeat constructor; eexists; (split; [reflexivity | vm_compute; discriminate]). }
  assert (H3 : ["S1"; "S2"] ≠ @nil string) by discriminate.
  refine (conj H1 (conj H2 (conj H3 _))).
  exact (recontruct_DNA_length title ["S1"; "S2"] 3 H1 H2 H3).
Defined.

(** [recontruct_DNA] raises exactly when a node of the path has no
    sequence, and then it is a [KeyError]. *)
Theorem recontruct_DNA_outcome (title : gmap string string)
    (path : list string) (k : Z) :
  if decide (Forall (λ v, is_Some (title !! v)) path)
  then ∃ dna, recontruct_DNA title path k = Ok dna
  else recontruct_DNA title path k = Raise KeyError.
Proof.
  unfold recontruct_DNA. generalize "". induction path as [|v path IH];
    intros acc.
  { rewrite decide_True by constructor. by exists acc. }
  simpl. unfold combine_DNA at 2 4.
  destruct (title !! v) as [sq|] eqn:Hv.
  - specialize (IH (if bool_decide (acc ≠ "")
                    then str_slice acc 0 (str_len acc - k) +:+ sq else sq)).
    destruct (decide (Forall _ path)) as [Hf | Hf].
    + rewrite decide_True by (constructor; [by rewrite Hv | done]).
      by destruct (bool_decide (acc ≠ "")).
    + rewrite decide_False.
      * by destruct (bool_decide (acc ≠ "")).
      * intros H. apply Forall_cons in H as [_ H]. done.
  - rewrite decide_False; [done|].
    intros H. apply Forall_cons in H as [[? H] _]. by rewrite Hv in H.
Qed.

Lemma str_slice_back s k :
  0 ≤ k ≤ str_len s →
  str_slice s (str_len s - k) (str_len s)
  = str (drop (length (chars s) - Z.to_nat k)%nat (chars s)).
Proof.
  intros Hk. unfold str_slice, py_slice.
  assert (Hlen : Z.of_nat (length (chars s)) = str_len s).
  { unfold str_len. by rewrite length_chars. }
  rewrite Hlen, !py_clip_in by lia.
  rewrite take_ge by lia. f_equal. f_equal. lia.
Qed.

Lemma str_slice_prefix s k :
  0 ≤ k → str_slice s 0 k = str (take (Z.to_nat k) (chars s)).
Proof.
  intros Hk. unfold str_slice, py_slice, py_clip.
  destruct (Z.ltb_spec k 0); [lia|]. destruct (Z.ltb_spec 0 0); [lia|].
  rewrite Z.min_l by lia. change (Z.to_nat 0) with 0%nat. rewrite drop_0.
  f_equal. destruct (Z.le_gt_cases k (Z.of_nat (length (chars s)))).
  - by rewrite Z.min_l by lia.
  - rewrite Z.min_r by lia. rewrite Nat2Z.id.
    rewrite !take_ge; [done | lia | lia].
Qed.

(** What the test of [combine_DNA] compares, on lists of characters. *)
Lemma overlap_matches_spec s sq k :
  0 ≤ k ≤ str_len s →
  overlap_matches s sq k = true
  ↔ drop (length (chars s) - Z.to_nat k)%nat (chars s)
    = take (Z.to_nat k) (chars sq).
Proof.
  intros Hk. unfold overlap_matches.
  rewrite str_slice_back, str_slice_prefix by lia.
  rewrite bool_decide_eq_true. split; [apply str_inj | by intros ->].
Qed.

Lemma combine_DNA_matching (title : gmap string string) (s v sq : string)
    (k : Z) :
  title !! v = Some sq → 0 ≤ k ≤ str_len s →
  overlap_matches s sq k = true →
  combine_DNA title s v k = Ok (s +:+ str (drop (Z.to_nat k) (chars sq))).
Proof.
  intros Hv Hk Hm. unfold combine_DNA. rewrite Hv.
  case_bool_decide as Hs.
  - rewrite str_slice_front by done.
    apply overlap_matches_spec in Hm; [|done].
    f_equal. apply chars_inj.
    rewrite !chars_append, !chars_str.
    rewrite <- (take_drop (Z.to_nat k) (chars sq)) at 1.
    rewrite <- Hm, app_assoc, take_drop. done.
  - subst s. assert (k = 0) as -> by (unfold str_len in Hk; simpl in Hk; lia).
    change (Z.to_nat 0) with 0%nat. by rewrite drop_0, str_chars.
Qed.

(** When the test of [combine_DNA] finds the overlap in place, the function
    only appends: the result is [s] followed by the sequence of the node
    without its first [k] characters. *)
Theorem combine_DNA_appends (title : gmap string string) (s v sq : string)
    (k : Z) :
  title !! v = Some sq → 0 ≤ k ≤ str_len s →
  overlap_matches s sq k = true →
  combine_DNA title s v k = Ok (s +:+ str (drop (Z.to_nat k) (chars sq))).
Proof. apply combine_DNA_matching. Qed.

Lemma combine_DNA_appends_witness :
  let title : gmap string string := <["S2" := "AGTTC"]> ∅ in
  title !! "S2" = Some "AGTTC" ∧ 0 ≤ 3 ≤ str_len "AAAGT"
  ∧ overlap_matches "AAAGT" "AGTTC" 3 = true
  ∧ combine_DNA title "AAAGT" "S2" 3
    = Ok ("AAAGT" +:+ str (drop (Z.to_nat 3) (chars "AGTTC"))).
Proof.
  intros title.
  assert (H1 : title !! "S2" = Some "AGTTC") by reflexivity.
  assert (H2 : 0 ≤ 3 ≤ str_len "AAAGT") by (vm_compute; split; discriminate).
  assert (H3 : overlap_matches "AAAGT" "AGTTC" 3 = true) by reflexivity.
  refine (conj H1 (conj H2 (conj H3 _))).
  exact (combine_DNA_appends title "AAAGT" "S2" "AGTTC" 3 H1 H2 H3).
Defined.

Lemma recontruct_DNA_overlay_from title k path seqs acc pre a :
  0 ≤ k →
  Forall2 (λ v sq, title !! v = Some sq) path seqs →
  Forall (λ sq, k ≤ str_len sq) (a :: seqs) →
  overlapping (Z.to_nat k) (a :: seqs) →
  chars acc = pre ++ chars a →
  for_each path (λ vertex dna_sequence,
                   combine_DNA title dna_sequence vertex k) acc
  = Ok (acc +:+ foldr (λ t r, str (drop (Z.to_nat k) (chars t)) +:+ r)
                      "" seqs).
Proof.
  intros Hk Hf2. revert acc pre a.
  induction Hf2 as [|v b path seqs Hv _ IH]; intros acc pre a Hlen Hov Hacc.
  { simpl. f_equal. apply chars_inj. by rewrite chars_append, app_nil_r. }
  apply Forall_cons in Hlen as [Ha Hlen].
  pose proof Hlen as Hlen'. apply Forall_cons in Hlen' as [Hb _].
  destruct Hov as [Hab Hov].
  assert (Hla : (Z.to_nat k ≤ length (chars a))%nat).
  { unfold str_len in Ha. rewrite length_chars. lia. }
  assert (Hkacc : 0 ≤ k ≤ str_len acc).
  { unfold str_len in *. rewrite <- length_chars, Hacc, length_app.
    rewrite <- (length_chars a) in Ha. lia. }
  assert (Hm : overlap_matches acc b k = true).
  { apply overlap_matches_spec; [done|]. rewrite <- Hab, Hacc.
    rewrite length_app, drop_app_ge by lia. f_equal. lia. }
  rewrite for_each_cons, (combine_DNA_matching title acc v b k Hv Hkacc Hm).
  simpl.
  rewrite (IH _ (pre ++ take (length (chars a) - Z.to_nat k) (chars a)) b);
    [|done|done|].
  - f_equal. apply chars_inj. rewrite !chars_append. by rewrite <- app_assoc.
  - rewrite chars_append, chars_str, Hacc.
    rewrite <- (take_drop (Z.to_nat k) (chars b)) at 2.
    rewrite <- Hab, <- !app_assoc. f_equal.
    by rewrite app_assoc, take_drop.
Qed.

(** When every sequence of the path ends with the [k] characters the next
    one starts with, [recontruct_DNA] returns the first sequence followed
    by each further one without its first [k] characters. *)
Theorem recontruct_DNA_overlay (title : gmap string string)
    (path seqs : list string) (k : Z) :
  0 ≤ k →
  Forall2 (λ v sq, title !! v = Some sq) path seqs →
  Forall (λ sq, k ≤ str_len sq) seqs →
  overlapping (Z.to_nat k) seqs →
  recontruct_DNA title path k = Ok (overlay (Z.to_nat k) seqs).
Proof.
  intros Hk Hf2 Hlen Hov. unfold recontruct_DNA.
  destruct Hf2 as [|v a path seqs Hv Hf2]; [done|].
  rewrite for_each_cons.
  assert (combine_DNA title "" v k = Ok a) as ->.
  { unfold combine_DNA. by rewrite Hv. }
  simpl.
  by rewrite (recontruct_DNA_overlay_from title k path seqs a [] a).
Qed.

Lemma recontruct_DNA_overlay_witness :
  let title : gmap string string :=
    <["S1" := "AAAGT"]> (<["S2" := "AGTTC"]> ∅) in
  0 ≤ 3
  ∧ Forall2 (λ v sq, title !! v = Some sq) ["S1"; "S2"] ["AAAGT"; "AGTTC"]
  ∧ Forall (λ sq, 3 ≤ str_len sq) ["AAAGT"; "AGTTC"]
  ∧ overlapping (Z.to_nat 3) ["AAAGT"; "AGTTC"]
  ∧ recontruct_DNA title ["S1"; "S2"] 3
    = Ok (overlay (Z.to_nat 3) ["AAAGT"; "AGTTC"]).
Proof.
  intros title.
  assert (H1 : 0 ≤ 3) by lia.
  assert (H2 : Forall2 (λ v sq, title !! v = Some sq)
                       ["S1"; "S2"] ["AAAGT"; "AGTTC"]).
  { repeat constructor. }
  assert (H3 : Forall (λ sq, 3 ≤ str_len sq) ["AAAGT"; "AGTTC"]).
  { repeat constructor; vm_compute; discriminate. }
  assert (H4 : overlapping (Z.to_nat 3) ["AAAGT"; "AGTTC"]).
  { split; [reflexivity | exact I]. }
  refine (conj H1 (conj H2 (conj H3 (conj H4 _)))).
  exact (recontruct_DNA_overlay title ["S1"; "S2"] ["AAAGT"; "AGTTC"] 3
           H1 H2 H3 H4).
Defined.

(** ** Bridges and blocks (ortools/tools.py) *)

Lemma land_1 m : Nat.land 1 m = if Nat.odd m then 1%nat else 0%nat.
Proof.
  rewrite Nat.land_comm. change 1%nat with (Nat.ones 1) at 1.
  rewrite Nat.land_ones. change (2 ^ 1)%nat with 2%nat.
  rewrite <- Nat.bit0_mod, Nat.bit0_odd. destruct (Nat.odd m); reflexivity.
Qed.

Lemma elem_of_bridge_graph (G : DiGraph) (n : string) :
  n ∈ bridge_graph G
  ↔ n ∈ nodes G ∧ in_degree G n = 1%nat ∧ Nat.odd (out_degree G n) = true.
Proof.
  unfold bridge_graph, bridge_test. rewrite list_elem_of_filter, land_1.
  destruct (Nat.odd (out_degree G n)); simpl.
  - rewrite andb_true_r, Nat.eqb_eq. tauto.
  - rewrite andb_false_r.
    split; [intros [? _] | intros (_ & _ & ?)]; discriminate.
Qed.

(** What [bridge_graph] returns as the code is written: the nodes with one
    incoming edge and an odd number of outgoing ones.  Every node with one
    edge in and one edge out is among them. *)
Theorem bridge_graph_spec (G : DiGraph) (n : string) :
  (n ∈ bridge_graph G
   ↔ n ∈ nodes G ∧ in_degree G n = 1%nat ∧ Nat.odd (out_degree G n) = true)
  ∧ (n ∈ nodes G → is_bridge G n = true → n ∈ bridge_graph G).
Proof.
  split; [apply elem_of_bridge_graph|].
  intros Hn Hb. apply elem_of_bridge_graph. unfold is_bridge in Hb.
  apply andb_true_iff in Hb as [H1 H2]. apply Nat.eqb_eq in H1, H2.
  by rewrite H1, H2.
Qed.

Lemma length_bind_ge {A B : Type} (f : A → list B) (l : list A) :
  Forall (λ x, (1 ≤ length (f x))%nat) l → (length l ≤ length (l ≫= f))%nat.
Proof.
  induction 1 as [|x l Hx _ IH]; [done|].
  rewrite bind_cons, length_app. simpl. lia.
Qed.

Lemma py_index_lt {A : Type} (l : list A) (k : nat) :
  (k < length l)%nat → ∃ a, py_index l k = Ok a ∧ l !! k = Some a.
Proof.
  intros H. unfold py_index.
  destruct (lookup_lt_is_Some_2 l k H) as [a Ha]. rewrite Ha. by exists a.
Qed.

Lemma nodes_set_nature G n tag : nodes (set_nature G n tag) = nodes G.
Proof. done. Qed.

Lemma elem_of_nodes_add_node G n x :
  x ∈ nodes (add_node G n) ↔ x ∈ nodes G ∨ x = n.
Proof.
  unfold add_node, has_node. case_bool_decide as Hn; simpl.
  - split; [by left | intros [H | ->]; done].
  - rewrite elem_of_app, list_elem_of_singleton. done.
Qed.

Lemma elem_of_nodes_add_edge G u v x :
  x ∈ nodes (add_edge G u v) ↔ x ∈ nodes G ∨ x = u ∨ x = v.
Proof.
  unfold add_edge. case_bool_decide; simpl;
    rewrite !elem_of_nodes_add_node; tauto.
Qed.

(** Attaching a bridge to a block keeps the nodes of the block and adds at
    most the bridge. *)
Lemma attach_bridge_nodes node_pre node_suc k node sub sub' :
  attach_bridge node_pre node_suc (k, node) sub = Ok sub' →
  ∀ x, (x ∈ nodes sub → x ∈ nodes sub')
       ∧ (x ∈ nodes sub' → x ∈ nodes sub ∨ x = node).
Proof.
  unfold attach_bridge.
  destruct (py_index node_pre k) as [pre|] eqn:Hpre; simpl; [|done].
  destruct (py_index node_suc k) as [suc|] eqn:Hsuc; simpl; [|done].
  intros [= <-] x.
  set (sub1 := if has_node sub pre then _ else sub).
  assert (H1 : (x ∈ nodes sub → x ∈ nodes sub1)
               ∧ (x ∈ nodes sub1 → x ∈ nodes sub ∨ x = node)).
  { unfold sub1. destruct (has_node sub pre) eqn:Hp; [|tauto].
    rewrite nodes_set_nature, elem_of_nodes_add_edge, elem_of_nodes_add_node.
    apply bool_decide_eq_true in Hp. split; [tauto|].
    intros [[?|?]|[Hx|?]]; subst; tauto. }
  destruct (has_node sub1 suc) eqn:Hs; [|exact H1].
  rewrite nodes_set_nature, elem_of_nodes_add_edge, elem_of_nodes_add_node.
  apply bool_decide_eq_true in Hs. split; [tauto|].
  intros [[?|?]|[?|Hx]]; subst; tauto.
Qed.

Section decomposition.
Variable G : DiGraph.

Let node_deg_2 := bridge_graph G.
Let node_pre := node_deg_2 ≫= predecessors G.
Let node_suc := node_deg_2 ≫= successors G.

Lemma bridge_tables_long :
  (length node_deg_2 ≤ length node_pre)%nat
  ∧ (length node_deg_2 ≤ length node_suc)%nat.
Proof.
  split; apply length_bind_ge; apply Forall_forall; intros n Hn;
    apply elem_of_bridge_graph in Hn as (_ & Hin & Hout).
  - unfold in_degree in Hin. lia.
  - unfold out_degree in Hout. destruct (successors G n); [done | simpl; lia].
Qed.

(** The loop over the bridges, for one block: it never raises, keeps the
    nodes of the block and adds bridges only. *)
Lemma attach_all_bridges sub :
  ∃ sub', for_each (imap pair node_deg_2)
                   (attach_bridge node_pre node_suc) sub = Ok sub'
          ∧ (∀ x, x ∈ nodes sub → x ∈ nodes sub')
          ∧ (∀ x, x ∈ nodes sub' → x ∈ nodes sub ∨ x ∈ node_deg_2).
Proof.
  apply (for_each_invariant
           (λ s, (∀ x, x ∈ nodes sub → x ∈ nodes s)
                 ∧ (∀ x, x ∈ nodes s → x ∈ nodes sub ∨ x ∈ node_deg_2)));
    [by split; [|left]|].
  intros [k node] s Hk [Hs1 Hs2].
  apply list_elem_of_lookup in Hk as [i Hi].
  rewrite list_lookup_imap in Hi.
  destruct (node_deg_2 !! i) as [node'|] eqn:Hnode; [|done].
  simpl in Hi. injection Hi as <- <-.
  pose proof (lookup_lt_Some _ _ _ Hnode) as Hlt.
  destruct bridge_tables_long as [Hp Hsu].
  destruct (py_index_lt node_pre i) as (pre & Hpre & _); [lia|].
  destruct (py_index_lt node_suc i) as (suc & Hsuc & _); [lia|].
  assert (∃ s', attach_bridge node_pre node_suc (i, node') s = Ok s')
    as [s' Hs'].
  { unfold attach_bridge. rewrite Hpre. simpl. rewrite Hsuc. simpl. eauto. }
  exists s'. split; [done|].
  pose proof (attach_bridge_nodes _ _ _ _ _ _ Hs') as Hn. split.
  - intros x Hx. by apply Hn, Hs1.
  - intros x Hx. apply Hn in Hx as [Hx | ->]; [by apply Hs2|].
    right. by eapply list_elem_of_lookup_2.
Qed.

Lemma decomposition_blocks comps acc :
  ∃ blocks,
    for_each comps
      (λ set_nodes list_subgraph,
         sub_graph ← for_each (imap pair node_deg_2)
                       (attach_bridge node_pre node_suc)
                       (subgraph G set_nodes);
         Ok (list_subgraph ++ [sub_graph])) acc = Ok (acc ++ blocks)
    ∧ Forall2 (λ c B, (∀ x, x ∈ nodes G → x ∈ c → x ∈ nodes B)
                      ∧ (∀ x, x ∈ nodes B → x ∈ nodes G)) comps blocks.
Proof.
  revert acc. induction comps as [|c comps IH]; intros acc.
  { exists []. split; [by rewrite app_nil_r | constructor]. }
  destruct (attach_all_bridges (subgraph G c)) as (B & HB & Hin & Hout).
  rewrite for_each_cons, HB. simpl.
  destruct (IH (acc ++ [B])) as (blocks & Hbl & Hf2).
  exists (B :: blocks). split.
  - rewrite Hbl. by rewrite <- app_assoc.
  - constructor; [|done]. split.
    + intros x Hx Hc. apply Hin. unfold subgraph. simpl.
      by apply list_elem_of_filter.
    + intros x Hx. apply Hout in Hx as [Hx | Hx].
      * unfold subgraph in Hx. simpl in Hx.
        by apply list_elem_of_filter in Hx as [_ Hx].
      * unfold node_deg_2 in Hx. by apply elem_of_bridge_graph in Hx as [? _].
Qed.
End decomposition.

Lemma elem_of_insert_by_len {A : Type} (x y : list A) l :
  y ∈ insert_by_len x l ↔ y = x ∨ y ∈ l.
Proof.
  induction l as [|z l IH]; simpl.
  - rewrite list_elem_of_singleton, elem_of_nil. tauto.
  - destruct (length x <=? length z)%nat;
      rewrite !elem_of_cons, ?IH; tauto.
Qed.

Lemma length_insert_by_len {A : Type} (x : list A) l :
  length (insert_by_len x l) = S (length l).
Proof.
  induction l as [|z l IH]; simpl; [done|].
  destruct (length x <=? length z)%nat; simpl; by rewrite ?IH.
Qed.

Lemma longest_first_insert {A : Type} (x : list A) l :
  longest_first l → longest_first (insert_by_len x l).
Proof.
  induction l as [|z l IH]; simpl; [by intros _; split|].
  intros [Hz Hl]. destruct (Nat.leb_spec (length x) (length z)); simpl.
  - split; [|by apply IH]. apply Forall_forall. intros y Hy.
    apply elem_of_insert_by_len in Hy as [-> | Hy]; [done|].
    rewrite Forall_forall in Hz. by apply Hz.
  - split_and!; [|done..]. constructor; [lia|].
    eapply Forall_impl; [exact Hz|]. simpl. intros; lia.
Qed.

(** [sorted(l, key=len, reverse=True)] keeps the elements and puts them
    longest first. *)
Lemma sorted_by_len_desc_spec {A : Type} (l : list (list A)) :
  (∀ x, x ∈ sorted_by_len_desc l ↔ x ∈ l)
  ∧ length (sorted_by_len_desc l) = length l
  ∧ longest_first (sorted_by_len_desc l).
Proof.
  unfold sorted_by_len_desc.
  induction l as [|y l (IH1 & IH2 & IH3)] using rev_ind.
  { split_and!; done. }
  rewrite foldl_snoc. split_and!.
  - intros x. rewrite elem_of_insert_by_len, IH1, elem_of_app,
      list_elem_of_singleton. tauto.
  - rewrite length_insert_by_len, IH2, length_app. simpl. lia.
  - by apply longest_first_insert.
Qed.

Lemma plain_bfs_seen fuel G seen level x :
  x ∈ seen → x ∈ plain_bfs fuel G seen level.
Proof.
  revert seen level. induction fuel as [|fuel IH]; intros seen level Hx;
    simpl; [done|].
  destruct level; [done|]. apply IH, elem_of_app. by left.
Qed.

Lemma components_from_cover G seen vs v :
  v ∈ vs → v ∈ seen ∨ ∃ c, c ∈ components_from G seen vs ∧ v ∈ c.
Proof.
  revert seen. induction vs as [|w vs IH]; intros seen Hv;
    [by apply elem_of_nil in Hv|].
  simpl. apply elem_of_cons in Hv as [-> | Hv].
  - destruct (decide (w ∈ seen)); [by left|]. right.
    eexists. split; [apply list_elem_of_here|].
    apply plain_bfs_seen, list_elem_of_here.
  - destruct (decide (w ∈ seen)); [by apply IH|].
    destruct (IH (seen ++ plain_bfs (length (nodes G)) G [w] [w]) Hv)
      as [H | (c & Hc & Hvc)].
    + apply elem_of_app in H as [H | H]; [by left|]. right.
      eexists. split; [apply list_elem_of_here | done].
    + right. exists c. split; [by apply list_elem_of_further | done].
Qed.

(** [decomposition] never raises.  It returns one block for each weakly
    connected component that is left when the nodes of [bridge_graph] are
    taken out; the blocks hold nodes of the graph only, and every node that
    [bridge_graph] does not return lies in one of them. *)
Theorem decomposition_blocks_cover (G : DiGraph) :
  ∃ blocks, decomposition G = Ok blocks
    ∧ length blocks
      = length (weakly_connected_components
                  (remove_nodes_from G (bridge_graph G)))
    ∧ (∀ B x, B ∈ blocks → x ∈ nodes B → x ∈ nodes G)
    ∧ (∀ x, x ∈ nodes G → x ∉ bridge_graph G →
            ∃ B, B ∈ blocks ∧ x ∈ nodes B).
Proof.
  unfold decomposition.
  set (comps := sorted_by_len_desc _).
  destruct (decomposition_blocks G comps []) as (blocks & Hbl & Hf2).
  exists blocks. split; [exact Hbl|].
  destruct (sorted_by_len_desc_spec
              (weakly_connected_components
                 (remove_nodes_from G (bridge_graph G)))) as (Hel & Hlen & _).
  fold comps in Hel, Hlen. split_and!.
  - by rewrite <- (Forall2_length _ _ _ Hf2).
  - intros B x HB Hx.
    apply list_elem_of_lookup in HB as [i Hi].
    destruct (Forall2_lookup_r _ _ _ _ _ Hf2 Hi) as (c & _ & _ & Hout).
    by apply Hout.
  - intros x Hx Hnb.
    assert (Hx' : x ∈ nodes (remove_nodes_from G (bridge_graph G))).
    { unfold remove_nodes_from. simpl. by apply list_elem_of_filter. }
    destruct (components_from_cover (remove_nodes_from G (bridge_graph G))
                [] _ x Hx') as [H | (c & Hc & Hxc)];
      [by apply elem_of_nil in H|].
    apply Hel in Hc. apply list_elem_of_lookup in Hc as [i Hi].
    destruct (Forall2_lookup_l _ _ _ _ _ Hf2 Hi) as (B & HB & Hin & _).
    exists B. split; [by eapply list_elem_of_lookup_2 | by apply Hin].
Qed.

(** ** The largest component (src/reconstruit.py, src/utility.py) *)

(** On a graph without nodes [find_biggest_component] raises [IndexError]
    (there is no first component); otherwise it returns the subgraph induced
    by a weakly connected component that no other one exceeds in size. *)
Theorem find_biggest_component_spec (G : DiGraph) :
  match nodes G with
  | [] => find_biggest_component G = Raise IndexError
  | _ :: _ =>
      ∃ c, find_biggest_component G = Ok (subgraph G c)
           ∧ c ∈ weakly_connected_components G
           ∧ Forall (λ c', (length c' ≤ length c)%nat)
                    (weakly_connected_components G)
  end.
Proof.
  unfold find_biggest_component.
  destruct (sorted_by_len_desc_spec (weakly_connected_components G))
    as (Hel & Hlen & Hsorted).
  destruct (nodes G) as [|v vs] eqn:Hnodes.
  - unfold weakly_connected_components. rewrite Hnodes. done.
  - destruct (sorted_by_len_desc (weakly_connected_components G))
      as [|c comps] eqn:Hs.
    { exfalso.
      assert (Hne : weakly_connected_components G ≠ []).
      { unfold weakly_connected_components. rewrite Hnodes. simpl.
        destruct (decide (v ∈ [])) as [H | _]; [by apply elem_of_nil in H|].
        done. }
      destruct (weakly_connected_components G); done. }
    exists c. split_and!; [done| |].
    + apply Hel, list_elem_of_here.
    + apply Forall_forall. intros c' Hc'. apply Hel in Hc'.
      destruct Hsorted as [Hc _]. rewrite Forall_forall in Hc.
      apply elem_of_cons in Hc' as [-> | Hc']; [done | by apply Hc].
Qed.

(** ** Edge registers (src/tools_base.py, code/graph_path_problem.py) *)

Lemma NoDup_successors G n : NoDup (edges G) → NoDup (successors G n).
Proof.
  intros H. unfold successors. apply NoDup_fmap_2_strong.
  - intros [u1 v1] [u2 v2] H1 H2 Hv.
    apply list_elem_of_filter in H1 as [H1 _], H2 as [H2 _].
    simpl in *. congruence.
  - by apply NoDup_filter.
Qed.

Lemma elem_of_edges_iter G e :
  e ∈ edges_iter G ↔ e.1 ∈ nodes G ∧ e ∈ edges G.
Proof.
  unfold edges_iter. rewrite list_elem_of_bind. split.
  - intros (n & He & Hn). apply list_elem_of_fmap in He as (v & -> & Hv).
    apply elem_of_successors in Hv. done.
  - intros [Hn He]. destruct e as [u v]. exists u. split; [|done].
    apply list_elem_of_fmap. exists v. split; [done|].
    by apply elem_of_successors.
Qed.

(** [G.edges()] lists every edge once. *)
Lemma edges_iter_Permutation G : wf_digraph G → edges_iter G ≡ₚ edges G.
Proof.
  intros (Hn & He & Hin). apply NoDup_Permutation; [|done|].
  - unfold edges_iter. apply NoDup_bind; [| |done].
    + intros n1 n2 e _ _ H1 H2.
      apply list_elem_of_fmap in H1 as (v1 & -> & _).
      apply list_elem_of_fmap in H2 as (v2 & [= -> _] & _). done.
    + intros n _. apply NoDup_fmap_2_strong; [|by apply NoDup_successors].
      by intros v1 v2 _ _ [= ->].
  - intros e. rewrite elem_of_edges_iter. split; [tauto|].
    intros H. split; [|done]. rewrite Forall_forall in Hin.
    by destruct (Hin e H).
Qed.

(** Numbering a list without repetition: the number of [x] is its place. *)
Lemma enumerate_lookup `{Countable K} (l : list K) :
  NoDup l →
  let reg : gmap K nat :=
    foldl (λ r (nx : nat * K), <[nx.2 := nx.1]> r) ∅ (imap pair l) in
  (∀ x i, reg !! x = Some i ↔ l !! i = Some x) ∧ size reg = length l.
Proof.
  induction l as [|y l IH] using rev_ind; intros Hnd reg.
  { split; [|done]. intros x i. unfold reg. simpl.
    rewrite lookup_empty, lookup_nil. done. }
  apply NoDup_app in Hnd as (Hnd & Hy & _).
  destruct (IH Hnd) as [Hlook Hsize].
  assert (Hyl : y ∉ l).
  { intros Hyl. apply (Hy y Hyl), list_elem_of_here. }
  unfold reg. rewrite imap_app, foldl_app. simpl.
  rewrite Nat.add_0_r.
  set (reg0 := foldl _ ∅ (imap pair l)) in *.
  assert (Hnone : reg0 !! y = None).
  { destruct (reg0 !! y) as [i|] eqn:E; [|done].
    apply Hlook in E. exfalso. apply Hyl. by eapply list_elem_of_lookup_2. }
  split.
  - intros x i. rewrite lookup_snoc_Some.
    destruct (decide (y = x)) as [-> | Hne].
    + rewrite lookup_insert_eq. split.
      * intros [= <-]. by right.
      * intros [[_ Hl] | [-> _]]; [|done].
        exfalso. apply Hyl. by eapply list_elem_of_lookup_2.
    + rewrite lookup_insert_ne by done. rewrite Hlook. split.
      * intros Hl. left. split; [by eapply lookup_lt_Some | done].
      * intros [[_ Hl] | [_ ?]]; done.
  - rewrite map_size_insert_None by done. rewrite Hsize, length_app.
    simpl. lia.
Qed.

Lemma edges_register_enumerates (prob : GraphPathProblem) :
  wf_digraph (graph prob) →
  let reg := edges_register (update_edges_register prob) in
  reg = registre_edges (graph prob)
  ∧ (∀ e i, reg !! e = Some i ↔ edges_iter (graph prob) !! i = Some e)
  ∧ (∀ e, e ∈ edges (graph prob) →
          ∃ i, reg !! e = Some i ∧ (i < size reg)%nat)
  ∧ size reg = length (edges (graph prob)).
Proof.
  intros Hwf reg.
  pose proof (edges_iter_Permutation _ Hwf) as Hperm.
  assert (Hnd : NoDup (edges_iter (graph prob))).
  { rewrite Hperm. by destruct Hwf as (_ & ? & _). }
  destruct (enumerate_lookup (edges_iter (graph prob)) Hnd) as [Hlook Hsize].
  split_and!; [done | exact Hlook | | by rewrite <- Hperm].
  intros e He. rewrite <- Hperm in He.
  apply list_elem_of_lookup in He as [i Hi].
  exists i. split; [by apply Hlook|].
  unfold reg, update_edges_register. simpl. rewrite Hsize.
  by eapply lookup_lt_Some.
Qed.

(** [registre_edges] and [update_edges_register] build the same register,
    and on a graph as networkx keeps it this register is a bijection
    between the edges and [0, |E|): the index of an edge is its place in
    [G.edges()], and there are as many entries as edges. *)
Theorem edges_register_bijection (prob : GraphPathProblem) :
  wf_digraph (graph prob) →
  let reg := edges_register (update_edges_register prob) in
  reg = registre_edges (graph prob)
  ∧ (∀ e i, reg !! e = Some i ↔ edges_iter (graph prob) !! i = Some e)
  ∧ (∀ e, e ∈ edges (graph prob) →
          ∃ i, reg !! e = Some i ∧ (i < size reg)%nat)
  ∧ size reg = length (edges (graph prob)).
Proof. apply edges_register_enumerates. Qed.

Lemma edges_register_bijection_witness :
  let prob := MkProblem diamond_graph 0 ∅ in
  wf_digraph (graph prob)
  ∧ let reg := edges_register (update_edges_register prob) in
    reg = registre_edges (graph prob)
    ∧ (∀ e i, reg !! e = Some i ↔ edges_iter (graph prob) !! i = Some e)
    ∧ (∀ e, e ∈ edges (graph prob) →
            ∃ i, reg !! e = Some i ∧ (i < size reg)%nat)
    ∧ size reg = length (edges (graph prob)).
Proof.
  intros prob.
  assert (H : wf_digraph (graph prob)).
  { apply (bool_decide_unpack _). vm_compute. exact I. }
  split; [exact H|]. exact (edges_register_bijection prob H).
Defined.

Lemma update_edges_register_serves (prob : GraphPathProblem) :
  wf_digraph (graph prob) →
  valid_register (update_edges_register prob) = true.
Proof.
  intros Hwf.
  destruct (edges_register_enumerates prob Hwf) as (_ & Hlook & Hidx & _).
  unfold valid_register. apply andb_true_iff. split.
  - apply forallb_forall. intros e He. apply list_elem_of_In in He.
    change (graph (update_edges_register prob)) with (graph prob) in He.
    destruct (Hidx e He) as (i & -> & Hi). by apply Nat.ltb_lt.
  - apply bool_decide_eq_true. apply NoDup_fmap_2_strong.
    + intros [e1 i1] [e2 i2] H1 H2 Hi. simpl in Hi. subst i2.
      apply elem_of_map_to_list in H1, H2.
      apply Hlook in H1, H2. f_equal. congruence.
    + apply NoDup_map_to_list.
Qed.

(** The register that [update_edges_register] builds serves the graph:
    [get_qubo] finds every index it asks for. *)
Theorem update_edges_register_valid (prob : GraphPathProblem) :
  wf_digraph (graph prob) →
  valid_register (update_edges_register prob) = true.
Proof. apply update_edges_register_serves. Qed.

Lemma update_edges_register_valid_witness :
  wf_digraph (graph (MkProblem fan_graph 0 ∅))
  ∧ valid_register (update_edges_register (MkProblem fan_graph 0 ∅)) = true.
Proof.
  assert (H : wf_digraph (graph (MkProblem fan_graph 0 ∅))).
  { apply (bool_decide_unpack _). vm_compute. exact I. }
  split; [exact H|]. exact (update_edges_register_valid _ H).
Defined.

(** ** The QUBO matrix: shape, symmetry and errors (src/qubo_util.py) *)

Lemma mat_get_outside n Q r c :
  square n Q → ¬ ((r < n)%nat ∧ (c < n)%nat) → mat_get Q r c = None.
Proof.
  intros HQ Hrc. destruct (mat_get Q r c) as [x|] eqn:E; [|done].
  by apply (mat_get_lt n) in E.
Qed.

Lemma symetrize_symmetric n A r c :
  square n A → mat_get (symetrize A) r c = mat_get (symetrize A) c r.
Proof.
  intros HA. pose proof (square_symetrize n A HA) as HS.
  destruct (decide ((r < n)%nat ∧ (c < n)%nat)) as [[Hr Hc] | Hout].
  - destruct (mat_get_square n A r c HA Hr Hc) as [a Ha].
    destruct (mat_get_square n A c r HA Hc Hr) as [b Hb].
    rewrite (mat_get_symetrize n A r c a b HA Ha Hb).
    rewrite (mat_get_symetrize n A c r b a HA Hb Ha).
    f_equal. destruct (decide (r = c)) as [-> | Hne].
    + rewrite !decide_True by done. assert (a = b) by congruence. lia.
    + rewrite !decide_False by congruence. lia.
  - rewrite (mat_get_outside n _ r c HS) by tauto.
    by rewrite (mat_get_outside n _ c r HS) by tauto.
Qed.

(** The four terms of [get_qubo] and their weighted sum, for a register
    that serves the graph. *)
Lemma get_qubo_sum (prob : GraphPathProblem) (delta alpha beta gamma : Z)
    (start finish : option string) :
  valid_register prob = true →
  node_or_none (graph prob) start → node_or_none (graph prob) finish →
  ∃ A, get_qubo prob delta alpha beta gamma start finish = Ok (symetrize A)
       ∧ square (size (edges_register prob)) A.
Proof.
  intros Hvalid Hstart Hfinish.
  set (n := size (edges_register prob)).
  assert (∃ D, get_qubo_main prob = Ok D ∧ square n D) as (D & HD & HsD).
  { rewrite get_qubo_main_edges_iter.
    destruct (reward_loop prob Hvalid (edges_iter (graph prob)) (zeros n)
                (square_zeros n) (edges_iter_edges prob))
      as (D & HD & HsD & _).
    by exists D. }
  destruct (get_qubo_out_square prob Hvalid) as (O & HO & HsO).
  destruct (get_qubo_in_square prob Hvalid) as (I & HI & HsI).
  destruct (get_qubo_flow_square prob Hvalid) as (F & HF & HsF).
  fold n in HsO, HsI, HsF.
  assert (∃ F1, match start with
                | Some s => mat_plus F <$> get_qubo_flow_start prob s
                | None => Ok F
                end = Ok F1 ∧ square n F1) as (F1 & HF1 & HsF1).
  { destruct start as [s|]; [|by exists F].
    destruct (get_qubo_flow_start_square prob Hvalid s Hstart)
      as (S1 & -> & HS1).
    eexists. split; [done|]. by apply square_mat_plus. }
  assert (∃ F2, match finish with
                | Some f => mat_plus F1 <$> get_qubo_flow_finish prob f
                | None => Ok F1
                end = Ok F2 ∧ square n F2) as (F2 & HF2 & HsF2).
  { destruct finish as [f|]; [|by exists F1].
    destruct (get_qubo_flow_finish_square prob Hvalid f Hfinish)
      as (S2 & -> & HS2).
    eexists. split; [done|]. by apply square_mat_plus. }
  unfold get_qubo. rewrite HD, HO, HI, HF. simpl.
  rewrite HF1. simpl. rewrite HF2. simpl.
  eexists. split; [done|].
  repeat apply square_mat_plus; by apply square_mat_scale.
Qed.

Lemma get_qubo_square_symmetric (prob : GraphPathProblem)
    (delta alpha beta gamma : Z) (start finish : option string) :
  valid_register prob = true →
  node_or_none (graph prob) start → node_or_none (graph prob) finish →
  ∃ Q, get_qubo prob delta alpha beta gamma start finish = Ok Q
       ∧ square (size (edges_register prob)) Q
       ∧ ∀ r c, mat_get Q r c = mat_get Q c r.
Proof.
  intros Hvalid Hstart Hfinish.
  destruct (get_qubo_sum prob delta alpha beta gamma start finish
              Hvalid Hstart Hfinish) as (A & HQ & HA).
  exists (symetrize A). split_and!; [done | by apply square_symetrize |].
  intros r c. by eapply symetrize_symmetric.
Qed.

(** On a graph as networkx keeps it, with a register that serves the
    graph, [get_qubo] returns, for four weights and weights of the edges of
    magnitude at most [2^24] (where float64 computes exactly) and for any
    start and finish among the nodes, a square matrix with one row for each
    entry of the register, equal to its transpose. *)
Theorem get_qubo_symmetric (prob : GraphPathProblem)
    (delta alpha beta gamma : Z) (start finish : option string) :
  valid_register prob = true →
  wf_digraph (graph prob) →
  node_or_none (graph prob) start → node_or_none (graph prob) finish →
  small_weight delta → small_weight alpha →
  small_weight beta → small_weight gamma →
  Forall (λ e, small_weight (edge_weight (graph prob) e))
         (edges (graph prob)) →
  ∃ Q, get_qubo prob delta alpha beta gamma start finish = Ok Q
       ∧ square (size (edges_register prob)) Q
       ∧ ∀ r c, mat_get Q r c = mat_get Q c r.
Proof.
  intros Hvalid _ Hstart Hfinish _ _ _ _ _.
  by apply get_qubo_square_symmetric.
Qed.

Lemma get_qubo_symmetric_witness :
  let prob := chain_problem None (Some 3) in
  valid_register prob = true
  ∧ wf_digraph (graph prob)
  ∧ node_or_none (graph prob) (Some "A") ∧ node_or_none (graph prob) None
  ∧ small_weight 10 ∧ small_weight 1 ∧ small_weight 1 ∧ small_weight 5
  ∧ Forall (λ e, small_weight (edge_weight (graph prob) e))
           (edges (graph prob))
  ∧ ∃ Q, get_qubo prob 10 1 1 5 (Some "A") None = Ok Q
         ∧ square (size (edges_register prob)) Q
         ∧ ∀ r c, mat_get Q r c = mat_get Q c r.
Proof.
  intros prob.
  assert (H1 : valid_register prob = true) by (vm_compute; reflexivity).
  assert (Hwf : wf_digraph (graph prob)).
  { apply (bool_decide_unpack _). vm_compute. exact I. }
  assert (H2 : node_or_none (graph prob) (Some "A")).
  { unfold node_or_none. apply (bool_decide_unpack _). vm_compute. exact I. }
  assert (H3 : node_or_none (graph prob) None) by exact I.
  assert (Hd : small_weight 10) by (unfold small_weight; simpl; lia).
  assert (Ha : small_weight 1) by (unfold small_weight; simpl; lia).
  assert (Hg : small_weight 5) by (unfold small_weight; simpl; lia).
  assert (Hw : Forall (λ e, small_weight (edge_weight (graph prob) e))
                      (edges (graph prob))).
  { apply (bool_decide_unpack _). vm_compute. exact I. }
  refine (conj H1 (conj Hwf (conj H2 (conj H3 (conj Hd (conj Ha (conj Ha
           (conj Hg (conj Hw _))))))))).
  exact (get_qubo_symmetric prob 10 1 1 5 (Some "A") None
           H1 Hwf H2 H3 Hd Ha Ha Hg Hw).
Defined.

(** The pipeline of [graph_to_QUBO.py]: once [update_edges_register] has
    run on a graph as networkx keeps it, [get_qubo] does not raise, for four
    weights and weights of the edges of magnitude at most [2^24] (where
    float64 computes exactly), and its matrix is symmetric with one row and
    one column for each edge. *)
Theorem get_qubo_after_update (prob : GraphPathProblem)
    (delta alpha beta gamma : Z) (start finish : option string) :
  wf_digraph (graph prob) →
  node_or_none (graph prob) start → node_or_none (graph prob) finish →
  small_weight delta → small_weight alpha →
  small_weight beta → small_weight gamma →
  Forall (λ e, small_weight (edge_weight (graph prob) e))
         (edges (graph prob)) →
  ∃ Q, get_qubo (update_edges_register prob) delta alpha beta gamma
                start finish = Ok Q
       ∧ square (length (edges (graph prob))) Q
       ∧ ∀ r c, mat_get Q r c = mat_get Q c r.
Proof.
  intros Hwf Hstart Hfinish _ _ _ _ _.
  destruct (get_qubo_square_symmetric (update_edges_register prob)
              delta alpha beta gamma start finish) as (Q & HQ & Hsq & Hsym);
    [by apply update_edges_register_serves | done | done |].
  exists Q. split_and!; [done| |done].
  destruct (edges_register_enumerates prob Hwf) as (_ & _ & _ & Hsize).
  by rewrite <- Hsize.
Qed.

Lemma get_qubo_after_update_witness :
  let prob := MkProblem diamond_graph 0 ∅ in
  wf_digraph (graph prob)
  ∧ node_or_none (graph prob) (Some "A") ∧ node_or_none (graph prob) (Some "D")
  ∧ small_weight 10 ∧ small_weight 1 ∧ small_weight 1 ∧ small_weight 5
  ∧ Forall (λ e, small_weight (edge_weight (graph prob) e))
           (edges (graph prob))
  ∧ ∃ Q, get_qubo (update_edges_register prob) 10 1 1 5
                  (Some "A") (Some "D") = Ok Q
         ∧ square (length (edges (graph prob))) Q
         ∧ ∀ r c, mat_get Q r c = mat_get Q c r.
Proof.
  intros prob.
  assert (H1 : wf_digraph (graph prob)).
  { apply (bool_decide_unpack _). vm_compute. exact I. }
  assert (H2 : node_or_none (graph prob) (Some "A")).
  { unfold node_or_none. apply (bool_decide_unpack _). vm_compute. exact I. }
  assert (H3 : node_or_none (graph prob) (Some "D")).
  { unfold node_or_none. apply (bool_decide_unpack _). vm_compute. exact I. }
  assert (Hd : small_weight 10) by (unfold small_weight; simpl; lia).
  assert (Ha : small_weight 1) by (unfold small_weight; simpl; lia).
  assert (Hg : small_weight 5) by (unfold small_weight; simpl; lia).
  assert (Hw : Forall (λ e, small_weight (edge_weight (graph prob) e))
                      (edges (graph prob))).
  { apply (bool_decide_unpack _). vm_compute. exact I. }
  refine (conj H1 (conj H2 (conj H3 (conj Hd (conj Ha (conj Ha
           (conj Hg (conj Hw _)))))))).
  exact (get_qubo_after_update prob 10 1 1 5 (Some "A") (Some "D")
           H1 H2 H3 Hd Ha Ha Hg Hw).
Defined.

(** A problem as the constructor leaves it has an empty register: as soon
    as the graph has an edge, [get_qubo] raises [KeyError]. *)
Theorem get_qubo_unregistered (prob : GraphPathProblem)
    (delta alpha beta gamma : Z) (start finish : option string) :
  edges_register prob = ∅ → edges_iter (graph prob) ≠ [] →
  get_qubo prob delta alpha beta gamma start finish = Raise KeyError.
Proof.
  intros Hreg Hne. unfold get_qubo. rewrite get_qubo_main_edges_iter.
  destruct (edges_iter (graph prob)) as [|e es]; [done|].
  rewrite for_each_cons. unfold register_index. rewrite Hreg, lookup_empty.
  done.
Qed.

Lemma get_qubo_unregistered_witness :
  let prob := MkProblem diamond_graph 0 ∅ in
  edges_register prob = ∅ ∧ edges_iter (graph prob) ≠ []
  ∧ get_qubo prob 1 1 1 1 None None = Raise KeyError.
Proof.
  intros prob.
  assert (H1 : edges_register prob = ∅) by reflexivity.
  assert (H2 : edges_iter (graph prob) ≠ []) by (vm_compute; discriminate).
  refine (conj H1 (conj H2 _)).
  exact (get_qubo_unregistered prob 1 1 1 1 None None H1 H2).
Defined.

Lemma get_qubo_terms (prob : GraphPathProblem) :
  valid_register prob = true →
  ∃ D O I F, get_qubo_main prob = Ok D ∧ get_qubo_out prob = Ok O
             ∧ get_qubo_in prob = Ok I ∧ get_qubo_flow prob = Ok F.
Proof.
  intros Hvalid.
  destruct (get_qubo_sum prob 0 0 0 0 None None Hvalid I I) as (A & HA & _).
  unfold get_qubo in HA.
  destruct (get_qubo_main prob) as [D|]; [|done].
  destruct (get_qubo_out prob) as [O|]; [|done].
  destruct (get_qubo_in prob) as [In|]; [|done].
  destruct (get_qubo_flow prob) as [F|]; [|done].
  by exists D, O, In, F.
Qed.

(** With weights of the edges that float64 holds exactly (they are
    written into [Q_main] before the start is looked at), a start or finish
    that is not a node of the graph makes [get_qubo] raise [NetworkXError],
    whatever the four weights, which are not used before. *)
Theorem get_qubo_foreign_boundary (prob : GraphPathProblem)
    (delta alpha beta gamma : Z) (start finish : option string) (s : string) :
  valid_register prob = true → s ∉ nodes (graph prob) →
  Forall (λ e, float64_exact (edge_weight (graph prob) e))
         (edges (graph prob)) →
  get_qubo prob delta alpha beta gamma (Some s) finish = Raise NetworkXError
  ∧ (node_or_none (graph prob) start →
     get_qubo prob delta alpha beta gamma start (Some s)
     = Raise NetworkXError).
Proof.
  intros Hvalid Hs _.
  assert (Hnode : has_node (graph prob) s = false).
  { unfold has_node. by apply bool_decide_eq_false. }
  destruct (get_qubo_terms prob Hvalid) as (D & O & In & F & HD & HO & HI & HF).
  unfold get_qubo. rewrite HD, HO, HI, HF. simpl. split.
  - unfold get_qubo_flow_start. by rewrite Hnode.
  - intros Hstart.
    assert (∃ F1, match start with
                  | Some s => mat_plus F <$> get_qubo_flow_start prob s
                  | None => Ok F
                  end = Ok F1) as (F1 & ->).
    { destruct start as [s0|]; [|by exists F].
      destruct (get_qubo_flow_start_square prob Hvalid s0 Hstart)
        as (S1 & -> & _). by eexists. }
    simpl. unfold get_qubo_flow_finish. by rewrite Hnode.
Qed.

Lemma get_qubo_foreign_boundary_witness :
  let prob := chain_problem None None in
  valid_register prob = true ∧ ("Z" ∉ nodes (graph prob))
  ∧ Forall (λ e, float64_exact (edge_weight (graph prob) e))
           (edges (graph prob))
  ∧ get_qubo prob 1 1 1 1 (Some "Z") None = Raise NetworkXError
  ∧ (node_or_none (graph prob) None →
     get_qubo prob 1 1 1 1 None (Some "Z") = Raise NetworkXError).
Proof.
  intros prob.
  assert (H1 : valid_register prob = true) by (vm_compute; reflexivity).
  assert (H2 : "Z" ∉ nodes (graph prob)).
  { apply (bool_decide_unpack _). vm_compute. exact I. }
  assert (H3 : Forall (λ e, float64_exact (edge_weight (graph prob) e))
                      (edges (graph prob))).
  { apply (bool_decide_unpack _). vm_compute. exact I. }
  refine (conj H1 (conj H2 (conj H3 _))).
  exact (get_qubo_foreign_boundary prob 1 1 1 1 None None "Z" H1 H2 H3).
Defined.

(** ** The greedy walk, further (src/reconstruit.py,
    code/graph_path_problem.py) *)

Lemma first_neighbor_loop_simple G fuel visited path cat p :
  first_neighbor_loop fuel G visited path cat = Some p →
  (∀ x, x ∈ visited ↔ x ∈ path) → NoDup path → chain G path →
  last path = Some cat →
  head p = head path ∧ NoDup p ∧ chain G p
  ∧ ∃ final, last p = Some final
             ∧ match successors G final with
               | [] => True
               | a_neighbor :: _ => a_neighbor ∈ p
               end.
Proof.
  revert visited path cat.
  induction fuel as [|fuel IH]; intros visited path cat Hp Hvis Hnd Hch Hlast;
    [done|].
  simpl in Hp. destruct (successors G cat) as [|a succs] eqn:Hs.
  { injection Hp as <-. split_and!; [done..|].
    exists cat. by rewrite Hs. }
  destruct (decide (a ∈ visited)) as [Hin | Hnew].
  { injection Hp as <-. split_and!; [done..|].
    exists cat. rewrite Hs. split; [done | by apply Hvis]. }
  apply IH in Hp as (Hhead & Hnd' & Hch' & Hfinal).
  - split_and!; [|done..]. rewrite Hhead, head_app.
    destruct path; [done|done].
  - intros x. rewrite elem_of_union, elem_of_singleton, elem_of_app,
      list_elem_of_singleton, Hvis. tauto.
  - apply NoDup_app. split_and!; [done| |apply NoDup_singleton].
    intros x Hx Hx'. apply list_elem_of_singleton in Hx'. subst x.
    by apply Hnew, Hvis.
  - apply (chain_snoc G path cat a); [done..|].
    apply elem_of_successors. rewrite Hs. apply list_elem_of_here.
  - apply last_snoc.
Qed.

(** The path of the greedy walk starts at the starting point, names no
    node twice and goes along edges; it stops at a node without successor
    or at a node whose first successor is already on the path. *)
Theorem find_path_always_first_neighbor_simple (G : DiGraph)
    (start : string) (fuel : nat) (path : list string) :
  find_path_always_first_neighbor fuel G start = Some (Ok path) →
  head path = Some start ∧ NoDup path ∧ chain G path
  ∧ ∃ final, last path = Some final
             ∧ match successors G final with
               | [] => True
               | a_neighbor :: _ => a_neighbor ∈ path
               end.
Proof.
  unfold find_path_always_first_neighbor.
  destruct (has_node G start); [|done].
  destruct (first_neighbor_loop fuel G {[start]} [start] start) as [p|] eqn:Hp;
    [|done].
  intros [= <-].
  apply first_neighbor_loop_simple in Hp; [done| | | |done].
  - intros x. by rewrite elem_of_singleton, list_elem_of_singleton.
  - apply NoDup_singleton.
  - intros l1 a b l2 Heq. destruct l1 as [|? [|? ?]]; discriminate.
Qed.

Lemma find_path_always_first_neighbor_simple_witness :
  find_path_always_first_neighbor 4 cycle_graph "A" = Some (Ok ["A"; "B"; "C"])
  ∧ head ["A"; "B"; "C"] = Some "A" ∧ NoDup ["A"; "B"; "C"]
  ∧ chain cycle_graph ["A"; "B"; "C"]
  ∧ ∃ final, last ["A"; "B"; "C"] = Some final
             ∧ match successors cycle_graph final with
               | [] => True
               | a_neighbor :: _ => a_neighbor ∈ ["A"; "B"; "C"]
               end.
Proof.
  assert (H : find_path_always_first_neighbor 4 cycle_graph "A"
              = Some (Ok ["A"; "B"; "C"])) by reflexivity.
  split; [exact H|].
  exact (find_path_always_first_neighbor_simple cycle_graph "A" 4 _ H).
Defined.

(** ** Exhaustive search (src/reconstruit.py, code/graph_path_problem.py) *)

Lemma chain_cons_inv G a b l :
  chain G (a :: b :: l) → (a, b) ∈ edges G ∧ chain G (b :: l).
Proof.
  intros H. split.
  - by apply (H [] a b l).
  - intros l1 x y l2 Heq. apply (H (a :: l1) x y l2). by rewrite Heq.
Qed.

Lemma chain_cons G a b l :
  (a, b) ∈ edges G → chain G (b :: l) → chain G (a :: b :: l).
Proof.
  intros Hab H l1 x y l2 Heq. destruct l1 as [|z l1].
  - by injection Heq as <- <- <-.
  - injection Heq as <- Heq. by apply (H l1 x y l2).
Qed.

Lemma chain_singleton G a : chain G [a].
Proof. intros l1 x y l2 Heq. destruct l1 as [|? [|? ?]]; discriminate. Qed.

Lemma simple_from_singleton G c (V : gset string) :
  c ∉ V → simple_from G c V [c].
Proof.
  intros Hc. split_and!; [done | apply NoDup_singleton
                          | apply chain_singleton |].
  intros x Hx. apply list_elem_of_singleton in Hx. by subst x.
Qed.

(** A simple path from [c] is [c], then a simple path from a successor of
    [c] that keeps off [c] as well. *)
Lemma simple_from_cons G c (V : gset string) nb q :
  c ∉ V → (c, nb) ∈ edges G → simple_from G nb ({[c]} ∪ V) q →
  simple_from G c V (c :: q).
Proof.
  intros Hc Hedge (Hh & Hnd & Hch & Hav).
  destruct q as [|y q]; [done|]. injection Hh as ->.
  split_and!; [done| | |].
  - apply NoDup_cons. split; [|done]. intros Hin.
    apply (Hav c Hin), elem_of_union. left. by apply elem_of_singleton.
  - by apply chain_cons.
  - intros x Hx. apply elem_of_cons in Hx as [-> | Hx]; [done|].
    intros HxV. apply (Hav x Hx), elem_of_union. by right.
Qed.

Lemma simple_from_tail G c (V : gset string) nb q :
  simple_from G c V (c :: nb :: q) →
  (c, nb) ∈ edges G ∧ simple_from G nb ({[c]} ∪ V) (nb :: q).
Proof.
  intros (_ & Hnd & Hch & Hav). apply chain_cons_inv in Hch as [Hedge Hch].
  apply NoDup_cons in Hnd as [Hc Hnd].
  split; [done|]. split_and!; [done..|].
  intros x Hx HxV. apply elem_of_union in HxV as [HxV | HxV].
  - apply elem_of_singleton in HxV. by subst x.
  - apply (Hav x); [by apply list_elem_of_further | done].
Qed.

Lemma union_difference_singleton (V : gset string) c :
  c ∉ V → ({[c]} ∪ V) ∖ {[c]} = V.
Proof.
  intros Hc. apply set_eq. intros x.
  rewrite elem_of_difference, elem_of_union, elem_of_singleton. split.
  - tauto.
  - intros Hx. split; [by right|]. by intros ->.
Qed.

Section dfs.
Variable G : DiGraph.
Hypothesis Hwf : wf_digraph G.

Let universe : gset string := list_to_set (nodes G).

Lemma dfs_returns fuel current st :
  current ∈ nodes G → current ∉ dfs_visited st →
  (size (universe ∖ dfs_visited st) < fuel)%nat →
  ∃ L, dfs fuel G current st = Some (MkDfs L (dfs_path st) (dfs_visited st))
       ∧ dfs_result G current st L.
Proof.
  revert current st.
  induction fuel as [|fuel IH]; intros current [L0 P V] Hnode Hnew Hfuel;
    [lia|].
  simpl in *.
  set (P' := P ++ [current]). set (V' := {[current]} ∪ V).
  assert (HcU : current ∈ universe) by by apply elem_of_list_to_set.
  assert (Hfuel' : (size (universe ∖ V') < fuel)%nat).
  { pose proof (subset_size _ _
                  (difference_add_subset universe V current HcU Hnew)).
    unfold V'. lia. }
  (* the loop over the successors *)
  assert (Hloop : ∀ succs L1 ext,
    (∀ nb, nb ∈ succs → nb ∈ successors G current) →
    ∃ L2 ext',
      for_each_fuel succs
        (λ neighbor '(st, extended),
           if decide (neighbor ∈ dfs_visited st) then Some (st, extended)
           else st' ← dfs fuel G neighbor st; Some (st', true))
        (MkDfs L1 P' V', ext) = Some (MkDfs L2 P' V', ext')
      ∧ (length L1 ≤ length L2)%nat
      ∧ (ext' = true ↔ ext = true ∨ ∃ nb, nb ∈ succs ∧ nb ∉ V')
      ∧ (∀ nb q, nb ∈ succs → simple_from G nb V' q →
                 (length P' + length q ≤ length L2)%nat)
      ∧ (L2 = L1 ∨ ∃ nb q, nb ∈ succs ∧ simple_from G nb V' q
                           ∧ L2 = P' ++ q)).
  { induction succs as [|nb succs IHs]; intros L1 ext Hsuccs.
    { exists L1, ext. split_and!; [done..| | |by left].
      - split; [by left|]. intros [? | (nb & Hnb & _)]; [done|].
        by apply elem_of_nil in Hnb.
      - intros nb q Hnb. by apply elem_of_nil in Hnb. }
    assert (Hrest : ∀ nb0, nb0 ∈ succs → nb0 ∈ successors G current).
    { intros nb0 H0. by apply Hsuccs, list_elem_of_further. }
    simpl. destruct (decide (nb ∈ V')) as [Hin | Hout].
    - destruct (IHs L1 ext Hrest) as (L2 & ext' & Hrun & Hlen & Hext & Hb & Hc).
      exists L2, ext'. split_and!; [done..| | |].
      + rewrite Hext. split.
        * intros [? | (nb0 & H0 & H0')]; [by left|]. right. exists nb0.
          split; [by apply list_elem_of_further | done].
        * intros [? | (nb0 & H0 & H0')]; [by left|]. right.
          apply elem_of_cons in H0 as [-> | H0]; [done|]. by exists nb0.
      + intros nb0 q H0 Hq. apply elem_of_cons in H0 as [-> | H0].
        * exfalso. destruct Hq as (Hh & _ & _ & Hav).
          apply (Hav nb); [|done]. destruct q; [done|].
          injection Hh as ->. apply list_elem_of_here.
        * by apply (Hb nb0).
      + destruct Hc as [-> | (nb0 & q & H0 & Hq & ->)]; [by left|].
        right. exists nb0, q. split; [by apply list_elem_of_further | done].
    - destruct (IH nb (MkDfs L1 P' V')) as (La & Hrun & Hlen & Hb & Hc);
        [|done|done|].
      { apply (successor_is_node G current); [done|].
        apply Hsuccs, list_elem_of_here. }
      simpl in *. rewrite Hrun. simpl.
      destruct (IHs La true Hrest)
        as (L2 & ext' & Hrun2 & Hlen2 & Hext2 & Hb2 & Hc2).
      exists L2, ext'. split_and!; [done | lia | | |].
      + split; [|by intros; apply Hext2; left].
        intros _. right. exists nb. split; [apply list_elem_of_here | done].
      + intros nb0 q H0 Hq. apply elem_of_cons in H0 as [-> | H0].
        * specialize (Hb q Hq). lia.
        * by apply (Hb2 nb0).
      + destruct Hc2 as [-> | (nb0 & q & H0 & Hq & ->)].
        * destruct Hc as [-> | (q & Hq & ->)]; [by left|].
          right. exists nb, q. split; [apply list_elem_of_here | done].
        * right. exists nb0, q.
          split; [by apply list_elem_of_further | done]. }
  destruct (Hloop (successors G current) L0 false (λ nb H, H))
    as (L2 & ext' & Hrun & Hlen & Hext & Hb & Hc).
  rewrite Hrun. simpl.
  set (L3 := if negb ext' && (length L2 <? length P')%nat then P' else L2).
  exists L3. split.
  { unfold L3, P', V'.
    destruct (negb ext' && (length L2 <? length (P ++ [current]))%nat); simpl;
      by rewrite removelast_last, union_difference_singleton. }
  assert (HL3 : (length L2 ≤ length L3)%nat).
  { unfold L3. destruct (negb ext'); simpl; [|done].
    destruct (Nat.ltb_spec (length L2) (length P')); lia. }
  assert (HP' : length P' = S (length P)).
  { unfold P'. rewrite length_app. simpl. lia. }
  unfold dfs_result. simpl. split_and!.
  - lia.
  - intros q Hq. pose proof Hq as (Hh & _).
    destruct q as [|c [|nb q]]; [done| |]; injection Hh as ->.
    + simpl. destruct ext' eqn:E.
      * destruct Hext as [Hext _]. destruct (Hext eq_refl) as [? | (nb & Hnb & Hout)];
          [done|].
        specialize (Hb nb [nb] Hnb (simple_from_singleton G nb V' Hout)).
        simpl in Hb. lia.
      * unfold L3. simpl.
        destruct (Nat.ltb_spec (length L2) (length P')); lia.
    + apply simple_from_tail in Hq as [Hedge Hq].
      apply elem_of_successors in Hedge.
      specialize (Hb nb (nb :: q) Hedge Hq). simpl in *. lia.
  - unfold L3. destruct (negb ext' && (length L2 <? length P')%nat).
    + right. exists [current]. split; [by apply simple_from_singleton | done].
    + destruct Hc as [-> | (nb & q & Hnb & Hq & ->)]; [by left|].
      right. exists (current :: q). split.
      * apply (simple_from_cons G current V nb q); [done| |done].
        by apply elem_of_successors.
      * unfold P'. by rewrite <- app_assoc.
Qed.
End dfs.

(** On a graph as networkx keeps it and from one of its nodes, the search
    ends (the recursion is never deeper than the number of nodes) and
    returns a path that starts at the starting point, names no node twice
    and goes along edges; no path with these three properties is longer. *)
Theorem find_longest_path_dfs_longest (G : DiGraph) (start : string)
    (fuel : nat) :
  wf_digraph G → start ∈ nodes G → (length (nodes G) < fuel)%nat →
  ∃ p, find_longest_path_dfs fuel G start = Some (Ok p)
       ∧ head p = Some start ∧ NoDup p ∧ chain G p
       ∧ ∀ q, head q = Some start → NoDup q → chain G q →
              (length q ≤ length p)%nat.
Proof.
  intros Hwf Hstart Hfuel. unfold find_longest_path_dfs, has_node.
  rewrite bool_decide_eq_true_2 by done.
  destruct (dfs_returns G Hwf fuel start (MkDfs [] [] ∅))
    as (L & -> & _ & Hb & Hc); [done | apply not_elem_of_empty | |].
  { simpl. rewrite difference_empty_L, size_list_to_set;
      [done | by destruct Hwf]. }
  simpl in *. exists L. split; [done|].
  assert (Hall : ∀ q, head q = Some start → NoDup q → chain G q →
                      (length q ≤ length L)%nat).
  { intros q Hh Hnd Hch. apply (Hb q). split_and!; [done..|].
    intros x _. apply not_elem_of_empty. }
  destruct Hc as [-> | (q & (Hh & Hnd & Hch & _) & ->)].
  - specialize (Hall [start] eq_refl (NoDup_singleton _)
                  (chain_singleton G start)). simpl in Hall. lia.
  - done.
Qed.

Lemma find_longest_path_dfs_longest_witness :
  wf_digraph diamond_graph ∧ "A" ∈ nodes diamond_graph
  ∧ (length (nodes diamond_graph) < 5)%nat
  ∧ ∃ p, find_longest_path_dfs 5 diamond_graph "A" = Some (Ok p)
         ∧ head p = Some "A" ∧ NoDup p ∧ chain diamond_graph p
         ∧ ∀ q, head q = Some "A" → NoDup q → chain diamond_graph q →
                (length q ≤ length p)%nat.
Proof.
  assert (H1 : wf_digraph diamond_graph).
  { apply (bool_decide_unpack _). vm_compute. exact I. }
  assert (H2 : "A" ∈ nodes diamond_graph).
  { apply (bool_decide_unpack _). vm_compute. exact I. }
  assert (H3 : (length (nodes diamond_graph) < 5)%nat) by (vm_compute; lia).
  refine (conj H1 (conj H2 (conj H3 _))).
  exact (find_longest_path_dfs_longest diamond_graph "A" 5 H1 H2 H3).
Defined.

(** ** Strand expansion (src/utility.py) *)

Lemma filter_all {A : Type} (P : A → Prop) `{∀ x, Decision (P x)} (l : list A) :
  Forall P l → filter P l = l.
Proof.
  induction 1 as [|x l Hx _ IH]; [done|].
  by rewrite filter_cons_True, IH.
Qed.

Lemma filter_ext_in {A : Type} (P1 P2 : A → Prop)
    `{∀ x, Decision (P1 x), ∀ x, Decision (P2 x)} (l : list A) :
  (∀ x, x ∈ l → P1 x ↔ P2 x) → filter P1 l = filter P2 l.
Proof.
  induction l as [|x l IH]; intros Hl; [done|].
  assert (Hx : P1 x ↔ P2 x) by apply Hl, list_elem_of_here.
  assert (Hrest : filter P1 l = filter P2 l).
  { apply IH. intros y Hy. by apply Hl, list_elem_of_further. }
  destruct (decide (P1 x)) as [H1 | H1].
  - rewrite !filter_cons_True by tauto. by rewrite Hrest.
  - rewrite !filter_cons_False by tauto. done.
Qed.

Lemma for_each_keeps {A S : Type} (P : S → Prop) (l : list A)
    (body : A → S → result S) (s s' : S) :
  (∀ x t t', body x t = Ok t' → P t → P t') →
  P s → for_each l body s = Ok s' → P s'.
Proof.
  intros Hbody. revert s. induction l as [|x l IH]; intros s Hs Hrun.
  - simpl in Hrun. by injection Hrun as <-.
  - rewrite for_each_cons in Hrun.
    destruct (body x s) as [t|] eqn:E; [|done]. simpl in Hrun.
    apply (IH t); [by eapply Hbody | done].
Qed.

Lemma edges_add_node G n : edges (add_node G n) = edges G.
Proof. unfold add_node. by destruct (has_node G n). Qed.

Lemma elem_of_edges_add_edge G u v e :
  e ∈ edges (add_edge G u v) ↔ e ∈ edges G ∨ e = (u, v).
Proof.
  unfold add_edge. case_bool_decide as Hin; simpl in *;
    rewrite ?edges_add_node in *.
  - split; [by left | intros [? | ->]; done].
  - rewrite elem_of_app, list_elem_of_singleton. done.
Qed.

Lemma edges_foldl_add_node G ns : edges (foldl add_node G ns) = edges G.
Proof.
  revert G. induction ns as [|n ns IH]; intros G; simpl; [done|].
  by rewrite IH, edges_add_node.
Qed.

Lemma elem_of_first_occurrences seen l x :
  x ∈ first_occurrences seen l ↔ x ∈ l ∧ x ∉ seen.
Proof.
  revert seen. induction l as [|y l IH]; intros seen; simpl.
  { rewrite elem_of_nil. tauto. }
  destruct (decide (y ∈ seen)) as [Hy | Hy].
  - rewrite IH, elem_of_cons. split; [tauto|].
    intros [[-> | ?] ?]; tauto.
  - rewrite !elem_of_cons, IH, elem_of_app, list_elem_of_singleton.
    destruct (decide (x = y)) as [-> | Hne]; tauto.
Qed.

(** [G.edges(data=True)] lists the stored edges that start at a node. *)
Lemma elem_of_m_edges_iter G e :
  e ∈ m_edges_iter G ↔ e ∈ m_edges G ∧ e_src e ∈ m_nodes G.
Proof.
  unfold m_edges_iter, m_successors, edges_between.
  rewrite list_elem_of_bind. split.
  - intros (u & He & Hu). apply list_elem_of_bind in He as (v & He & _).
    apply list_elem_of_filter in He as [[<- _] He]. done.
  - intros [He Hsrc]. exists (e_src e). split; [|done].
    apply list_elem_of_bind. exists (e_dst e). split.
    + by apply list_elem_of_filter.
    + apply elem_of_first_occurrences. split; [|apply not_elem_of_nil].
      apply list_elem_of_fmap. exists e. split; [done|].
      by apply list_elem_of_filter.
Qed.

Lemma orient_edges DG es e :
  e ∈ edges
        (foldl (λ DG e,
                  if negb (is_sign (sign_begin e)) || negb (is_sign (sign_end e))
                  then DG
                  else add_edge DG (orient (e_src e) (sign_begin e))
                                   (orient (e_dst e) (sign_end e)))
               DG es)
  ↔ e ∈ edges DG
    ∨ ∃ me, me ∈ es ∧ is_sign (sign_begin me) = true
            ∧ is_sign (sign_end me) = true
            ∧ e = (orient (e_src me) (sign_begin me),
                   orient (e_dst me) (sign_end me)).
Proof.
  revert DG. induction es as [|me es IH]; intros DG; simpl.
  { split; [by left | intros [? | (? & H & _)]; [done|]].
    by apply elem_of_nil in H. }
  rewrite IH. clear IH.
  destruct (is_sign (sign_begin me)) eqn:E1, (is_sign (sign_end me)) eqn:E2;
    simpl; rewrite ?elem_of_edges_add_edge.
  - split.
    + intros [[? | ->] | (m & Hm & ?)]; [by left | right | right].
      * exists me. split_and!; [apply list_elem_of_here | done..].
      * exists m. split; [by apply list_elem_of_further | done].
    + intros [? | (m & Hm & H1 & H2 & ->)]; [by left; left|].
      apply elem_of_cons in Hm as [-> | Hm]; [by left; right|].
      right. by exists m.
  - split.
    + intros [? | (m & Hm & ?)]; [by left|]. right. exists m.
      split; [by apply list_elem_of_further | done].
    + intros [? | (m & Hm & H1 & H2 & ->)]; [by left|].
      apply elem_of_cons in Hm as [-> | Hm]; [congruence|]. right. by exists m.
  - split.
    + intros [? | (m & Hm & ?)]; [by left|]. right. exists m.
      split; [by apply list_elem_of_further | done].
    + intros [? | (m & Hm & H1 & H2 & ->)]; [by left|].
      apply elem_of_cons in Hm as [-> | Hm]; [congruence|]. right. by exists m.
  - split.
    + intros [? | (m & Hm & ?)]; [by left|]. right. exists m.
      split; [by apply list_elem_of_further | done].
    + intros [? | (m & Hm & H1 & H2 & ->)]; [by left|].
      apply elem_of_cons in Hm as [-> | Hm]; [congruence|]. right. by exists m.
Qed.

(** An end point of an edge is not isolated. *)
Lemma edge_not_isolated G u v :
  (u, v) ∈ edges G → ¬ isolated G u ∧ ¬ isolated G v.
Proof.
  intros He. unfold isolated, in_degree, out_degree. split.
  - apply elem_of_successors in He.
    destruct (successors G u); [by apply elem_of_nil in He | simpl; lia].
  - apply elem_of_predecessors in He.
    destruct (predecessors G v); [by apply elem_of_nil in He | simpl; lia].
Qed.

(** [remove_isolated_nodes] removes no edge, and the nodes it keeps are
    those with an edge. *)
Lemma remove_isolated_nodes_spec G :
  edges (remove_isolated_nodes G) = edges G
  ∧ nodes (remove_isolated_nodes G) = filter (λ n, ¬ isolated G n) (nodes G).
Proof.
  unfold remove_isolated_nodes, remove_nodes_from. simpl. split.
  - apply filter_all, Forall_forall. intros [u v] He.
    destruct (edge_not_isolated G u v He) as [Hu Hv]. simpl.
    rewrite !list_elem_of_filter. tauto.
  - apply filter_ext_in. intros n Hn. rewrite list_elem_of_filter. tauto.
Qed.

Lemma add_node_wf G n : wf_digraph G → wf_digraph (add_node G n).
Proof.
  intros (Hn & He & Hin). unfold add_node, has_node.
  case_bool_decide as Hmem; [done|]. split_and!; simpl; [|done|].
  - apply NoDup_app. split_and!; [done| |apply NoDup_singleton].
    intros x Hx Hx'. apply list_elem_of_singleton in Hx'. by subst x.
  - eapply Forall_impl; [exact Hin|]. intros e [H1 H2].
    rewrite !elem_of_app. tauto.
Qed.

Lemma add_edge_wf G u v : wf_digraph G → wf_digraph (add_edge G u v).
Proof.
  intros Hwf. unfold add_edge.
  pose proof (add_node_wf _ v (add_node_wf G u Hwf)) as (Hn & He & Hin).
  assert (Hu : u ∈ nodes (add_node (add_node G u) v)).
  { rewrite !elem_of_nodes_add_node. tauto. }
  assert (Hv : v ∈ nodes (add_node (add_node G u) v)).
  { rewrite !elem_of_nodes_add_node. tauto. }
  case_bool_decide as Hmem; [done|]. split_and!; simpl; [done| |].
  - apply NoDup_app. split_and!; [done| |apply NoDup_singleton].
    intros x Hx Hx'. apply list_elem_of_singleton in Hx'. by subst x.
  - apply Forall_app. split; [done|]. by apply Forall_singleton.
Qed.

Lemma remove_nodes_from_wf G l :
  wf_digraph G → wf_digraph (remove_nodes_from G l).
Proof.
  intros (Hn & He & Hin). unfold remove_nodes_from. split_and!; simpl.
  - by apply NoDup_filter.
  - by apply NoDup_filter.
  - apply Forall_forall. intros e He'.
    apply list_elem_of_filter in He' as [[H1 H2] He'].
    rewrite Forall_forall in Hin. destruct (Hin e He').
    rewrite !list_elem_of_filter. tauto.
Qed.

Lemma wf_empty_digraph : wf_digraph empty_digraph.
Proof. split_and!; simpl; [apply NoDup_nil_2 .. | apply Forall_nil_2]. Qed.

Lemma foldl_add_node_wf G ns : wf_digraph G → wf_digraph (foldl add_node G ns).
Proof.
  revert G. induction ns as [|n ns IH]; intros G H; simpl; [done|].
  by apply IH, add_node_wf.
Qed.

Lemma isolated_same_edges G G' n :
  edges G' = edges G → isolated G' n ↔ isolated G n.
Proof.
  intros H. unfold isolated, in_degree, out_degree, predecessors, successors.
  by rewrite H.
Qed.

Lemma orient_edges_wf DG es :
  wf_digraph DG →
  wf_digraph
    (foldl (λ DG e,
              if negb (is_sign (sign_begin e)) || negb (is_sign (sign_end e))
              then DG
              else add_edge DG (orient (e_src e) (sign_begin e))
                               (orient (e_dst e) (sign_end e)))
           DG es).
Proof.
  revert DG. induction es as [|me es IH]; intros DG Hwf; simpl; [done|].
  apply IH.
  destruct (negb (is_sign (sign_begin me)) || negb (is_sign (sign_end me)));
    [done | by apply add_edge_wf].
Qed.

(** The shape of a successful conversion: the graph before the removal of
    the isolated nodes has an edge for each stored link with two signs. *)
Lemma convert_de_bruijn_to_digraph_inv G val title DG titles :
  convert_de_bruijn_to_digraph G val title = Ok (DG, titles) →
  ∃ DG0, wf_digraph DG0
         ∧ DG = remove_isolated_nodes DG0
         ∧ ∀ e, e ∈ edges DG0
                ↔ ∃ me, me ∈ m_edges_iter G
                        ∧ is_sign (sign_begin me) = true
                        ∧ is_sign (sign_end me) = true
                        ∧ e = (orient (e_src me) (sign_begin me),
                               orient (e_dst me) (sign_end me)).
Proof.
  unfold convert_de_bruijn_to_digraph.
  destruct (for_each (m_nodes G) _ _) as [[DG1 t1]|] eqn:Hloop; [|done].
  simpl. intros [= <- <-].
  assert (H1 : wf_digraph (DG1, t1).1 ∧ edges (DG1, t1).1 = []).
  { apply (for_each_keeps (λ s, wf_digraph s.1 ∧ edges s.1 = [])
             _ _ _ _) in Hloop; [done| |].
    - intros node [D t] [D' t'] Hbody [Hwf Hed]. simpl in *.
      destruct (reverse_complement _); [|done]. simpl in Hbody.
      injection Hbody as <- <-. split; [by apply add_node_wf|].
      by rewrite edges_add_node.
    - simpl. split; [apply foldl_add_node_wf, wf_empty_digraph|].
      by rewrite edges_foldl_add_node. }
  simpl in H1. destruct H1 as [Hwf1 Hed1].
  eexists. split_and!; [|reflexivity|].
  - by apply orient_edges_wf.
  - intros e. rewrite orient_edges, Hed1, elem_of_nil. tauto.
Qed.

Lemma strand_orient u sign x :
  strand u sign x ↔ is_sign sign = true ∧ x = orient u sign.
Proof.
  split.
  - intros [v|v]; by split.
  - intros [Hs ->]. unfold is_sign in Hs. apply orb_true_iff in Hs.
    destruct Hs as [Hs|Hs]; apply bool_decide_eq_true in Hs; subst sign.
    + apply strand_forward.
    + apply strand_reverse.
Qed.

(** A successful conversion gives a graph as networkx keeps it, without
    isolated node, whose edges are exactly the stored links with two signs,
    each taken from the strand of its source to the strand of its target:
    the node itself for the sign ["+"], ["c"] followed by the node for the
    sign ["-"]. *)
Theorem convert_de_bruijn_to_digraph_edges (G : MultiDiGraph)
    (val title : gmap string string) (DG : DiGraph)
    (titles : gmap string string) :
  wf_multigraph G →
  convert_de_bruijn_to_digraph G val title = Ok (DG, titles) →
  wf_digraph DG
  ∧ (∀ n, n ∈ nodes DG → ¬ isolated DG n)
  ∧ ∀ x y, (x, y) ∈ edges DG
           ↔ ∃ u v sb se, stored G u v sb se
                          ∧ strand u sb x ∧ strand v se y.
Proof.
  intros [_ Hends] Hconv.
  destruct (convert_de_bruijn_to_digraph_inv _ _ _ _ _ Hconv)
    as (DG0 & Hwf0 & -> & Hedges).
  destruct (remove_isolated_nodes_spec DG0) as [Hsame Hnodes].
  split_and!.
  - by apply remove_nodes_from_wf.
  - intros n Hn. rewrite Hnodes in Hn.
    apply list_elem_of_filter in Hn as [Hn _].
    by rewrite (isolated_same_edges DG0 _ n Hsame).
  - intros x y. rewrite Hsame, Hedges. split.
    + intros (me & Hme & H1 & H2 & [= -> ->]).
      apply elem_of_m_edges_iter in Hme as [Hme _].
      exists (e_src me), (e_dst me), (sign_begin me), (sign_end me).
      split_and!; [by exists me | by apply strand_orient..].
    + intros (u & v & sb & se & (me & Hme & <- & <- & <- & <-) & Hx & Hy).
      apply strand_orient in Hx as [H1 ->], Hy as [H2 ->].
      exists me. split_and!; try done.
      apply elem_of_m_edges_iter. split; [done|].
      rewrite Forall_forall in Hends. by destruct (Hends me Hme).
Qed.

Lemma convert_de_bruijn_to_digraph_edges_witness :
  let G := build [InsertLinks "S1" ["L:+:S2:+"; "L:-:S3:+"]] in
  let title : gmap string string :=
    <["S1" := "AAAGT"]> (<["S2" := "AGTTC"]> ∅) in
  wf_multigraph G
  ∧ ∃ DG titles,
      convert_de_bruijn_to_digraph G ∅ title = Ok (DG, titles)
      ∧ wf_digraph DG
      ∧ (∀ n, n ∈ nodes DG → ¬ isolated DG n)
      ∧ ∀ x y, (x, y) ∈ edges DG
               ↔ ∃ u v sb se, stored G u v sb se
                              ∧ strand u sb x ∧ strand v se y.
Proof.
  intros G title.
  assert (H1 : wf_multigraph G).
  { apply (build_invariant (λ G, wf_multigraph G ∧ signed G)).
    - intros G0 v1 v2 s1 s2. apply add_de_bruijn_edge_wf.
    - split; [split; [apply NoDup_nil_2 | apply Forall_nil_2]
             | apply Forall_nil_2]. }
  split; [exact H1|].
  destruct (convert_de_bruijn_to_digraph G ∅ title)
    as [[DG titles]|] eqn:E.
  - exists DG, titles. split; [reflexivity|].
    exact (convert_de_bruijn_to_digraph_edges G ∅ title DG titles H1 E).
  - exfalso.
    assert (Hb : match convert_de_bruijn_to_digraph G ∅ title with
                 | Ok _ => true
                 | Raise _ => false
                 end = true) by (vm_compute; reflexivity).
    rewrite E in Hb. discriminate.
Defined.

Lemma stored_signed G u v sb se :
  signed G → stored G u v sb se → is_sign sb = true ∧ is_sign se = true.
Proof.
  intros Hsg (e & He & _ & _ & <- & <-). unfold signed in Hsg.
  rewrite Forall_forall in Hsg. by apply Hsg.
Qed.

(** The two strands: after any sequence of insertions, a successful
    conversion has, for every stored link from [u] to [v], the edge between
    the strands the signs name and the edge between the opposite strands in
    the opposite direction. *)
Theorem convert_de_bruijn_to_digraph_strands (ops : list insertion)
    (val title : gmap string string) (DG : DiGraph)
    (titles : gmap string string) (u v sb se : string) :
  convert_de_bruijn_to_digraph (build ops) val title = Ok (DG, titles) →
  stored (build ops) u v sb se →
  ∃ rb re, reverse_sign sb = Ok rb ∧ reverse_sign se = Ok re
           ∧ (orient u sb, orient v se) ∈ edges DG
           ∧ (orient v re, orient u rb) ∈ edges DG.
Proof.
  intros Hconv Hst.
  assert (Hwf : wf_multigraph (build ops) ∧ signed (build ops)).
  { apply (build_invariant (λ G, wf_multigraph G ∧ signed G)).
    - intros G0 v1 v2 s1 s2. apply add_de_bruijn_edge_wf.
    - split; [split; [apply NoDup_nil_2 | apply Forall_nil_2]
             | apply Forall_nil_2]. }
  destruct Hwf as [[_ Hends] Hsg].
  pose proof (build_invariant symmetric add_de_bruijn_edge_symmetric ops
                symmetric_empty) as Hsym.
  destruct (Hsym u v sb se Hst) as (rb & re & Hrb & Hre & Hmir).
  destruct (convert_de_bruijn_to_digraph_inv _ _ _ _ _ Hconv)
    as (DG0 & Hwf0 & -> & Hedges).
  destruct (remove_isolated_nodes_spec DG0) as [Hsame _].
  assert (Hedge : ∀ a b s1 s2, stored (build ops) a b s1 s2 →
                               (orient a s1, orient b s2) ∈ edges DG0).
  { intros a b s1 s2 Hab.
    destruct (stored_signed _ _ _ _ _ Hsg Hab) as [H1 H2].
    destruct Hab as (me & Hme & <- & <- & <- & <-).
    apply Hedges. exists me. split_and!; try done.
    apply elem_of_m_edges_iter. split; [done|].
    rewrite Forall_forall in Hends. by destruct (Hends me Hme). }
  exists rb, re. rewrite Hsame. split_and!; [done..| |]; by apply Hedge.
Qed.

Lemma convert_de_bruijn_to_digraph_strands_witness :
  let ops := [InsertLinks "S1" ["L:+:S2:-"]] in
  ∃ DG titles,
    convert_de_bruijn_to_digraph (build ops) ∅ ∅ = Ok (DG, titles)
    ∧ stored (build ops) "S1" "S2" "+" "-"
    ∧ ∃ rb re, reverse_sign "+" = Ok rb ∧ reverse_sign "-" = Ok re
               ∧ (orient "S1" "+", orient "S2" "-") ∈ edges DG
               ∧ (orient "S2" re, orient "S1" rb) ∈ edges DG.
Proof.
  intros ops.
  assert (H : stored (build ops) "S1" "S2" "+" "-").
  { eexists (MEdge "S1" "S2" 0 "+" "-" "+>-"). split; [|done].
    vm_compute. left. }
  destruct (convert_de_bruijn_to_digraph (build ops) ∅ ∅)
    as [[DG titles]|] eqn:E.
  - exists DG, titles. split; [reflexivity|]. split; [exact H|].
    exact (convert_de_bruijn_to_digraph_strands ops ∅ ∅ DG titles
             "S1" "S2" "+" "-" E H).
  - exfalso.
    assert (Hb : match convert_de_bruijn_to_digraph (build ops) ∅ ∅ with
                  | Ok _ => true | Raise _ => false end = true) by (vm_compute; reflexivity).
    rewrite E in Hb. discriminate.
Defined.

(** *** The sequences of the strands *)

Lemma reverse_complement_foreign seq :
  Exists foreign (chars (py_strip seq)) →
  reverse_complement seq = Raise ValueError.
Proof.
  intros H. unfold reverse_complement, py_upper. rewrite chars_str.
  rewrite complement_all_foreign; [done|].
  apply Exists_exists in H as (c & Hc & Hf).
  apply Exists_exists. exists (py_upper_char c). split; [|exact Hf].
  apply elem_of_reverse, list_elem_of_fmap. by exists c.
Qed.

Lemma reverse_complement_clean seq :
  ¬ Exists foreign (chars (py_strip seq)) →
  ∃ rc, reverse_complement seq = Ok rc.
Proof.
  intros H. unfold reverse_complement, py_upper. rewrite chars_str.
  rewrite complement_all_bases; [by eexists|].
  apply Forall_reverse, Forall_fmap. apply Forall_forall. intros c Hc.
  destruct (decide (py_upper_char c ∈ bases)) as [|Hn]; [done|].
  exfalso. apply H. apply Exists_exists. by exists c.
Qed.

Section complement_nodes.
Context {A : Type} (key : A → string) (f : A → result string).
Context (body : A → DiGraph * gmap string string
                → result (DiGraph * gmap string string)).
Hypothesis body_spec : ∀ x s,
  body x s = (rc ← f x; Ok (add_node s.1 (key x), <[key x := rc]> s.2)).

Lemma complement_nodes_ok l s :
  Forall (λ x, ∃ rc, f x = Ok rc) l → ∃ s', for_each l body s = Ok s'.
Proof.
  intros Hl. revert s. induction Hl as [|x l [rc Hx] _ IH]; intros s.
  - by exists s.
  - rewrite for_each_cons, body_spec, Hx. simpl. apply IH.
Qed.

Lemma complement_nodes_raise l s e :
  Exists (λ x, f x = Raise e) l →
  Forall (λ x, ∀ e', f x = Raise e' → e' = e) l →
  for_each l body s = Raise e.
Proof.
  intros Hex. revert s.
  induction Hex as [x l Hx | x l _ IH]; intros s Hall;
    rewrite for_each_cons, body_spec.
  - by rewrite Hx.
  - apply Forall_cons in Hall as [Hx Hall].
    destruct (f x) as [rc|e'] eqn:E; simpl.
    + by apply IH.
    + by rewrite (Hx e').
Qed.

Lemma complement_nodes_other l s s' k :
  for_each l body s = Ok s' → (∀ m, m ∈ l → key m ≠ k) →
  s'.2 !! k = s.2 !! k.
Proof.
  revert s. induction l as [|x l IH]; intros s Hrun Hk.
  - simpl in Hrun. by injection Hrun as <-.
  - rewrite for_each_cons, body_spec in Hrun.
    destruct (f x) as [rc|] eqn:E; [|done]. simpl in Hrun.
    rewrite (IH _ Hrun); simpl.
    + apply lookup_insert_ne, Hk, list_elem_of_here.
    + intros m Hm. apply Hk. by apply list_elem_of_further.
Qed.

Lemma complement_nodes_set l s s' n :
  for_each l body s = Ok s' → n ∈ l →
  (∀ m, m ∈ l → key m = key n → m = n) →
  ∃ rc, f n = Ok rc ∧ s'.2 !! key n = Some rc.
Proof.
  revert s. induction l as [|x l IH]; intros s Hrun Hn Hinj.
  - by apply elem_of_nil in Hn.
  - rewrite for_each_cons, body_spec in Hrun.
    destruct (f x) as [rc|] eqn:E; [|done]. simpl in Hrun.
    destruct (decide (Exists (λ m, key m = key n) l)) as [Hl|Hl].
    + apply Exists_exists in Hl as (m & Hm & Hkey).
      apply (IH _ Hrun).
      * rewrite <- (Hinj m); [done| by apply list_elem_of_further | done].
      * intros m' Hm'. apply Hinj. by apply list_elem_of_further.
    + assert (x = n) as ->.
      { apply elem_of_cons in Hn as [->|Hn]; [done|].
        exfalso. apply Hl, Exists_exists. by exists n. }
      exists rc. split; [done|].
      rewrite (complement_nodes_other l _ s' (key n) Hrun); simpl.
      * apply lookup_insert_eq.
      * intros m Hm Hkey. apply Hl, Exists_exists. by exists m.
Qed.

End complement_nodes.

(** [convert_de_bruijn_to_digraph] raises exactly when the sequence of some
    node, stripped, holds a character outside A, C, G, T (whatever the
    case), and then it is a [ValueError]; a node without sequence counts as
    the empty sequence. *)
Theorem convert_de_bruijn_to_digraph_outcome (G : MultiDiGraph)
    (val title : gmap string string) :
  if decide (Exists (λ node, Exists foreign
                       (chars (py_strip (default "" (title !! node)))))
                    (m_nodes G))
  then convert_de_bruijn_to_digraph G val title = Raise ValueError
  else ∃ DG titles, convert_de_bruijn_to_digraph G val title = Ok (DG, titles).
Proof.
  unfold convert_de_bruijn_to_digraph.
  set (body := λ (node : string) (s : DiGraph * gmap string string), _).
  assert (Hbody : ∀ x s,
    body x s = (rc ← reverse_complement (default "" (title !! x));
                Ok (add_node s.1 ("c" +:+ default x (val !! x)),
                    <["c" +:+ default x (val !! x) := rc]> s.2)))
    by (by intros x [D t]).
  case_decide as H.
  - rewrite (complement_nodes_raise _ _ body Hbody _ _ ValueError); [done| |].
    + eapply Exists_impl; [exact H|]. intros x Hx. simpl in Hx.
      by apply reverse_complement_foreign.
    + apply Forall_forall. intros x _ e' He'.
      destruct (decide (Exists foreign
                  (chars (py_strip (default "" (title !! x)))))) as [Hf|Hf].
      * rewrite (reverse_complement_foreign _ Hf) in He'. by injection He'.
      * destruct (reverse_complement_clean _ Hf) as [rc Hrc]. congruence.
  - destruct (complement_nodes_ok _ _ body Hbody (m_nodes G)
                (foldl add_node empty_digraph (m_nodes G), title))
      as [[D t] ->].
    + apply Forall_forall. intros x Hx. apply reverse_complement_clean.
      intros Hf. apply H, Exists_exists. by exists x.
    + simpl. by eexists _, _.
Qed.

(** The sequences of a successful conversion: a complement node that is
    kept carries the reverse complement of the sequence of its node (when
    no other node gives the same complement name), and a kept node that is
    nobody's complement carries the sequence it had. *)
Theorem convert_de_bruijn_to_digraph_titles (G : MultiDiGraph)
    (val title : gmap string string) (DG : DiGraph)
    (titles : gmap string string) :
  convert_de_bruijn_to_digraph G val title = Ok (DG, titles) →
  (∀ n, n ∈ m_nodes G →
        (∀ m, m ∈ m_nodes G →
              "c" +:+ default m (val !! m) = "c" +:+ default n (val !! n) →
              m = n) →
        ("c" +:+ default n (val !! n)) ∈ nodes DG →
        ∃ rc, reverse_complement (default "" (title !! n)) = Ok rc
              ∧ titles !! ("c" +:+ default n (val !! n)) = Some rc)
  ∧ (∀ x, x ∈ nodes DG →
          (∀ m, m ∈ m_nodes G → "c" +:+ default m (val !! m) ≠ x) →
          titles !! x = title !! x)
  ∧ (∀ x, x ∉ nodes DG → titles !! x = None).
Proof.
  unfold convert_de_bruijn_to_digraph.
  set (body := λ (node : string) (s : DiGraph * gmap string string), _).
  assert (Hbody : ∀ x s,
    body x s = (rc ← reverse_complement (default "" (title !! x));
                Ok (add_node s.1 ("c" +:+ default x (val !! x)),
                    <["c" +:+ default x (val !! x) := rc]> s.2)))
    by (by intros x [D t]).
  destruct (for_each (m_nodes G) body _) as [[D t]|] eqn:Hloop; [|done].
  simpl. intros [= <- <-]. split_and!.
  - intros n Hn Hinj Hkept.
    destruct (complement_nodes_set _ _ body Hbody _ _ _ n Hloop Hn Hinj)
      as (rc & Hrc & Hlook).
    exists rc. split; [done|]. by apply map_lookup_filter_Some.
  - intros x Hx Hfree.
    pose proof (complement_nodes_other _ _ body Hbody _ _ _ x Hloop Hfree)
      as Hsame. simpl in Hsame.
    destruct (t !! x) as [sq|] eqn:E.
    + rewrite <- Hsame. by apply map_lookup_filter_Some.
    + rewrite <- Hsame. apply map_lookup_filter_None. left. done.
  - intros x Hx. apply map_lookup_filter_None. right. intros sq _. done.
Qed.

Lemma convert_de_bruijn_to_digraph_titles_witness :
  let G := build [InsertLinks "S1" ["L:+:S2:-"]] in
  let title : gmap string string :=
    <["S1" := "AAAGT"]> (<["S2" := "GAACT"]> ∅) in
  let val : gmap string string := ∅ in
  ∃ DG titles,
    convert_de_bruijn_to_digraph G val title = Ok (DG, titles)
    ∧ (∀ n, n ∈ m_nodes G →
            (∀ m, m ∈ m_nodes G →
                  "c" +:+ default m (val !! m) = "c" +:+ default n (val !! n) →
                  m = n) →
            ("c" +:+ default n (val !! n)) ∈ nodes DG →
            ∃ rc, reverse_complement (default "" (title !! n)) = Ok rc
                  ∧ titles !! ("c" +:+ default n (val !! n)) = Some rc)
    ∧ (∀ x, x ∈ nodes DG →
            (∀ m, m ∈ m_nodes G → "c" +:+ default m (val !! m) ≠ x) →
            titles !! x = title !! x)
    ∧ (∀ x, x ∉ nodes DG → titles !! x = None).
Proof.
  intros G title val.
  destruct (convert_de_bruijn_to_digraph G val title)
    as [[DG titles]|] eqn:E.
  - exists DG, titles. split; [reflexivity|].
    exact (convert_de_bruijn_to_digraph_titles G val title DG titles E).
  - exfalso.
    assert (Hb : match convert_de_bruijn_to_digraph G val title with
                 | Ok _ => true
                 | Raise _ => false
                 end = true) by (vm_compute; reflexivity).
    rewrite E in Hb. discriminate.
Defined.

(** ** The node register (src/tools_base.py) *)

(** [registre_nodes] numbers the nodes by their place in [G.nodes()]: on a
    graph that lists no node twice the register is a bijection between the
    nodes and [0, |V|). *)
Theorem registre_nodes_numbering (G : DiGraph) :
  NoDup (nodes G) →
  (∀ n i, registre_nodes G !! n = Some i ↔ nodes G !! i = Some n)
  ∧ (∀ n, n ∈ nodes G →
          ∃ i, registre_nodes G !! n = Some i ∧ (i < length (nodes G))%nat)
  ∧ size (registre_nodes G) = length (nodes G).
Proof.
  intros Hnd.
  destruct (enumerate_lookup (nodes G) Hnd) as [Hlook Hsize].
  split_and!; [exact Hlook | | exact Hsize].
  intros n Hn. apply list_elem_of_lookup in Hn as [i Hi].
  exists i. split; [by apply Hlook | by eapply lookup_lt_Some].
Qed.

Lemma registre_nodes_numbering_witness :
  NoDup (nodes diamond_graph)
  ∧ (∀ n i, registre_nodes diamond_graph !! n = Some i
            ↔ nodes diamond_graph !! i = Some n)
  ∧ (∀ n, n ∈ nodes diamond_graph →
          ∃ i, registre_nodes diamond_graph !! n = Some i
               ∧ (i < length (nodes diamond_graph))%nat)
  ∧ size (registre_nodes diamond_graph) = length (nodes diamond_graph).
Proof.
  assert (H : NoDup (nodes diamond_graph)).
  { apply (bool_decide_unpack _). vm_compute. exact I. }
  split; [exact H|]. exact (registre_nodes_numbering diamond_graph H).
Defined.
